(** * lakeFS: relational-to-KV migration (pkg/kv, pkg/kv/postgres) and the
      Azure walker's URL splitting (pkg/ingest/store)

    A shallow embedding of
      - [kv.Import]                 (pkg/kv/import.go),
      - [postgres.Migrate], [validateVersion], [dropTables], [Register],
        [UnRegisterAll]             (pkg/kv/postgres/migrate.go),
      - [extractAzurePrefix], [getAzureBlobURL], [Walk], [Marker]
                                    (pkg/ingest/store/azure.go),
    and the properties of the migration pipeline and of the walker proved
    about them. *)

From Stdlib Require Import ZArith String Ascii List Lia DecimalString.
From Stdlib Require Import DecimalPos Sorted.
From stdpp Require Import base option list gmap strings stringmap.

Set Warnings "-register-all".

Open Scope Z_scope.
Open Scope string_scope.

(** Go's [[]byte]: the contents are a byte sequence, and Rocq strings are
    sequences of 8-bit characters.  A slice value is [option bytes]: [None]
    is the nil slice, [Some ""] an allocated slice of length zero. *)
Abbreviation bytes := string (only parsing).
Abbreviation slice := (option string) (only parsing).

Definition len (s : slice) : nat :=
  match s with
  | None => O
  | Some b => String.length b
  end.

Definition slice_data (s : slice) : bytes := default "" s.

(** ** Go errors *)
Module Errors.

(** Error values created with [errors.New]; compared by identity. *)
Inductive sentinel : Type :=
| EOF                (* io.EOF *)
| ErrInvalidFormat   (* kv.ErrInvalidFormat, import.go line 14 *)
| ErrNotFound        (* kv.ErrNotFound *)
| ErrPredicateFailed (* kv: the conditional write found another value *).

#[global] Instance sentinel_eq_dec : EqDecision sentinel.
Proof. solve_decision. Defined.

Inductive error : Type :=
| Sentinel (s : sentinel)
| ExtErr (msg : string)                   (* an error made by a collaborator *)
| Errorf (prefix : string) (err : error)  (* fmt.Errorf(prefix + "%w", err) *)
| MultiErr (errs : list error)            (* *multierror.Error *).

Coercion Sentinel : sentinel >-> error.

(** [errors.Is]: walks the chain of wrapped errors; a multierror matches
    when one of the errors it holds does. *)
Fixpoint errors_Is (err : error) (target : sentinel) : bool :=
  match err with
  | Sentinel s => bool_decide (s = target)
  | ExtErr _ => false
  | Errorf _ e => errors_Is e target
  | MultiErr es => existsb (fun e => errors_Is e target) es
  end.

Definition sentinel_text (s : sentinel) : string :=
  match s with
  | EOF => "EOF"
  | ErrInvalidFormat => "invalid format"
  | ErrNotFound => "not found"
  | ErrPredicateFailed => "predicate failed"
  end.

Definition nl : string := String "010" EmptyString.
Definition tab : string := String "009" EmptyString.

(** The [Error()] text.  A multierror prints the count of its errors and
    one bullet per error. *)
Fixpoint Error (err : error) : string :=
  match err with
  | Sentinel s => sentinel_text s
  | ExtErr msg => msg
  | Errorf prefix e => prefix ++ Error e
  | MultiErr es =>
      match es with
      | [e] => "1 error occurred:" ++ nl ++ tab ++ "* " ++ Error e ++ nl ++ nl
      | _ =>
          NilZero.string_of_uint (Nat.to_uint (length es)) ++ " errors occurred:"
          ++ nl ++ tab
          ++ String.concat (nl ++ tab) (map (fun e => "* " ++ Error e) es)
          ++ nl ++ nl
      end
  end.

End Errors.
Export Errors.

(** ** pkg/kv *)
Module KV.

(** *** The store *)

(** The [kv.Store] interface is declared elsewhere in package [kv]; its
    operations are modelled from section 6 of the specification.  A store
    is a handle on one backing table of keys and values; [None] is a
    handle whose table has been dropped underneath it. *)
Abbreviation kvmap := (gmap string string) (only parsing).
Abbreviation Store := (option (gmap string string)) (only parsing).

Definition ErrNoTable : error := ExtErr "relation does not exist".

(** Modelled from the spec: [Store.Get], declared elsewhere in package
    [kv].  Section 6: [get(key) -> value | NotFound]. *)
Definition Get (store : Store) (key : bytes) : slice * option error :=
  match store with
  | None => (None, Some ErrNoTable)
  | Some m =>
      match m !! key with
      | Some v => (Some v, None)
      | None => (None, Some (Sentinel ErrNotFound))
      end
  end.

(** Modelled from the spec: [Store.Set], declared elsewhere in package
    [kv].  Section 6: [set(key, value) -> ok | error]. *)
Definition Set_ (store : Store) (key value : bytes) : Store * option error :=
  match store with
  | None => (None, Some ErrNoTable)
  | Some m => (Some (<[key:=value]> m), None)
  end.

(** Modelled from the spec: [Store.SetIf], declared elsewhere in package
    [kv].  Section 6: [setIf(key, value, expectedPrevious) -> ok |
    ConditionFailed]; section 4.2: with no expected value, the value is set
    only if the key currently has no value.  [ErrPredicateFailed] is the
    specification's [ConditionFailed]. *)
Definition SetIf (store : Store) (key value : bytes) (valuePredicate : slice)
  : Store * option error :=
  match store with
  | None => (None, Some ErrNoTable)
  | Some m =>
      if decide (m !! key = valuePredicate)
      then (Some (<[key:=value]> m), None)
      else (Some m, Some (Sentinel ErrPredicateFailed))
  end.

(** *** Records *)

(** [time.Time] is a struct of three words; Go's [==] compares them. *)
Record Time := { wall : Z; ext : Z; loc : option string }.

(** import.go lines 17-22. *)
Record Header := {
  LakeFSVersion : string;
  PkgName : string;
  DBVersion : Z;   (* uint32 *)
  Timestamp : Time
}.

(** Modelled from the spec: [kv.Entry] is declared elsewhere in package
    [kv].  Section 3: key and value are opaque byte sequences, and a
    value that is absent differs from one that is present with length zero:
    both fields are slices. *)
Record Entry := { Key : slice; Value : slice }.

#[global] Instance Time_eq_dec : EqDecision Time.
Proof. solve_decision. Defined.
#[global] Instance Header_eq_dec : EqDecision Header.
Proof. solve_decision. Defined.
#[global] Instance Entry_eq_dec : EqDecision Entry.
Proof. solve_decision. Defined.

Definition Time_zero : Time := {| wall := 0; ext := 0; loc := None |}.
Definition Header_zero : Header :=
  {| LakeFSVersion := ""; PkgName := ""; DBVersion := 0; Timestamp := Time_zero |}.
Definition Entry_zero : Entry := {| Key := None; Value := None |}.

(** *** encoding/json, as far as [Import] uses it

    The reader's content is the sequence of JSON values the decoder finds
    in it.  A value is either an object, of which only the members that
    name a field of [Header] or [Entry] matter, or something [Decode]
    answers with an error other than [io.EOF] (a syntax error, a member of
    the wrong type, a truncated value). *)
Inductive member (A : Type) : Type :=
| Absent          (* the object has no such member *)
| Null            (* the member is the JSON null *)
| Given (a : A)   (* the member has a value of the field's type *).
Arguments Absent {A}.
Arguments Null {A}.
Arguments Given {A} a.

Record object := {
  mLakeFSVersion : member string;
  mPkgName : member string;
  mDBVersion : member Z;
  mTimestamp : member Time;
  mKey : member string;
  mValue : member string
}.

Inductive frame : Type :=
| Obj (o : object)
| Bad (msg : string).

Abbreviation Decoder := (list frame) (only parsing).

(** [Decode] stores into the variable it is handed: a member that is
    present overwrites the field, a member that is absent leaves the field
    as it was.  JSON null sets a slice to nil and leaves a string, a number
    and a [time.Time] untouched. *)
Definition store_plain {A} (m : member A) (old : A) : A :=
  match m with
  | Given a => a
  | Absent | Null => old
  end.

Definition store_slice (m : member string) (old : slice) : slice :=
  match m with
  | Given b => Some b
  | Null => None
  | Absent => old
  end.

Class Unmarshal (T : Type) := unmarshal : object -> T -> T * option error.

Definition uint32_ok (m : member Z) : bool :=
  match m with
  | Given z => Z.leb 0 z && Z.ltb z (2 ^ 32)
  | Absent | Null => true
  end.

#[global] Instance Header_unmarshal : Unmarshal Header := fun o h =>
  let h' := {| LakeFSVersion := store_plain (mLakeFSVersion o) (LakeFSVersion h);
               PkgName := store_plain (mPkgName o) (PkgName h);
               DBVersion := if uint32_ok (mDBVersion o)
                            then store_plain (mDBVersion o) (DBVersion h)
                            else DBVersion h;
               Timestamp := store_plain (mTimestamp o) (Timestamp h) |} in
  (h', if uint32_ok (mDBVersion o) then None
       else Some (ExtErr "json: cannot unmarshal number into Go struct field Header.DBVersion of type uint32")).

#[global] Instance Entry_unmarshal : Unmarshal Entry := fun o e =>
  ({| Key := store_slice (mKey o) (Key e);
      Value := store_slice (mValue o) (Value e) |}, None).

(** What [Decode] makes of one JSON value. *)
Definition decode_value {T} `{Unmarshal T} (fr : frame) (v : T)
  : T * option error :=
  match fr with
  | Bad msg => (v, Some (ExtErr msg))
  | Obj o => unmarshal o v
  end.

(** [jd.Decode(&v)]: the rest of the input, the variable after the call and
    the error; [io.EOF] when the input is exhausted. *)
Definition Decode {T} `{Unmarshal T} (jd : Decoder) (v : T)
  : Decoder * T * option error :=
  match jd with
  | [] => ([], v, Some (Sentinel EOF))
  | fr :: jd' => let '(v', err) := decode_value fr v in (jd', v', err)
  end.

(** *** Import (import.go lines 27-66) *)

(** How one pass through the body of the [for] loop ends. *)
Inductive flow : Type :=
| Continue
| Break
| Return (err : error).

(** Lines 47-63, after [jd.Decode(&entry)] has answered [err]. *)
Definition loop_body (entry : Entry) (err : option error) (store : Store)
  : Store * flow :=
  match err with
  | Some e =>
      if errors_Is e EOF then (store, Break)
      else (store, Return (Errorf "decoding entry: " e))
  | None =>
      if (len (Key entry) =? 0)%nat
      then (store, Return (Errorf "bad entry key: " ErrInvalidFormat))
      else
        match Value entry with
        | None => (store, Return (Errorf "bad entry value: " ErrInvalidFormat))
        | Some value =>
            match SetIf store (slice_data (Key entry)) value None with
            | (store', Some e) => (store', Return e)
            | (store', None) => (store', Continue)
            end
        end
  end.

(** Lines 45-65.  [entry] is declared once, before the loop (line 44), and
    every pass decodes into it. *)
Fixpoint Import_loop (jd : Decoder) (entry : Entry) (store : Store)
  : Store * option error :=
  match jd with
  | [] =>
      match loop_body entry (Some (Sentinel EOF)) store with
      | (store', Return e) => (store', Some e)
      | (store', _) => (store', None)
      end
  | fr :: jd' =>
      let '(entry', err) := decode_value fr entry in
      match loop_body entry' err store with
      | (store', Continue) => Import_loop jd' entry' store'
      | (store', Break) => (store', None)
      | (store', Return e) => (store', Some e)
      end
  end.

(** Lines 28-42: the header.  [inl] is the error [Import] returns, [inr]
    the decoder positioned after the header.  [readHeader] (line 42) writes
    a log line and nothing else. *)
Definition Import_header (jd : Decoder) : error + Decoder :=
  let '(jd', header, err) := Decode jd Header_zero in
  match err with
  | Some e =>
      if errors_Is e EOF then inl (Errorf "empty file: " ErrInvalidFormat)
      else inl (Errorf "decoding header: " e)
  | None =>
      if decide (header = Header_zero)
      then inl (Errorf "bad header format: " ErrInvalidFormat)
      else inr jd'
  end.

Definition Import (reader : Decoder) (store : Store) : Store * option error :=
  match Import_header reader with
  | inl e => (store, Some e)
  | inr jd => Import_loop jd Entry_zero store
  end.

End KV.

(** ** pkg/ingest/store: the Azure walker's URL splitting *)
Module Azure.

(** *** strings *)

Definition slash : ascii := "/"%char.

(** [strings.TrimLeft(s, cutset)]: drops the leading characters of [s] that
    occur in [cutset]. *)
Fixpoint in_cutset (c : ascii) (cutset : string) : bool :=
  match cutset with
  | EmptyString => false
  | String d cutset' => if Ascii.eqb c d then true else in_cutset c cutset'
  end.

Fixpoint TrimLeft (s cutset : string) : string :=
  match s with
  | EmptyString => EmptyString
  | String c s' => if in_cutset c cutset then TrimLeft s' cutset else s
  end.

(** [strings.Cut(s, sep)] for a separator of one character: the text
    before and after the first [sep], if there is one. *)
Fixpoint Cut (s : string) (sep : ascii) : option (string * string) :=
  match s with
  | EmptyString => None
  | String c s' =>
      if Ascii.eqb c sep then Some (EmptyString, s')
      else match Cut s' sep with
           | Some (before, rest) => Some (String c before, rest)
           | None => None
           end
  end.

(** [strings.SplitN(s, sep, 2)]: at most two parts, split at the first
    separator. *)
Definition SplitN2 (s : string) (sep : ascii) : list string :=
  match Cut s sep with
  | Some (before, rest) => [before; rest]
  | None => [s]
  end.

(** [strings.Split(s, sep)]: all the parts; one part when there is no
    separator. *)
Fixpoint Split (s : string) (sep : ascii) : list string :=
  match s with
  | EmptyString => [EmptyString]
  | String c s' =>
      if Ascii.eqb c sep then EmptyString :: Split s' sep
      else match Split s' sep with
           | part :: parts => String c part :: parts
           | [] => [String c EmptyString]
           end
  end.

Definition Join (parts : list string) (sep : string) : string :=
  String.concat sep parts.

Definition TrimPrefix (s prefix : string) : string :=
  if String.prefix prefix s
  then String.substring (String.length prefix)
         (String.length s - String.length prefix) s
  else s.

(** The text up to and including the last [sep] of [s]; empty when there
    is none ([base[:strings.LastIndex(base, sep)+1]]). *)
Fixpoint through_last (s : string) (sep : ascii) : string :=
  match s with
  | EmptyString => EmptyString
  | String c s' =>
      match through_last s' sep with
      | EmptyString => if Ascii.eqb c sep then String c EmptyString else EmptyString
      | t => String c t
      end
  end.

(** *** net/url *)

Record Userinfo := { username : string; password : string; passwordSet : bool }.

Record URL := {
  Scheme : string;
  Opaque : string;
  User : option Userinfo;
  Host : string;
  Path : string;
  RawPath : string;
  ForceQuery : bool;
  RawQuery : string;
  Fragment : string;
  RawFragment : string
}.

(** [url.URL{Path: p}] *)
Definition URL_of_path (p : string) : URL :=
  {| Scheme := ""; Opaque := ""; User := None; Host := ""; Path := p;
     RawPath := ""; ForceQuery := false; RawQuery := ""; Fragment := "";
     RawFragment := "" |}.

(** net/url's [resolvePath]: the reference path joined to the base, with
    the segments [.] and [..] resolved (RFC 3986, 5.2.4). *)
Definition remove_dot_segments (src : list string) : list string :=
  fold_left (fun dst elem =>
               if String.eqb elem "." then dst
               else if String.eqb elem ".." then removelast dst
               else (dst ++ [elem])%list) src [].

Definition resolvePath (base ref : string) : string :=
  let full :=
    match ref with
    | EmptyString => base
    | String c _ =>
        if Ascii.eqb c slash then ref else through_last base slash ++ ref
    end in
  match full with
  | EmptyString => EmptyString
  | _ =>
      let src := Split full slash in
      let dst := remove_dot_segments src in
      let last := List.last src EmptyString in
      let dst := if String.eqb last "." || String.eqb last ".."
                 then (dst ++ [EmptyString])%list else dst in
      "/" ++ TrimPrefix (Join dst "/") "/"
  end.

(** net/url's [URL.ResolveReference].  Paths are taken in their decoded
    form: [EscapedPath] escapes neither a slash nor a dot, so resolving the
    escaped path and decoding the result, as the library does, gives the
    resolution of the decoded path, and [setPath] leaves [RawPath] empty. *)
Definition setPath (u : URL) (p : string) : URL :=
  {| Scheme := Scheme u; Opaque := Opaque u; User := User u; Host := Host u;
     Path := p; RawPath := ""; ForceQuery := ForceQuery u;
     RawQuery := RawQuery u; Fragment := Fragment u;
     RawFragment := RawFragment u |}.

Definition ResolveReference (u ref : URL) : URL :=
  let scheme := if String.eqb (Scheme ref) "" then Scheme u else Scheme ref in
  if negb (String.eqb (Scheme ref) "") || negb (String.eqb (Host ref) "")
     || bool_decide (User ref <> None)
  then
    setPath {| Scheme := scheme; Opaque := Opaque ref; User := User ref;
               Host := Host ref; Path := Path ref; RawPath := RawPath ref;
               ForceQuery := ForceQuery ref; RawQuery := RawQuery ref;
               Fragment := Fragment ref; RawFragment := RawFragment ref |}
            (resolvePath (Path ref) "")
  else if negb (String.eqb (Opaque ref) "")
  then
    {| Scheme := scheme; Opaque := Opaque ref; User := None; Host := "";
       Path := ""; RawPath := RawPath ref; ForceQuery := ForceQuery ref;
       RawQuery := RawQuery ref; Fragment := Fragment ref;
       RawFragment := RawFragment ref |}
  else
    let inherit := String.eqb (Path ref) "" && negb (ForceQuery ref)
                   && String.eqb (RawQuery ref) "" in
    let inherit_fragment := inherit && String.eqb (Fragment ref) "" in
    setPath {| Scheme := scheme; Opaque := Opaque ref; User := User u;
               Host := Host u; Path := Path ref; RawPath := RawPath ref;
               ForceQuery := ForceQuery ref;
               RawQuery := if inherit then RawQuery u else RawQuery ref;
               Fragment := if inherit_fragment then Fragment u else Fragment ref;
               RawFragment := if inherit_fragment then RawFragment u
                              else RawFragment ref |}
            (resolvePath (Path u) (Path ref)).

(** *** azure.go *)

(** Lines 16-19, and the error line 53 makes:
    [fmt.Errorf("%w: could not parse container URL: %s", err, storageURI)]. *)
Inductive azure_error : Type :=
| ErrAzureInvalidURL
| ErrAzureCredentials
| ErrorfURL (err : azure_error) (text : string) (storageURI : URL).

Fixpoint azure_Is (err target : azure_error) : bool :=
  match err, target with
  | ErrAzureInvalidURL, ErrAzureInvalidURL => true
  | ErrAzureCredentials, ErrAzureCredentials => true
  | ErrorfURL e _ _, _ => azure_Is e target
  | _, _ => false
  end.

(** Lines 50-63.  A nil [*url.URL] is [None]. *)
Definition extractAzurePrefix (storageURI : URL)
  : option URL * string * option azure_error :=
  let path := TrimLeft (Path storageURI) "/" in
  if (String.length path =? 0)%nat then
    (None, "", Some (ErrorfURL ErrAzureInvalidURL
                       ": could not parse container URL: " storageURI))
  else
    match SplitN2 path slash with
    | [_] =>
        (* we only have a container *)
        (Some storageURI, "", None)
    | parts =>
        (* we have both prefix and storage container, rebuild URL *)
        let relativePath := URL_of_path ("/" ++ nth 0 parts "") in
        (Some (ResolveReference storageURI relativePath), nth 1 parts "", None)
    end.

(** *** The walker (azure.go lines 36-46 and 65-115) *)

(** Lines 65-68. *)
Definition getAzureBlobURL (containerURL : URL) (blobName : string) : URL :=
  let relativePath := URL_of_path (Path containerURL ++ "/" ++ blobName) in
  ResolveReference containerURL relativePath.

(** [Mark], [WalkOptions] and [ObjectStoreEntry] are declared elsewhere in
    package [store]; the fields are those azure.go reads and writes.  Both
    [Mark] and [WalkOptions] have a field [ContinuationToken];
    [Address] holds the URL whose text ([String()]) the code stores. *)
Record Mark := { ContinuationToken : string; LastKey : string; HasMore : bool }.

Record WalkOptions := { After : string; WalkOptions_ContinuationToken : string }.

Record ObjectStoreEntry := {
  FullKey : string;
  RelativeKey : string;
  Address : URL;
  ETag : string;
  Mtime : KV.Time;
  Size : Z
}.

(** Lines 43-46; the client is the pipeline the requests go through. *)
Record azureBlobWalker := { mark : Mark }.

(** Lines 36-41. *)
Definition NewAzureBlobWalker : azureBlobWalker :=
  {| mark := {| ContinuationToken := ""; LastKey := ""; HasMore := true |} |}.

(** Lines 113-115. *)
Definition Marker (a : azureBlobWalker) : Mark := mark a.

(** azblob: a blob of a listing with the properties the walker reads
    ([ContentLength] is a pointer), one answer of [ListBlobsFlatSegment],
    and [Marker.NotDone]: a marker is a pointer to a string, and the
    listing is over when it points to the empty string. *)
Record BlobItem := {
  Name : string;
  Etag : string;
  LastModified : KV.Time;
  ContentLength : option Z
}.

Record ListBlobsFlatSegmentResponse := {
  BlobItems : list BlobItem;
  NextMarker : option string
}.

Definition NotDone (marker : option string) : bool :=
  match marker with
  | None => true
  | Some val => negb (String.eqb val "")
  end.

(** [swag.StringValue] *)
Definition StringValue (v : option string) : string := default "" v.

(** How a call of [Walk] ends: it returns, it panics on a nil
    [ContentLength], or the service has not ended the listing within the
    number of requests considered. *)
Inductive ending (E : Type) : Type :=
| Returns (err : option (azure_error + E))
| Panics
| Listing.
Arguments Returns {E} err.
Arguments Panics {E}.
Arguments Listing {E}.

Section Walker.

(** The errors of the collaborators, the state the callback works on, the
    listing service ([container.ListBlobsFlatSegment] for a container URL,
    a marker and a prefix) and the callback. *)
Variables E T : Type.
Variable ListBlobsFlatSegment :
  URL -> option string -> string -> ListBlobsFlatSegmentResponse + E.
Variable walkFn : T -> ObjectStoreEntry -> T * option E.

(** Lines 95-102: the entry handed to the callback. *)
Definition entry_of (containerURL : URL) (prefix : string) (blobInfo : BlobItem)
    (size : Z) : ObjectStoreEntry :=
  {| FullKey := Name blobInfo;
     RelativeKey := TrimPrefix (Name blobInfo) prefix;
     Address := getAzureBlobURL containerURL (Name blobInfo);
     ETag := Etag blobInfo;
     Mtime := LastModified blobInfo;
     Size := size |}.

(** Lines 89-106: the blobs of one answer.  [None]: the page is done. *)
Fixpoint walk_items (items : list BlobItem) (containerURL : URL) (prefix : string)
    (op : WalkOptions) (mark : Mark) (s : T) : T * Mark * option (ending E) :=
  match items with
  | [] => (s, mark, None)
  | blobInfo :: items' =>
      (* skipping everything in the page which is before 'After' *)
      if negb (String.eqb (After op) "") && String.leb (Name blobInfo) (After op)
      then walk_items items' containerURL prefix op mark s
      else
        let mark := {| ContinuationToken := ContinuationToken mark;
                       LastKey := Name blobInfo;
                       HasMore := HasMore mark |} in
        match ContentLength blobInfo with
        | None => (s, mark, Some Panics)
        | Some size =>
            match walkFn s (entry_of containerURL prefix blobInfo size) with
            | (s', Some err) => (s', mark, Some (Returns (Some (inr err))))
            | (s', None) => walk_items items' containerURL prefix op mark s'
            end
        end
  end.

(** Lines 78-107: the loop over the answers; [fuel] bounds the number of
    requests. *)
Fixpoint walk_pages (fuel : nat) (marker : option string) (containerURL : URL)
    (prefix : string) (op : WalkOptions) (mark : Mark) (s : T)
  : T * Mark * ending E :=
  match fuel with
  | O => (s, mark, Listing)
  | S fuel' =>
      match ListBlobsFlatSegment containerURL marker prefix with
      | inr err => (s, mark, Returns (Some (inr err)))
      | inl listBlob =>
          let mark := {| ContinuationToken := StringValue marker;
                         LastKey := LastKey mark;
                         HasMore := HasMore mark |} in
          let marker := NextMarker listBlob in
          match walk_items (BlobItems listBlob) containerURL prefix op mark s with
          | (s', mark', Some e) => (s', mark', e)
          | (s', mark', None) =>
              if NotDone marker
              then walk_pages fuel' marker containerURL prefix op mark' s'
              else (s', {| ContinuationToken := ""; LastKey := ""; HasMore := false |},
                    Returns None)
          end
      end
  end.

(** Lines 70-111. *)
Definition Walk (fuel : nat) (a : azureBlobWalker) (storageURI : URL)
    (op : WalkOptions) (s : T) : T * azureBlobWalker * ending E :=
  match extractAzurePrefix storageURI with
  | (_, _, Some err) => (s, a, Returns (Some (inl err)))
  | (None, _, None) => (s, a, Panics)
  | (Some containerURL, prefix, None) =>
      let '(s', mark', e) :=
        walk_pages fuel (Some (WalkOptions_ContinuationToken op)) containerURL
          prefix op (mark a) s in
      (s', {| mark := mark' |}, e)
  end.

End Walker.

Arguments walk_items {E T} walkFn items containerURL prefix op mark s.
Arguments walk_pages {E T} ListBlobsFlatSegment walkFn fuel marker containerURL
  prefix op mark s.
Arguments Walk {E T} ListBlobsFlatSegment walkFn fuel a storageURI op s.

End Azure.

(** ** strconv *)
Module Strconv.

(** [strconv.Itoa] *)
Definition Itoa (i : Z) : string := NilZero.string_of_int (Z.to_int i).

Definition digit (c : ascii) : option Z :=
  let n := Z.of_N (N_of_ascii c) in
  if Z.leb 48 n && Z.leb n 57 then Some (n - 48) else None.

Fixpoint digits (s : string) (acc : Z) : option Z :=
  match s with
  | EmptyString => Some acc
  | String c s' =>
      match digit c with
      | Some d => digits s' (10 * acc + d)
      | None => None
      end
  end.

(** [strconv.Atoi]: an optional sign and at least one decimal digit, within
    the range of a 64-bit [int]; [None] stands for the error. *)
Definition Atoi (s : string) : option Z :=
  match s with
  | EmptyString => None
  | String c s' =>
      let signed := Ascii.eqb c "-" || Ascii.eqb c "+" in
      let body := if signed then s' else s in
      match body with
      | EmptyString => None
      | _ =>
          match digits body 0 with
          | Some n =>
              let n := if Ascii.eqb c "-" then - n else n in
              if Z.leb (- 2 ^ 63) n && Z.ltb n (2 ^ 63) then Some n else None
          | None => None
          end
      end
  end.

End Strconv.

(** ** pkg/kv/postgres *)
Module Postgres.
Import KV Strconv.

(** The fields of [params.Database] that [Migrate] reads. *)
Record Database := {
  KVEnabled : bool;
  ConnectionString : string;
  DropTables : bool
}.

(** *** The world around [Migrate] *)

(** The statement [dropTables] sends: [DROP TABLE IF EXISTS] followed by
    the identifiers, already quoted, separated by commas. *)
Inductive sql : Type :=
| DropTableIfExists (idents : list string).

Definition sql_text (q : sql) : string :=
  match q with
  | DropTableIfExists idents => "DROP TABLE IF EXISTS " ++ String.concat ", " idents
  end.

(** [pgx.Identifier{table}.Sanitize()]: the name without its NUL bytes,
    each double quote doubled, between double quotes. *)
Definition dquote : ascii := "034"%char.

Fixpoint escape_ident (s : string) : string :=
  match s with
  | EmptyString => EmptyString
  | String c s' =>
      if Ascii.eqb c "000" then escape_ident s'
      else if Ascii.eqb c dquote then String dquote (String dquote (escape_ident s'))
      else String c (escape_ident s')
  end.

Definition Sanitize (table : string) : string :=
  String dquote (escape_ident table ++ String dquote EmptyString).

(** The calls [Migrate] makes to its collaborators: the KV driver, the
    connection pool, the operating system. *)
Inductive call : Type :=
| kv_Open (driver dsn : string)
| store_Close
| store_Set (key value : string)
| pool_Exec (q : sql)
| os_MkdirTemp (pattern name : string)
| os_CreateTemp (dir pattern : string)
| file_Seek (pkg : string)
| os_RemoveAll (path : string).

Inductive event : Type :=
| Call (c : call) (err : option error)
| Log (level msg : string).

(** A provider writes an export stream for the relational tables it is
    handed and answers with an error or nil (migrate.go line 25). *)
Definition MigrateFunc : Type := gset string -> list frame * option error.

(** Lines 32-35. *)
Record pkgMigrate := { Func : MigrateFunc; Tables : list string }.

(** *** The registry (lines 28-30 and 148-167) *)

(** [kvPkgs] maps the name of a package to its callback and its tables.
    [registerMu] lets [Register] and [UnRegisterAll] run one at a time, so
    each of them is a function of the registry it finds. *)
Abbreviation registry := (gmap string pkgMigrate) (only parsing).

(** A function that may panic. *)
Inductive may_panic (A : Type) : Type :=
| Done (a : A)
| Panic (msg : string).
Arguments Done {A} a.
Arguments Panic {A} msg.

(** Lines 148-158. *)
Definition Register (name : string) (f : MigrateFunc) (tables : list string)
    (kvPkgs : registry) : may_panic registry :=
  match kvPkgs !! name with
  | Some _ => Panic ("Package already registered: " ++ name)
  | None => Done (<[name := {| Func := f; Tables := tables |}]> kvPkgs)
  end.

(** Lines 161-167: [for k := range kvPkgs { delete(kvPkgs, k) }]. *)
Definition UnRegisterAll (kvPkgs : registry) : registry :=
  map_fold (fun k _ m => delete k m) kvPkgs kvPkgs.

(** - [table]: the table behind the KV store, [None] when it does not exist;
    - [relations]: the tables of the relational source;
    - [dirs]: the staging directories on disk;
    - [trace]: the calls made and the lines logged, oldest first. *)
Record World := {
  table : option (gmap string string);
  relations : gset string;
  dirs : gset string;
  trace : list event
}.

Definition with_table (w : World) (t : option (gmap string string)) : World :=
  {| table := t; relations := relations w; dirs := dirs w; trace := trace w |}.

Definition record (ev : event) (w : World) : World :=
  {| table := table w; relations := relations w; dirs := dirs w;
     trace := trace w ++ [ev] |}.

(** A function either goes on with a value or has returned. *)
Inductive outcome (A : Type) : Type :=
| Yield (a : A)
| Returned (err : option error).
Arguments Yield {A} a.
Arguments Returned {A} err.

Definition M (A : Type) : Type := World -> World * outcome A.

#[global] Instance M_ret : MRet M := fun A a w => (w, Yield a).
#[global] Instance M_bind : MBind M := fun A B f m w =>
  match m w with
  | (w', Yield a) => f a w'
  | (w', Returned r) => (w', Returned r)
  end.

Definition return_ {A} (err : option error) : M A := fun w => (w, Returned err).

(** [if err != nil { return wrap(err) }] *)
Definition check (err : option error) (wrap : error -> error) : M unit :=
  match err with
  | Some e => return_ (Some (wrap e))
  | None => mret tt
  end.

(** [defer f()]: [f] runs when the body is left, however it is left. *)
Definition defer {A} (f : World -> World) (body : M A) : M A := fun w =>
  let '(w', r) := body w in (f w', r).

Definition logging (level msg : string) : M unit := fun w =>
  (record (Log level msg) w, Yield tt).

(** Reading the world, and changing it. *)
Definition reads {A} (f : World -> A) : M A := fun w => (w, Yield (f w)).
Definition does (f : World -> World) : M unit := fun w => (f w, Yield tt).

Section Migration.

(** Constants of packages [kv] and [postgres] that [migrate.go] uses and
    does not declare: the development holds for any value of them. *)
Variable InitialMigrateVersion : Z.
Variable DBVersionPath : string.
Variable DefaultTableName : string.
Variable DriverName : string.

(** The collaborators' answers: whether a call fails, given all that
    happened before it. *)
Variable env : list event -> call -> option error.

(** The registry (line 28), in the order in which this run ranges over it. *)
Variable kvPkgs : list (string * pkgMigrate).

(** The order in which the scheduler lets the provider tasks advance: the
    position, in [kvPkgs], of the task that takes the next step. *)
Variable schedule : list nat.

(** *** Calls *)

Definition kv_open (dsn : string) : M (option error) := fun w =>
  let c := kv_Open DriverName dsn in
  let err := env (trace w) c in
  let w' := match err with
            | None => with_table w (Some (default ∅ (table w)))
            | Some _ => w
            end in
  (record (Call c err) w', Yield err).

Definition store_close : World -> World := fun w =>
  record (Call store_Close (env (trace w) store_Close)) w.

Definition store_set (key value : string) : M (option error) := fun w =>
  let c := store_Set key value in
  match env (trace w) c with
  | Some e => (record (Call c (Some e)) w, Yield (Some e))
  | None =>
      let '(t', err) := Set_ (table w) key value in
      (record (Call c err) (with_table w t'), Yield err)
  end.

Definition drop_effect (idents : list string) (w : World) : World :=
  {| table := if bool_decide (Sanitize DefaultTableName ∈ idents)
              then None else table w;
     relations := filter (fun t => Sanitize t ∉ idents) (relations w);
     dirs := dirs w;
     trace := trace w |}.

Definition pool_exec (q : sql) : M (option error) := fun w =>
  let c := pool_Exec q in
  let err := env (trace w) c in
  let w' := match err, q with
            | None, DropTableIfExists idents => drop_effect idents w
            | Some _, _ => w
            end in
  (record (Call c err) w', Yield err).

Definition os_mkdir_temp (pattern : string) : M (string * option error) := fun w =>
  let name := fresh_string_of_set pattern (dirs w) in
  let c := os_MkdirTemp pattern name in
  match env (trace w) c with
  | Some e => (record (Call c (Some e)) w, Yield ("", Some e))
  | None =>
      (record (Call c None)
         {| table := table w; relations := relations w;
            dirs := {[name]} ∪ dirs w; trace := trace w |},
       Yield (name, None))
  end.

Definition os_remove_all (path : string) : M (option error) := fun w =>
  let c := os_RemoveAll path in
  let err := env (trace w) c in
  let w' := match err with
            | None => {| table := table w; relations := relations w;
                         dirs := dirs w ∖ {[path]}; trace := trace w |}
            | Some _ => w
            end in
  (record (Call c err) w', Yield err).

(** A call with no effect on the world as it is modelled. *)
Definition plain_call (c : call) (w : World) : World * option error :=
  let err := env (trace w) c in (record (Call c err) w, err).

(** *** The version marker *)

(** Modelled from the spec: [kv.GetDBVersion] is declared elsewhere in package
    [kv].  Section 3: the version marker is a single well-known key of
    the store that holds the migration progress, a number; the marker may
    be absent.  The number is read as [Migrate] writes it (lines 69 and
    118), in decimal. *)
Definition GetDBVersion (store : option (gmap string string)) : Z * option error :=
  match Get store DBVersionPath with
  | (_, Some e) => (-1, Some e)
  | (value, None) =>
      match Atoi (slice_data value) with
      | Some version => (version, None)
      | None => (-1, Some (ExtErr "strconv.Atoi: invalid syntax"))
      end
  end.

(** Lines 138-146. *)
Definition validateVersion (store : option (gmap string string)) : bool * option error :=
  let '(version, err) := GetDBVersion store in
  match err with
  | Some e =>
      if errors_Is e ErrNotFound then (false, None)
      else (false, Some e)
  | None => (* Version exists in DB *)
      (Z.ltb version InitialMigrateVersion, None)
  end.

(** *** dropTables (lines 169-181) *)

(** [%s] of a slice of strings. *)
Definition show_strings (l : list string) : string :=
  "[" ++ String.concat " " l ++ "]".

Definition dropTables (tables : list string) : M (option error) :=
  if (length tables <? 1)%nat then mret None
  else
    let tables := map Sanitize tables in
    err ← pool_exec (DropTableIfExists tables);
    match err with
    | Some e =>
        mret (Some (Errorf ("failed during drop tables: " ++ show_strings tables
                            ++ ". Please perform manual cleanup of old database tables: ") e))
    | None => mret None
    end.

(** *** The provider tasks (lines 83-112) *)

(** A task started with [g.Go]: not yet run, inside the loop of
    [kv.Import] with the rest of its file and the variable [entry], or
    done with its result. *)
Inductive task : Type :=
| Pending (name : string) (p : pkgMigrate)
| Importing (name : string) (jd : list frame) (entry : Entry)
| Finished (err : option error).

Definition failed_import (name : string) (e : error) : error :=
  Errorf ("failed import on package " ++ name ++ ": ") e.

(** One step of a task.  The first step is lines 88-103 and the header of
    [kv.Import]: nothing in it reads or writes the store.  Every later
    step is one pass through the loop of [kv.Import], with at most one
    write.  The files of the staging directory are not part of the world:
    what a provider writes is handed to [kv.Import] as it is, and the
    deferred [fd.Close] leaves no trace. *)
Definition task_step (tmpDir : string) (t : task) (w : World) : World * task :=
  match t with
  | Pending name p =>
      let w := record (Log "info" "Starting KV migration for package") w in
      let '(w, err) := plain_call (os_CreateTemp tmpDir ("migrate_" ++ name ++ "_")) w in
      match err with
      | Some e => (w, Finished (Some (Errorf "create temp file: " e)))
      | None =>
          let '(fd, err) := Func p (relations w) in
          match err with
          | Some e =>
              (record (Log "error" "") w,
               Finished (Some (Errorf ("failed migration on package " ++ name ++ ": ") e)))
          | None =>
              let '(w, err) := plain_call (file_Seek name) w in
              match err with
              | Some e =>
                  (w, Finished (Some (Errorf ("failed seek file on package " ++ name ++ ": ") e)))
              | None =>
                  match Import_header fd with
                  | inl e => (w, Finished (Some (failed_import name e)))
                  | inr jd => (w, Importing name jd Entry_zero)
                  end
              end
          end
      end
  | Importing name jd entry =>
      let '(jd', entry', err) := Decode jd entry in
      match loop_body entry' err (table w) with
      | (store', Continue) => (with_table w store', Importing name jd' entry')
      | (store', Break) =>
          (record (Log "info" "Successfully migrated package to KV") (with_table w store'),
           Finished None)
      | (store', Return e) => (with_table w store', Finished (Some (failed_import name e)))
      end
  | Finished _ => (w, t)
  end.

(** [multierror.Group]: the tasks, and the errors of those that failed, in
    the order in which they ended. *)
Record Group := { tasks : list task; errors : list error }.

(** [g.Go] for every package of the registry (lines 83-111). *)
Definition Go : Group :=
  {| tasks := map (fun '(name, p) => Pending name p) kvPkgs; errors := [] |}.

Definition is_finished (t : task) : bool :=
  match t with
  | Finished _ => true
  | _ => false
  end.

(** The scheduler lets task [i] take a step. *)
Definition group_step (tmpDir : string) (i : nat) (s : World * Group) : World * Group :=
  let '(w, g) := s in
  match tasks g !! i with
  | Some t =>
      if is_finished t then s
      else
        let '(w', t') := task_step tmpDir t w in
        (w', {| tasks := <[i:=t']> (tasks g);
                errors := match t' with
                          | Finished (Some e) => errors g ++ [e]
                          | _ => errors g
                          end |})
  | None => s
  end.

Definition run_schedule (tmpDir : string) (sched : list nat) (s : World * Group)
  : World * Group :=
  fold_left (fun s i => group_step tmpDir i s) sched s.

(** The steps a task still takes at most. *)
Definition budget (w : World) (t : task) : nat :=
  match t with
  | Pending _ p => 2 + length (fst (Func p (relations w)))
  | Importing _ jd _ => 1 + length jd
  | Finished _ => 0
  end.

(** A schedule that lets every task run to its end, one after the other. *)
Definition completion (w : World) (g : Group) : list nat :=
  flat_map (fun '(i, t) => repeat i (budget w t)) (imap pair (tasks g)).

(** [g.Wait()]: the tasks advance as the schedule says; when the schedule
    stops short, those still running are let run to their end. *)
Definition Wait (tmpDir : string) (g : Group) (w : World) : World * Group :=
  let '(w1, g1) := run_schedule tmpDir schedule (w, g) in
  run_schedule tmpDir (completion w1 g1) (w1, g1).

Definition ErrorOrNil (g : Group) : option error :=
  match errors g with
  | [] => None
  | es => Some (MultiErr es)
  end.

Definition group_wait (tmpDir : string) (g : Group) : M Group := fun w =>
  let '(w', g') := Wait tmpDir g w in (w', Yield g').

(** *** Migrate (lines 38-133) *)

(** Lines 49-66. *)
Definition reset_if_stale (dbParams : Database) : M unit :=
  '(shouldDrop, err) ← reads (fun w => validateVersion (table w));
  check err (Errorf "validating version: ");;
  if shouldDrop : bool then
    logging "warning" "Removing KV table";;
    err ← dropTables [DefaultTableName];
    check err id;;
    err ← kv_open (ConnectionString dbParams);
    check err (Errorf "opening kv store: ");;
    does store_close
  else mret tt.

(** Lines 112-132, once [g.Wait] has answered. *)
Definition finish (dbParams : Database) (tmpDir : string) (tables : list string)
    (err : option error) : M (option error) :=
  check err id;;
  err ← store_set DBVersionPath (Itoa InitialMigrateVersion);
  check err (Errorf "failed setting migrate version: ");;
  (if DropTables dbParams then
     err ← dropTables tables;
     check err id
   else mret tt);;
  err ← os_remove_all tmpDir;
  (match err with
   | Some _ => logging "error" "Failed to remove migration directory"
   | None => mret tt
   end);;
  mret None.

Definition Migrate (dbParams : Database) (w : World) : World * option error :=
  let body : M (option error) :=
    if negb (KVEnabled dbParams) then mret None
    else
      err ← kv_open (ConnectionString dbParams);
      check err (Errorf "opening kv store: ");;
      defer store_close (
        reset_if_stale dbParams;;
        (* Mark KV Migration started *)
        err ← store_set DBVersionPath "0";
        check err id;;
        (* Import to KV Store *)
        '(tmpDir, err) ← os_mkdir_temp "kv_migrate_";
        check err (Errorf "create temp dir: ");;
        logging "info" "Starting KV Migration Process";;
        let tables := flat_map (fun '(_, p) => Tables p) kvPkgs in
        g ← group_wait tmpDir Go;
        finish dbParams tmpDir tables (ErrorOrNil g)) in
  match body w with
  | (w', Yield err) => (w', err)
  | (w', Returned err) => (w', err)
  end.

End Migration.

End Postgres.

(** * Properties *)

(** ** Import *)
Module ImportFacts.
Import KV.

(** The state of the loop (the variable [entry] and the store) once every
    frame of [pre] has been decoded, validated and written. *)
Fixpoint after (pre : Decoder) (entry : Entry) (store : Store)
  : option (Entry * Store) :=
  match pre with
  | [] => Some (entry, store)
  | fr :: pre' =>
      let '(entry', err) := decode_value fr entry in
      match loop_body entry' err store with
      | (store', Continue) => after pre' entry' store'
      | _ => None
      end
  end.

(** The entries the loop sees for the frames of [pre]: the variable [entry]
    after each [Decode]. *)
Fixpoint entries_of (pre : Decoder) (entry : Entry) : list Entry :=
  match pre with
  | [] => []
  | fr :: pre' =>
      let entry' := fst (decode_value fr entry) in
      entry' :: entries_of pre' entry'
  end.

(** What the loop does with the answer of the conditional write
    (lines 60-63). *)
Definition SetIf_flow (r : Store * option error) : Store * flow :=
  match r with
  | (store', Some e) => (store', Return e)
  | (store', None) => (store', Continue)
  end.

(** The first frame is a header [Import] accepts. *)
Definition header_ok (hdr : frame) : Prop := Import_header [hdr] = inr [].

Lemma header_ok_inv hdr jd : header_ok hdr -> Import_header (hdr :: jd) = inr jd.
Proof.
  unfold header_ok, Import_header, Decode.
  destruct (decode_value hdr Header_zero) as [h [e|]].
  - destruct (errors_Is e EOF); discriminate.
  - destruct (decide (h = Header_zero)); [discriminate | reflexivity].
Qed.

Lemma Import_cons hdr jd store :
  header_ok hdr -> Import (hdr :: jd) store = Import_loop jd Entry_zero store.
Proof. intros H. unfold Import. now rewrite (header_ok_inv _ jd H). Qed.

Lemma Import_loop_app pre jd entry store entry' store' :
  after pre entry store = Some (entry', store') ->
  Import_loop (pre ++ jd) entry store = Import_loop jd entry' store'.
Proof.
  revert entry store. induction pre as [|fr pre IH]; intros entry store H; simpl in *.
  - now inversion H.
  - destruct (decode_value fr entry) as [e1 r].
    destruct (loop_body e1 r store) as [s1 [| |err]]; try discriminate.
    now apply IH.
Qed.

(** One pass that goes on to the next frame has written its entry, to a
    key that held nothing. *)
Lemma loop_body_Continue entry err store store' :
  loop_body entry err store = (store', Continue) ->
  err = None /\
  exists (m : gmap string string) k v,
    store = Some m /\ Key entry = Some k /\ k <> "" /\ Value entry = Some v /\
    m !! k = None /\ store' = Some (<[k:=v]> m).
Proof.
  unfold loop_body. destruct err as [e|].
  { destruct (errors_Is e EOF); discriminate. }
  destruct (Key entry) as [k|] eqn:Hk; simpl; [|discriminate].
  destruct (Nat.eqb_spec (String.length k) 0) as [|Hlen]; [discriminate|].
  destruct (Value entry) as [v|]; [|discriminate].
  unfold SetIf. destruct store as [m|]; [|discriminate].
  destruct (decide (m !! k = None)) as [Hm|]; [|discriminate].
  intros [= <-]. split; [reflexivity|].
  exists m, k, v. repeat split; try assumption.
  intros ->. now apply Hlen.
Qed.

(** A pass that ends the loop leaves the store as it found it. *)
Lemma loop_body_stop entry err store store' fl :
  loop_body entry err store = (store', fl) -> fl <> Continue -> store' = store.
Proof.
  unfold loop_body. destruct err as [e|].
  { destruct (errors_Is e EOF); now intros [= <- <-]. }
  destruct (len (Key entry) =? 0)%nat; [now intros [= <- <-]|].
  destruct (Value entry) as [v|]; [|now intros [= <- <-]].
  unfold SetIf. destruct store as [m|]; [|now intros [= <- <-]].
  destruct (decide (m !! slice_data (Key entry) = None)).
  - intros [= <- <-]. congruence.
  - now intros [= <- <-].
Qed.

(** The store only grows: no pass removes or changes a value. *)
Lemma after_mono pre entry (m : gmap string string) entry' store' :
  after pre entry (Some m) = Some (entry', store') ->
  exists m' : gmap string string, store' = Some m' /\ m ⊆ m'.
Proof.
  revert entry m. induction pre as [|fr pre IH]; intros entry m H; simpl in H.
  - inversion H; subst. now exists m.
  - destruct (decode_value fr entry) as [e1 r].
    destruct (loop_body e1 r (Some m)) as [s1 fl] eqn:Hb.
    destruct fl; try discriminate.
    apply loop_body_Continue in Hb as (_ & m0 & k & v & [= <-] & _ & _ & _ & Hfree & ->).
    apply IH in H as (m' & -> & Hsub). exists m'. split; [reflexivity|].
    etrans; [|exact Hsub]. now apply insert_subseteq.
Qed.

Lemma after_Some_store pre entry store entry' store' fr :
  after (fr :: pre) entry store = Some (entry', store') ->
  exists m : gmap string string, store = Some m.
Proof.
  simpl. destruct (decode_value fr entry) as [e1 r].
  destruct (loop_body e1 r store) as [s1 fl] eqn:Hb.
  destruct fl; try discriminate.
  apply loop_body_Continue in Hb as (_ & m0 & k & v & -> & _). eauto.
Qed.

(** Every entry of an imported prefix is in the store, with its value. *)
Lemma after_written pre entry store entry' store' e :
  after pre entry store = Some (entry', store') ->
  e ∈ entries_of pre entry ->
  exists (m' : gmap string string) v,
    store' = Some m' /\ Value e = Some v /\ m' !! slice_data (Key e) = Some v.
Proof.
  revert entry store. induction pre as [|fr pre IH]; intros entry store H Hin; simpl in *.
  - now apply elem_of_nil in Hin.
  - destruct (decode_value fr entry) as [e1 r]. simpl in Hin.
    destruct (loop_body e1 r store) as [s1 fl] eqn:Hb.
    destruct fl; try discriminate.
    apply elem_of_cons in Hin as [->|Hin]; [|now apply (IH e1 s1)].
    apply loop_body_Continue in Hb as (_ & m0 & k & v & -> & Hk & _ & Hv & Hfree & ->).
    apply after_mono in H as (m' & -> & Hsub).
    exists m', v. repeat split; [assumption|].
    rewrite Hk. simpl. eapply lookup_weaken; [|exact Hsub]. apply lookup_insert_eq.
Qed.

Lemma Import_loop_mono jd entry (m : gmap string string) store' r :
  Import_loop jd entry (Some m) = (store', r) ->
  exists m' : gmap string string, store' = Some m' /\ m ⊆ m'.
Proof.
  revert entry m. induction jd as [|fr jd IH]; intros entry m H; simpl in H.
  - inversion H; subst. now exists m.
  - destruct (decode_value fr entry) as [e1 e].
    destruct (loop_body e1 e (Some m)) as [s1 fl] eqn:Hb. destruct fl.
    + apply loop_body_Continue in Hb as (_ & m0 & k & v & [= <-] & _ & _ & _ & Hfree & ->).
      apply IH in H as (m' & -> & Hsub). exists m'. split; [reflexivity|].
      etrans; [|exact Hsub]. now apply insert_subseteq.
    + apply loop_body_stop in Hb; [|discriminate]. inversion H; subst. now exists m.
    + apply loop_body_stop in Hb; [|discriminate]. inversion H; subst. now exists m.
Qed.

(** Sample input: a header, and an object with the two members of an
    entry. *)
Definition header_frame : frame :=
  Obj {| mLakeFSVersion := Given "0.70.0"; mPkgName := Given "auth";
         mDBVersion := Given 1; mTimestamp := Absent;
         mKey := Absent; mValue := Absent |}.

Definition entry_frame (k v : member string) : frame :=
  Obj {| mLakeFSVersion := Absent; mPkgName := Absent; mDBVersion := Absent;
         mTimestamp := Absent; mKey := k; mValue := v |}.

Lemma header_frame_ok : header_ok header_frame.
Proof. reflexivity. Qed.

(** A member that leaves a field of a fresh [Header] at its zero value. *)
Definition is_zero {A} (zero : A) (m : member A) : Prop :=
  m = Absent \/ m = Null \/ m = Given zero.

Definition zero_header (o : object) : Prop :=
  is_zero "" (mLakeFSVersion o) /\ is_zero "" (mPkgName o) /\
  is_zero 0 (mDBVersion o) /\ is_zero Time_zero (mTimestamp o).

Lemma zero_header_decodes o :
  zero_header o -> decode_value (Obj o) Header_zero = (Header_zero, None).
Proof.
  intros (H1 & H2 & H3 & H4). destruct o as [a b c d k v]; simpl in *.
  unfold unmarshal, Header_unmarshal; simpl.
  destruct H1 as [->|[->| ->]], H2 as [->|[->| ->]], H3 as [->|[->| ->]],
      H4 as [->|[->| ->]]; reflexivity.
Qed.

(** C5.  An empty stream and a stream that starts with an all-zero header
    both make [Import] fail without touching the store; both errors wrap
    [ErrInvalidFormat], and their texts differ: the first says the file is
    empty, the second that the header is bad. *)
Theorem Import_empty_stream_vs_zero_header
    (store : Store) (o : object) (rest : Decoder) :
  zero_header o ->
  let e_empty := Errorf "empty file: " ErrInvalidFormat in
  let e_header := Errorf "bad header format: " ErrInvalidFormat in
  Import [] store = (store, Some e_empty) /\
  Import (Obj o :: rest) store = (store, Some e_header) /\
  errors_Is e_empty ErrInvalidFormat = true /\
  errors_Is e_header ErrInvalidFormat = true /\
  Error e_empty = "empty file: invalid format" /\
  Error e_header = "bad header format: invalid format" /\
  Error e_empty <> Error e_header.
Proof.
  intros Hz e_empty e_header. repeat split; try reflexivity; try discriminate.
  unfold Import, Import_header, Decode.
  now rewrite (zero_header_decodes o Hz).
Qed.

Lemma Import_empty_stream_vs_zero_header_witness :
  Import [] (Some ∅) = (Some ∅, Some (Errorf "empty file: " ErrInvalidFormat)) /\
  Import [entry_frame (Given "a") (Given "1")] (Some ∅)
  = (Some ∅, Some (Errorf "bad header format: " ErrInvalidFormat)).
Proof.
  pose proof (Import_empty_stream_vs_zero_header (Some ∅)
    {| mLakeFSVersion := Absent; mPkgName := Absent; mDBVersion := Absent;
       mTimestamp := Absent; mKey := Given "a"; mValue := Given "1" |} []) as H.
  simpl in H. destruct H as (H1 & H2 & _).
  - repeat split; now left.
  - split; [exact H1 | exact H2].
Defined.

(** C6.  Once the entries before it are imported, an object whose key is
    null or of length zero (or that has no key member and is the first
    entry) stops [Import] with a format error and the store stays as those
    entries left it.  An object with a key that is not empty
    and not yet in the store, and a value that is present with length zero,
    is written: [Import] goes on with the rest of the stream, and the store
    it leaves holds the key with the empty value. *)
Theorem Import_empty_key_rejected_empty_value_written
    (hdr : frame) (pre rest : Decoder) (o : object)
    (store : Store) (entry' : Entry) (m' : gmap string string) :
  header_ok hdr ->
  after pre Entry_zero store = Some (entry', Some m') ->
  (mKey o = Null \/ mKey o = Given "" \/ (mKey o = Absent /\ pre = []) ->
     Import (hdr :: pre ++ Obj o :: rest) store
     = (Some m', Some (Errorf "bad entry key: " ErrInvalidFormat)) /\
     errors_Is (Errorf "bad entry key: " ErrInvalidFormat) ErrInvalidFormat = true) /\
  (forall k, mKey o = Given k -> k <> "" -> m' !! k = None -> mValue o = Given "" ->
     Import (hdr :: pre ++ Obj o :: rest) store
     = Import_loop rest {| Key := Some k; Value := Some "" |} (Some (<[k:=""]> m')) /\
     exists (final : gmap string string) r,
       Import (hdr :: pre ++ Obj o :: rest) store = (Some final, r) /\
       final !! k = Some "").
Proof.
  intros Hh Hpre.
  assert (Hrun : Import (hdr :: pre ++ Obj o :: rest) store
                 = Import_loop (Obj o :: rest) entry' (Some m')).
  { rewrite Import_cons by assumption. now apply Import_loop_app. }
  split.
  - intros Hk. split; [|reflexivity]. rewrite Hrun. simpl.
    unfold unmarshal, Entry_unmarshal.
    destruct Hk as [-> | [-> | [-> ->]]]; try reflexivity.
    simpl in Hpre. inversion Hpre; subst. reflexivity.
  - intros k Hk Hne Hfree Hv.
    assert (Hstep : Import_loop (Obj o :: rest) entry' (Some m')
                    = Import_loop rest {| Key := Some k; Value := Some "" |}
                        (Some (<[k:=""]> m'))).
    { simpl. unfold unmarshal, Entry_unmarshal. rewrite Hk, Hv. simpl.
      destruct k as [|c k]; [congruence|]. simpl.
      destruct (decide (m' !! String c k = None)); [reflexivity | contradiction]. }
    rewrite Hrun, Hstep. split; [reflexivity|].
    destruct (Import_loop rest {| Key := Some k; Value := Some "" |}
                (Some (<[k:=""]> m'))) as [s r] eqn:Hl.
    apply Import_loop_mono in Hl as (final & -> & Hsub).
    exists final, r. split; [reflexivity|].
    eapply lookup_weaken; [|exact Hsub]. apply lookup_insert_eq.
Qed.

Lemma Import_empty_key_rejected_empty_value_written_witness :
  Import [header_frame; entry_frame (Given "a") (Given "1");
          entry_frame (Given "") (Given "2")] (Some ∅)
  = (Some {["a" := "1"]}, Some (Errorf "bad entry key: " ErrInvalidFormat)) /\
  Import [header_frame; entry_frame (Given "a") (Given "1");
          entry_frame (Given "b") (Given "")] (Some ∅)
  = (Some (<["b" := ""]> {["a" := "1"]}), None).
Proof.
  split.
  - refine (proj1 (proj1 (Import_empty_key_rejected_empty_value_written
      header_frame [entry_frame (Given "a") (Given "1")] []
      {| mLakeFSVersion := Absent; mPkgName := Absent; mDBVersion := Absent;
         mTimestamp := Absent; mKey := Given ""; mValue := Given "2" |}
      (Some ∅) {| Key := Some "a"; Value := Some "1" |} {["a" := "1"]}
      header_frame_ok eq_refl) _)).
    right; now left.
  - refine (proj1 (proj2 (Import_empty_key_rejected_empty_value_written
      header_frame [entry_frame (Given "a") (Given "1")] []
      {| mLakeFSVersion := Absent; mPkgName := Absent; mDBVersion := Absent;
         mTimestamp := Absent; mKey := Given "b"; mValue := Given "" |}
      (Some ∅) {| Key := Some "a"; Value := Some "1" |} {["a" := "1"]}
      header_frame_ok eq_refl) "b" eq_refl _ eq_refl eq_refl)).
    discriminate.
Defined.

(** C8.  When [Import] stops with an error at some frame, whatever the
    error, the store it leaves is the store as the earlier entries made it:
    each of them is there with its value, everything the store held before
    is still there, and nothing is taken back. *)
Theorem Import_not_atomic
    (hdr fr : frame) (pre rest : Decoder) (store store' store'' : Store)
    (entry' : Entry) (err : error) :
  header_ok hdr ->
  after pre Entry_zero store = Some (entry', store') ->
  (let '(e, r) := decode_value fr entry' in loop_body e r store')
  = (store'', Return err) ->
  Import (hdr :: pre ++ fr :: rest) store = (store', Some err) /\
  (forall e, e ∈ entries_of pre Entry_zero ->
     exists v, Value e = Some v /\
               Get store' (slice_data (Key e)) = (Some v, None)) /\
  (forall k v, Get store k = (Some v, None) -> Get store' k = (Some v, None)).
Proof.
  intros Hh Hpre Hfail. repeat split.
  - rewrite Import_cons by assumption. rewrite (Import_loop_app _ _ _ _ _ _ Hpre).
    simpl. destruct (decode_value fr entry') as [e r]. rewrite Hfail.
    apply loop_body_stop in Hfail; [now subst | discriminate].
  - intros e He.
    destruct (after_written _ _ _ _ _ _ Hpre He) as (m' & v & -> & Hv & Hm).
    exists v. split; [assumption|]. unfold Get. now rewrite Hm.
  - intros k v Hget. unfold Get in Hget. destruct store as [m|]; [|discriminate].
    destruct (m !! k) as [v0|] eqn:Hk; [|discriminate]. inversion Hget; subst.
    apply after_mono in Hpre as (m' & -> & Hsub).
    unfold Get. now rewrite (lookup_weaken _ _ _ _ Hk Hsub).
Qed.

Lemma Import_not_atomic_witness :
  Import [header_frame; entry_frame (Given "a") (Given "1");
          entry_frame (Given "b") (Given "2");
          entry_frame (Given "a") (Given "3");
          entry_frame (Given "c") (Given "4")] (Some ∅)
  = (Some (<["b" := "2"]> {["a" := "1"]}), Some (Sentinel ErrPredicateFailed)).
Proof.
  exact (proj1 (Import_not_atomic header_frame (entry_frame (Given "a") (Given "3"))
    [entry_frame (Given "a") (Given "1"); entry_frame (Given "b") (Given "2")]
    [entry_frame (Given "c") (Given "4")]
    (Some ∅) (Some (<["b" := "2"]> {["a" := "1"]})) (Some (<["b" := "2"]> {["a" := "1"]}))
    {| Key := Some "b"; Value := Some "2" |} (Sentinel ErrPredicateFailed)
    header_frame_ok eq_refl eq_refl)).
Defined.

(** The write of a valid entry: it goes through when the key holds
    nothing, and stops [Import] with the error of the conditional write,
    the store left alone, when the key holds a value. *)
Lemma Import_write_or_conflict
    (hdr : frame) (pre rest : Decoder) (o : object)
    (store : Store) (entry' : Entry) (m' : gmap string string) (k v : string) :
  header_ok hdr ->
  after pre Entry_zero store = Some (entry', Some m') ->
  Key (fst (unmarshal o entry')) = Some k -> k <> "" ->
  Value (fst (unmarshal o entry')) = Some v ->
  loop_body (fst (unmarshal o entry')) None (Some m')
  = SetIf_flow (SetIf (Some m') k v None) /\
  (m' !! k = None ->
   Import (hdr :: pre ++ Obj o :: rest) store
   = Import_loop rest (fst (unmarshal o entry')) (Some (<[k:=v]> m'))) /\
  (m' !! k <> None ->
   Import (hdr :: pre ++ Obj o :: rest) store
   = (Some m', Some (Sentinel ErrPredicateFailed))).
Proof.
  intros Hh Hpre Hk Hne Hv.
  assert (Hbody : loop_body (fst (unmarshal o entry')) None (Some m')
                  = SetIf_flow (SetIf (Some m') k v None)).
  { unfold loop_body. rewrite Hk, Hv. simpl.
    destruct k as [|c k]; [done|]. simpl.
    by destruct (decide (m' !! String c k = None)). }
  assert (Hrun : Import (hdr :: pre ++ Obj o :: rest) store
                 = Import_loop (Obj o :: rest) entry' (Some m')).
  { rewrite Import_cons by assumption. now apply Import_loop_app. }
  split; [exact Hbody|]. rewrite Hrun.
  change (Import_loop (Obj o :: rest) entry' (Some m'))
    with (match loop_body (fst (unmarshal o entry')) None (Some m') with
          | (store', Continue) => Import_loop rest (fst (unmarshal o entry')) store'
          | (store', Break) => (store', None)
          | (store', Return e) => (store', Some e)
          end).
  rewrite Hbody. unfold SetIf, SetIf_flow.
  split; intros Hm.
  - by destruct (decide (m' !! k = None)).
  - by destruct (decide (m' !! k = None)).
Qed.

(** An object whose value is null, or has no value member and is the first
    entry of the stream, is refused with a format error. *)
Lemma Import_null_value_rejected
    (hdr : frame) (pre rest : Decoder) (k : string)
    (store store' : Store) (entry' : Entry) :
  header_ok hdr -> k <> "" ->
  after pre Entry_zero store = Some (entry', store') ->
  Import (hdr :: pre ++ entry_frame (Given k) Null :: rest) store
  = (store', Some (Errorf "bad entry value: " ErrInvalidFormat)).
Proof.
  intros Hh Hk Hpre. rewrite Import_cons by assumption.
  rewrite (Import_loop_app _ _ _ _ _ _ Hpre). simpl.
  destruct k; [congruence | reflexivity].
Qed.

(** C1 does not hold of [Import]: an object with no value member that
    follows a complete entry is not refused.  The variable [entry] is
    declared before the loop (line 44) and [Decode] leaves a field alone
    when the object has no such member, so the object is seen with the
    value of the entry before it, passes the check of line 57, and is
    written with that value; [Import] returns nil. *)
Theorem Import_absent_value_after_entry :
  Import [header_frame; entry_frame (Given "a") (Given "1");
          entry_frame (Given "b") Absent] (Some ∅)
  = (Some (<["b" := "1"]> {["a" := "1"]}), None).
Proof. reflexivity. Qed.

End ImportFacts.

(** ** Import: what a run writes *)
Module ImportMore.
Import KV ImportFacts.

(** The pairs the loop hands to the conditional write for the frames of
    [jd]: key and value of the variable [entry] after each [Decode]. *)
Definition writes_of (jd : Decoder) (entry : Entry) : list (string * string) :=
  map (fun e => (slice_data (Key e), slice_data (Value e))) (entries_of jd entry).

(** An object that carries both members of an entry. *)
Definition complete_entry (fr : frame) (kv : string * string) : Prop :=
  exists o, fr = Obj o /\ mKey o = Given kv.1 /\ mValue o = Given kv.2.

Lemma Import_header_accepts reader jd :
  Import_header reader = inr jd -> exists hdr, reader = hdr :: jd /\ header_ok hdr.
Proof.
  destruct reader as [|hdr rest]; [discriminate|].
  unfold header_ok, Import_header, Decode.
  destruct (decode_value hdr Header_zero) as [h [e|]] eqn:Hd.
  - destruct (errors_Is e EOF); discriminate.
  - destruct (decide (h = Header_zero)) as [|Hnz] eqn:Hz; [discriminate|].
    intros [= <-]. exists hdr. split; [reflexivity|]. now rewrite Hd, Hz.
Qed.

(** [Decode] never answers [io.EOF] for a value it has found: no pass over
    a frame leaves the loop through [break]. *)
Lemma loop_body_no_Break fr entry store store' :
  (let '(e, r) := decode_value fr entry in loop_body e r store) <> (store', Break).
Proof.
  destruct fr as [o|msg]; simpl.
  - unfold unmarshal, Entry_unmarshal, loop_body; simpl.
    destruct (len (store_slice (mKey o) (Key entry)) =? 0)%nat; [discriminate|].
    destruct (store_slice (mValue o) (Value entry)); [|discriminate].
    destruct (SetIf store _ s None) as [s1 [e|]]; discriminate.
  - discriminate.
Qed.

Lemma Import_loop_nil_error jd entry store store' :
  Import_loop jd entry store = (store', None) ->
  exists entry', after jd entry store = Some (entry', store').
Proof.
  revert entry store. induction jd as [|fr jd IH]; intros entry store H; simpl in *.
  - inversion H; subst. now exists entry.
  - pose proof (loop_body_no_Break fr entry store) as Hnb.
    destruct (decode_value fr entry) as [e1 r].
    destruct (loop_body e1 r store) as [s1 [| |err]].
    + now apply IH.
    + now contradiction (Hnb s1).
    + discriminate.
Qed.

Lemma union_insert_fresh (ws : list (string * string)) (m : gmap string string) k v :
  k ∉ ws.*1 ->
  list_to_map ws ∪ <[k:=v]> m
  = (list_to_map ((k, v) :: ws) : gmap string string) ∪ m.
Proof.
  intros Hk. simpl. rewrite <- insert_union_l.
  symmetry. apply insert_union_r. now apply not_elem_of_list_to_map_1.
Qed.

(** What an imported sequence of frames has done to the store: the keys it
    wrote are not empty, pairwise distinct and were free, and the store is
    the old one with exactly these pairs added. *)
Lemma after_writes jd entry (m : gmap string string) entry' store' :
  after jd entry (Some m) = Some (entry', store') ->
  NoDup (writes_of jd entry).*1 /\
  (forall k, k ∈ (writes_of jd entry).*1 -> k <> "" /\ m !! k = None) /\
  Forall (fun e => Value e <> None) (entries_of jd entry) /\
  store' = Some (list_to_map (writes_of jd entry) ∪ m).
Proof.
  unfold writes_of.
  revert entry m. induction jd as [|fr jd IH]; intros entry m H; simpl in *.
  - inversion H; subst. split; [apply NoDup_nil_2|]. split; [|split].
    + now intros k Hk%elem_of_nil.
    + apply Forall_nil_2.
    + now rewrite (left_id_L ∅ (∪)).
  - destruct (decode_value fr entry) as [e1 r]. simpl.
    destruct (loop_body e1 r (Some m)) as [s1 fl] eqn:Hb.
    destruct fl; try discriminate.
    apply loop_body_Continue in Hb
      as (_ & m0 & k & v & [= <-] & Hk & Hne & Hv & Hfree & ->).
    apply IH in H as (Hnd & Hfresh & Hval & ->).
    rewrite Hk, Hv. simpl.
    assert (Hnew : k ∉ (map (fun e => (slice_data (Key e), slice_data (Value e)))
                          (entries_of jd e1)).*1).
    { intros Hin. apply Hfresh in Hin as [_ Hin].
      now rewrite lookup_insert_eq in Hin. }
    repeat split.
    + now constructor.
    + apply elem_of_cons in H as [->|H]; [assumption | now apply Hfresh in H].
    + apply elem_of_cons in H as [->|H]; [assumption|].
      apply Hfresh in H as [_ H]. now apply lookup_insert_None in H.
    + constructor; [now rewrite Hv | assumption].
    + f_equal. now apply union_insert_fresh.
Qed.

(** A stream of complete entries with distinct, non-empty, free keys is
    written whole. *)
Lemma Import_loop_complete jd (kvs : list (string * string)) entry
    (m : gmap string string) :
  Forall2 complete_entry jd kvs ->
  NoDup kvs.*1 ->
  (forall k, k ∈ kvs.*1 -> k <> "" /\ m !! k = None) ->
  Import_loop jd entry (Some m) = (Some (list_to_map kvs ∪ m), None).
Proof.
  intros Hc. revert entry m.
  induction Hc as [|fr [k v] jd kvs (o & -> & Hk & Hv) Hc IH];
    intros entry m Hnd Hfresh.
  - simpl. now rewrite (left_id_L ∅ (∪)).
  - simpl in Hk, Hv, Hnd. apply NoDup_cons in Hnd as [Hnew Hnd].
    destruct (Hfresh k) as [Hne Hfree]; [now left|].
    cbn [Import_loop decode_value]. unfold unmarshal, Entry_unmarshal.
    rewrite Hk, Hv. cbn [store_slice loop_body Key Value len slice_data default].
    destruct k as [|c k]; [congruence|]. cbn [String.length Nat.eqb].
    unfold SetIf, id. destruct (decide (m !! String c k = None)); [|contradiction].
    rewrite IH; [| assumption |].
    + now rewrite union_insert_fresh.
    + intros k' Hk'. destruct (Hfresh k') as [Hne' Hfree']; [now right|].
      split; [assumption|]. apply lookup_insert_None. split; [assumption|].
      intros <-. contradiction.
Qed.

(** The variable [entry] after a non-empty imported prefix holds the pair
    written last. *)
Lemma after_last_written pre entry store entry' (m' : gmap string string) :
  pre <> [] ->
  after pre entry store = Some (entry', Some m') ->
  exists k v, Key entry' = Some k /\ k <> "" /\ Value entry' = Some v /\
              m' !! k = Some v.
Proof.
  revert entry store. induction pre as [|fr pre IH]; intros entry store Hne H;
    [congruence|]. simpl in H.
  destruct (decode_value fr entry) as [e1 r].
  destruct (loop_body e1 r store) as [s1 fl] eqn:Hb.
  destruct fl; try discriminate.
  destruct pre as [|fr' pre].
  - simpl in H. inversion H; subst.
    apply loop_body_Continue in Hb
      as (_ & m0 & k & v & -> & Hk & Hnek & Hv & Hfree & [= ->]).
    exists k, v. repeat split; try assumption. apply lookup_insert_eq.
  - now apply (IH e1 s1).
Qed.

Lemma entries_of_length jd entry : length (entries_of jd entry) = length jd.
Proof.
  revert entry. induction jd as [|fr jd IH]; intros entry; simpl;
    [reflexivity | now rewrite IH].
Qed.

(** X1.  Whatever the stream holds and however [Import] ends, every pair
    the store held before is still there afterwards, with the same value:
    [Import] neither removes nor overwrites. *)
Theorem Import_never_overwrites
    (reader : Decoder) (m : gmap string string) (store' : Store) (r : option error) :
  Import reader (Some m) = (store', r) ->
  exists m' : gmap string string,
    store' = Some m' /\ m ⊆ m' /\
    forall k v, Get (Some m) k = (Some v, None) -> Get store' k = (Some v, None).
Proof.
  unfold Import. destruct (Import_header reader) as [e|jd].
  - intros [= <- <-]. exists m. repeat split; [reflexivity | tauto].
  - intros (m' & -> & Hsub)%Import_loop_mono.
    exists m'. repeat split; [assumption|].
    intros k v. unfold Get. destruct (m !! k) as [v0|] eqn:Hk; [|discriminate].
    intros [= <-]. now rewrite (lookup_weaken _ _ _ _ Hk Hsub).
Qed.

Lemma Import_never_overwrites_witness :
  exists m' : gmap string string,
    fst (Import [header_frame; entry_frame (Given "a") (Given "2");
                 entry_frame (Given "b") (Given "3")] (Some {["a" := "1"]}))
    = Some m' /\ ({["a" := "1"]} : gmap string string) ⊆ m'.
Proof.
  destruct (Import_never_overwrites
              [header_frame; entry_frame (Given "a") (Given "2");
               entry_frame (Given "b") (Given "3")] {["a" := "1"]} _ _
              (surjective_pairing _))
    as (m' & H1 & H2 & _).
  exists m'. split; [exact H1 | exact H2].
Defined.

(** X2.  When [Import] returns nil, the stream was a header [Import]
    accepts followed by entries only, every one of them was written, their
    keys are non-empty, pairwise distinct and were free in the store, and
    the store is the old one with exactly these pairs added. *)
Theorem Import_nil_means_all_written
    (reader : Decoder) (m : gmap string string) (store' : Store) :
  Import reader (Some m) = (store', None) ->
  exists hdr jd,
    reader = hdr :: jd /\ header_ok hdr /\
    NoDup (writes_of jd Entry_zero).*1 /\
    (forall k, k ∈ (writes_of jd Entry_zero).*1 -> k <> "" /\ m !! k = None) /\
    Forall (fun e => Value e <> None) (entries_of jd Entry_zero) /\
    length (writes_of jd Entry_zero) = length jd /\
    store' = Some (list_to_map (writes_of jd Entry_zero) ∪ m).
Proof.
  unfold Import. destruct (Import_header reader) as [e|jd] eqn:Hh; [discriminate|].
  apply Import_header_accepts in Hh as (hdr & -> & Hok).
  intros (entry' & Hafter)%Import_loop_nil_error.
  apply after_writes in Hafter as (Hnd & Hfresh & Hval & ->).
  exists hdr, jd. repeat split; try assumption; try (now apply Hfresh).
  unfold writes_of. now rewrite length_map, entries_of_length.
Qed.

Lemma Import_nil_means_all_written_witness :
  exists hdr jd,
    [header_frame; entry_frame (Given "a") (Given "1");
     entry_frame (Given "b") Absent] = hdr :: jd /\
    writes_of jd Entry_zero = [("a", "1"); ("b", "1")].
Proof.
  assert (Hrun : Import [header_frame; entry_frame (Given "a") (Given "1");
                         entry_frame (Given "b") Absent] (Some ∅)
                 = (Some (<["b" := "1"]> {["a" := "1"]}), None)) by reflexivity.
  destruct (Import_nil_means_all_written _ _ _ Hrun) as (hdr & jd & Heq & _).
  exists hdr, jd. split; [exact Heq|]. now inversion Heq.
Defined.

(** X3.  Round trip: a header [Import] accepts, followed by objects that
    carry a key and a value each, with keys that are non-empty, pairwise
    distinct and free in the store, is imported whole: [Import] returns nil
    and the store is the old one with exactly these pairs added; reading
    any of the keys gives back its value. *)
Theorem Import_round_trip
    (hdr : frame) (jd : Decoder) (kvs : list (string * string))
    (m : gmap string string) :
  header_ok hdr ->
  Forall2 complete_entry jd kvs ->
  NoDup kvs.*1 ->
  (forall k, k ∈ kvs.*1 -> k <> "" /\ m !! k = None) ->
  Import (hdr :: jd) (Some m) = (Some (list_to_map kvs ∪ m), None) /\
  forall k v, (k, v) ∈ kvs ->
    Get (fst (Import (hdr :: jd) (Some m))) k = (Some v, None).
Proof.
  intros Hh Hc Hnd Hfresh.
  assert (Hrun : Import (hdr :: jd) (Some m) = (Some (list_to_map kvs ∪ m), None)).
  { rewrite Import_cons by assumption. now apply Import_loop_complete. }
  split; [exact Hrun|]. intros k v Hin. rewrite Hrun. unfold Get. simpl.
  erewrite lookup_union_Some_l; [reflexivity|].
  now apply elem_of_list_to_map_1.
Qed.

Lemma Import_round_trip_witness :
  Import [header_frame; entry_frame (Given "a") (Given "1");
          entry_frame (Given "b") (Given "")] (Some {["z" := "0"]})
  = (Some (list_to_map [("a", "1"); ("b", "")] ∪ {["z" := "0"]}), None).
Proof.
  refine (proj1 (Import_round_trip header_frame
                   [entry_frame (Given "a") (Given "1");
                    entry_frame (Given "b") (Given "")]
                   [("a", "1"); ("b", "")] {["z" := "0"]} header_frame_ok _ _ _)).
  - repeat constructor; eexists; (split; [reflexivity|]); split; reflexivity.
  - simpl. apply (bool_decide_unpack _). vm_compute. reflexivity.
  - intros k Hk. simpl in Hk.
    apply elem_of_cons in Hk as [->|Hk]; [split; [discriminate | reflexivity]|].
    apply elem_of_cons in Hk as [->|Hk]; [split; [discriminate | reflexivity]|].
    now apply elem_of_nil in Hk.
Defined.

(** X4.  The order of the entries in the stream carries no meaning: two
    streams of complete entries that hold the same pairs in different
    orders (keys non-empty, distinct and free) are both imported with nil,
    and leave the same store. *)
Theorem Import_order_irrelevant
    (hdr hdr' : frame) (jd jd' : Decoder) (kvs kvs' : list (string * string))
    (m : gmap string string) :
  header_ok hdr -> header_ok hdr' ->
  Forall2 complete_entry jd kvs -> Forall2 complete_entry jd' kvs' ->
  kvs ≡ₚ kvs' ->
  NoDup kvs.*1 ->
  (forall k, k ∈ kvs.*1 -> k <> "" /\ m !! k = None) ->
  Import (hdr :: jd) (Some m) = Import (hdr' :: jd') (Some m) /\
  snd (Import (hdr :: jd) (Some m)) = None.
Proof.
  intros Hh Hh' Hc Hc' Hp Hnd Hfresh.
  rewrite !Import_cons by assumption.
  rewrite (Import_loop_complete jd kvs) by assumption.
  rewrite (Import_loop_complete jd' kvs').
  - split; [|reflexivity]. do 2 f_equal. f_equal. now apply list_to_map_proper.
  - assumption.
  - now rewrite <- Hp.
  - intros k Hk. apply Hfresh. now rewrite Hp.
Qed.

Lemma Import_order_irrelevant_witness :
  Import [header_frame; entry_frame (Given "a") (Given "1");
          entry_frame (Given "b") (Given "2")] (Some ∅)
  = Import [header_frame; entry_frame (Given "b") (Given "2");
            entry_frame (Given "a") (Given "1")] (Some ∅).
Proof.
  refine (proj1 (Import_order_irrelevant header_frame header_frame
                   [entry_frame (Given "a") (Given "1");
                    entry_frame (Given "b") (Given "2")]
                   [entry_frame (Given "b") (Given "2");
                    entry_frame (Given "a") (Given "1")]
                   [("a", "1"); ("b", "2")] [("b", "2"); ("a", "1")] ∅
                   header_frame_ok header_frame_ok _ _ _ _ _)).
  - repeat constructor; eexists; (split; [reflexivity|]); split; reflexivity.
  - repeat constructor; eexists; (split; [reflexivity|]); split; reflexivity.
  - apply Permutation_swap.
  - simpl. apply (bool_decide_unpack _). vm_compute. reflexivity.
  - intros k Hk. simpl in Hk.
    apply elem_of_cons in Hk as [->|Hk]; [split; [discriminate | reflexivity]|].
    apply elem_of_cons in Hk as [->|Hk]; [split; [discriminate | reflexivity]|].
    now apply elem_of_nil in Hk.
Defined.

(** X5.  An object with no key member that follows an imported entry is
    never written.  [Decode] leaves the key of the entry before it in the
    variable, the store holds that key already, and [Import] stops: with
    the error of the conditional write when the object has a value or no
    value member, with the format error when its value is null.  The store
    stays as the earlier entries left it. *)
Theorem Import_keyless_object_after_entry
    (hdr : frame) (pre rest : Decoder) (o : object)
    (store : Store) (entry' : Entry) (m' : gmap string string) :
  header_ok hdr -> pre <> [] ->
  after pre Entry_zero store = Some (entry', Some m') ->
  mKey o = Absent ->
  Import (hdr :: pre ++ Obj o :: rest) store
  = (Some m', Some (match mValue o with
                    | Null => Errorf "bad entry value: " ErrInvalidFormat
                    | _ => Sentinel ErrPredicateFailed
                    end)).
Proof.
  intros Hh Hne Hpre Hk.
  destruct (after_last_written _ _ _ _ _ Hne Hpre) as (k & v & Hek & Hnek & Hev & Hm).
  rewrite Import_cons by assumption.
  rewrite (Import_loop_app _ _ _ _ _ _ Hpre).
  cbn [Import_loop decode_value]. unfold unmarshal, Entry_unmarshal.
  rewrite Hk. cbn [store_slice loop_body Key Value]. rewrite Hek.
  destruct k as [|c k]; [congruence|]. cbn [len String.length Nat.eqb slice_data default]. unfold id.
  destruct (mValue o) as [| |v2]; cbn [store_slice]; [rewrite Hev| |];
    try reflexivity; unfold SetIf;
    (destruct (decide (m' !! String c k = None)) as [Hfree|]; [congruence | reflexivity]).
Qed.

Lemma Import_keyless_object_after_entry_witness :
  Import [header_frame; entry_frame (Given "a") (Given "1");
          entry_frame Absent (Given "2"); entry_frame (Given "c") (Given "3")] (Some ∅)
  = (Some {["a" := "1"]}, Some (Sentinel ErrPredicateFailed)).
Proof.
  refine (Import_keyless_object_after_entry header_frame
            [entry_frame (Given "a") (Given "1")]
            [entry_frame (Given "c") (Given "3")]
            {| mLakeFSVersion := Absent; mPkgName := Absent; mDBVersion := Absent;
               mTimestamp := Absent; mKey := Absent; mValue := Given "2" |}
            (Some ∅) {| Key := Some "a"; Value := Some "1" |} {["a" := "1"]}
            header_frame_ok _ eq_refl eq_refl).
  discriminate.
Defined.

(** X6.  An object with a key and no value member that follows an
    imported entry is not refused: [Decode] leaves the value of the entry
    before it in the variable, the check of the value passes, and the key
    is written with that value, when it is free; [Import] goes on with the
    rest of the stream, and the store it leaves holds the key with the
    value of the entry before. *)
Theorem Import_valueless_object_inherits_value
    (hdr : frame) (pre rest : Decoder) (o : object)
    (store : Store) (entry' : Entry) (m' : gmap string string) (k : string) :
  header_ok hdr -> pre <> [] ->
  after pre Entry_zero store = Some (entry', Some m') ->
  mKey o = Given k -> k <> "" -> m' !! k = None ->
  mValue o = Absent ->
  exists v,
    Value entry' = Some v /\
    Import (hdr :: pre ++ Obj o :: rest) store
    = Import_loop rest {| Key := Some k; Value := Some v |} (Some (<[k:=v]> m')) /\
    exists (final : gmap string string) r,
      Import (hdr :: pre ++ Obj o :: rest) store = (Some final, r) /\
      final !! k = Some v.
Proof.
  intros Hh Hne Hpre Hk Hnek Hfree Hv.
  destruct (after_last_written _ _ _ _ _ Hne Hpre) as (k0 & v & _ & _ & Hev & _).
  exists v. split; [exact Hev|].
  assert (Hrun : Import (hdr :: pre ++ Obj o :: rest) store
                 = Import_loop rest {| Key := Some k; Value := Some v |}
                     (Some (<[k:=v]> m'))).
  { rewrite Import_cons by assumption.
    rewrite (Import_loop_app _ _ _ _ _ _ Hpre).
    cbn [Import_loop decode_value]. unfold unmarshal, Entry_unmarshal.
    rewrite Hk, Hv. cbn [store_slice loop_body Key Value]. rewrite Hev.
    cbn [len slice_data default]. destruct k as [|c k]; [congruence|].
    cbn [String.length Nat.eqb]. unfold SetIf, id.
    destruct (decide (m' !! String c k = None)); [reflexivity | contradiction]. }
  split; [exact Hrun|]. rewrite Hrun.
  destruct (Import_loop rest {| Key := Some k; Value := Some v |}
              (Some (<[k:=v]> m'))) as [s r] eqn:Hl.
  apply Import_loop_mono in Hl as (final & -> & Hsub).
  exists final, r. split; [reflexivity|].
  eapply lookup_weaken; [|exact Hsub]. apply lookup_insert_eq.
Qed.

Lemma Import_valueless_object_inherits_value_witness :
  Import [header_frame; entry_frame (Given "a") (Given "1");
          entry_frame (Given "b") Absent; entry_frame (Given "c") (Given "3")]
    (Some ∅)
  = Import_loop [entry_frame (Given "c") (Given "3")]
      {| Key := Some "b"; Value := Some "1" |}
      (Some (<["b" := "1"]> {["a" := "1"]})).
Proof.
  destruct (Import_valueless_object_inherits_value header_frame
              [entry_frame (Given "a") (Given "1")]
              [entry_frame (Given "c") (Given "3")]
              {| mLakeFSVersion := Absent; mPkgName := Absent; mDBVersion := Absent;
                 mTimestamp := Absent; mKey := Given "b"; mValue := Absent |}
              (Some ∅) {| Key := Some "a"; Value := Some "1" |} {["a" := "1"]} "b"
              header_frame_ok) as (v & Hv & Hrun & _).
  - discriminate.
  - reflexivity.
  - reflexivity.
  - discriminate.
  - reflexivity.
  - reflexivity.
  - injection Hv as <-. exact Hrun.
Defined.

End ImportMore.

(** ** extractAzurePrefix *)
Module AzureFacts.
Import Azure.

(** The URL of a container of the storage account of [u]: the scheme, the
    user and the host of [u], the container as the whole path, and neither
    query nor fragment.  The dot segments [.] and [..] name no container:
    resolving them gives the root path. *)
Definition container_URL (u : URL) (container : string) : URL :=
  {| Scheme := Scheme u; Opaque := ""; User := User u; Host := Host u;
     Path := if String.eqb container "." || String.eqb container ".."
             then "/" else "/" ++ container;
     RawPath := ""; ForceQuery := false; RawQuery := ""; Fragment := "";
     RawFragment := "" |}.

Lemma Cut_app container prefix :
  Cut container slash = None ->
  Cut (container ++ "/" ++ prefix) slash = Some (container, prefix).
Proof.
  induction container as [|c s IH]; simpl; [reflexivity|].
  destruct (Ascii.eqb c slash); [discriminate|].
  destruct (Cut s slash) as [[a b]|] eqn:Hs; [discriminate|].
  intros _. now rewrite IH.
Qed.

Lemma Split_no_sep s : Cut s slash = None -> Split s slash = [s].
Proof.
  induction s as [|c s IH]; simpl; [reflexivity|].
  destruct (Ascii.eqb c slash); [discriminate|].
  destruct (Cut s slash) as [[a b]|]; [discriminate|].
  intros _. now rewrite IH.
Qed.

Lemma substring_all s : String.substring 0 (String.length s) s = s.
Proof. induction s as [|c s IH]; simpl; [reflexivity | now rewrite IH]. Qed.

Lemma resolvePath_container base container :
  Cut container slash = None ->
  resolvePath base ("/" ++ container)
  = if String.eqb container "." || String.eqb container ".."
    then "/" else "/" ++ container.
Proof.
  intros Hc. pose proof (Split_no_sep _ Hc) as Hs. unfold slash in Hs.
  change ("/" ++ container) with (String "/" container) at 1.
  unfold resolvePath, slash. simpl. rewrite Hs.
  unfold remove_dot_segments. simpl.
  destruct (String.eqb_spec container ".") as [->|H1]; [reflexivity|].
  destruct (String.eqb_spec container "..") as [->|H2]; [reflexivity|].
  simpl. unfold TrimPrefix. simpl.
  change ("" +:+ container) with container.
  replace (String.prefix "" container) with true by now destruct container.
  now rewrite Nat.sub_0_r, substring_all.
Qed.

Lemma ResolveReference_container u container :
  Cut container slash = None ->
  ResolveReference u (URL_of_path ("/" ++ container)) = container_URL u container.
Proof.
  intros Hc. unfold ResolveReference, URL_of_path, setPath, container_URL. simpl.
  f_equal. exact (resolvePath_container (Path u) container Hc).
Qed.

(** C10.  [extractAzurePrefix] fails exactly when nothing is left of the
    path once its leading slashes are dropped, and the error is
    [ErrAzureInvalidURL]; a path with a container alone gives back the URL
    it was given and an empty prefix; a path with a container, a slash and
    a remainder gives the URL of the container and the remainder. *)
Theorem extractAzurePrefix_cases (storageURI : URL) :
  let path := TrimLeft (Path storageURI) "/" in
  (snd (extractAzurePrefix storageURI) <> None <-> path = "") /\
  (forall e, snd (extractAzurePrefix storageURI) = Some e ->
     fst (extractAzurePrefix storageURI) = (None, "") /\
     azure_Is e ErrAzureInvalidURL = true) /\
  (path <> "" -> Cut path slash = None ->
     extractAzurePrefix storageURI = (Some storageURI, "", None)) /\
  (forall container prefix,
     path = container ++ "/" ++ prefix -> Cut container slash = None ->
     extractAzurePrefix storageURI
     = (Some (container_URL storageURI container), prefix, None)).
Proof.
  intros path. unfold extractAzurePrefix. fold path.
  destruct path as [|c rest] eqn:Hpath.
  - cbn [String.length Nat.eqb snd fst]. split; [|split; [|split]].
    + split; [reflexivity | discriminate].
    + intros e [= <-]. split; reflexivity.
    + congruence.
    + intros container prefix Heq. destruct container; discriminate.
  - cbn [String.length Nat.eqb]. unfold SplitN2.
    destruct (Cut (String c rest) slash) as [[before rest']|] eqn:Hcut;
      cbn [nth snd fst]; (split; [|split; [|split]]).
    + split; [intros H; now contradiction H | discriminate].
    + discriminate.
    + discriminate.
    + intros container prefix Heq Hc.
      rewrite Heq, (Cut_app _ _ Hc) in Hcut. inversion Hcut; subst.
      now rewrite ResolveReference_container.
    + split; [intros H; now contradiction H | discriminate].
    + discriminate.
    + reflexivity.
    + intros container prefix Heq Hc.
      rewrite Heq, (Cut_app _ _ Hc) in Hcut. discriminate.
Qed.

Definition sample_URL (path : string) : URL :=
  {| Scheme := "https"; Opaque := ""; User := None;
     Host := "account.blob.core.windows.net"; Path := path; RawPath := "";
     ForceQuery := false; RawQuery := "comp=list"; Fragment := "";
     RawFragment := "" |}.

Lemma extractAzurePrefix_cases_witness :
  extractAzurePrefix (sample_URL "/container")
  = (Some (sample_URL "/container"), "", None) /\
  extractAzurePrefix (sample_URL "//container/dir/blob")
  = (Some (container_URL (sample_URL "//container/dir/blob") "container"),
     "dir/blob", None).
Proof.
  split.
  - apply (proj1 (proj2 (proj2 (extractAzurePrefix_cases (sample_URL "/container")))));
      [discriminate | reflexivity].
  - apply (proj2 (proj2 (proj2 (extractAzurePrefix_cases
             (sample_URL "//container/dir/blob")))) "container" "dir/blob");
      reflexivity.
Defined.

End AzureFacts.

(** ** The Azure walker *)
Module AzureMore.
Import Azure AzureFacts.

(** *** Paths without dot segments *)

(** No segment of the path is [.] or [..]. *)
Definition dot_free (p : string) : Prop :=
  Forall (fun elem => elem <> "." /\ elem <> "..") (Split p slash).

(** The URL of the storage account of [u] at path [p], with neither query
    nor fragment. *)
Definition at_path (u : URL) (p : string) : URL :=
  {| Scheme := Scheme u; Opaque := ""; User := User u; Host := Host u;
     Path := p; RawPath := ""; ForceQuery := false; RawQuery := "";
     Fragment := ""; RawFragment := "" |}.

Lemma Split_not_nil s : Split s slash <> [].
Proof.
  destruct s as [|c s]; simpl; [discriminate|].
  destruct (Ascii.eqb c slash); [discriminate|].
  destruct (Split s slash); discriminate.
Qed.

Lemma Join_Split s : Join (Split s slash) "/" = s.
Proof.
  unfold Join. induction s as [|c s IH]; simpl; [reflexivity|].
  pose proof (Split_not_nil s) as Hne.
  destruct (Ascii.eqb_spec c slash) as [->|Hc].
  - destruct (Split s slash) as [|part parts]; [congruence|].
    change (String.concat "/" ("" :: part :: parts))
      with ("" ++ "/" ++ String.concat "/" (part :: parts)).
    now rewrite IH.
  - destruct (Split s slash) as [|part parts]; [congruence|].
    destruct parts as [|part' parts].
    + simpl in *. now rewrite IH.
    + change (String.concat "/" (String c part :: part' :: parts))
        with (String c (part ++ "/" ++ String.concat "/" (part' :: parts))).
      f_equal. exact IH.
Qed.

Lemma Split_app container rest :
  Cut container slash = None ->
  Split (container ++ "/" ++ rest) slash = container :: Split rest slash.
Proof.
  induction container as [|c s IH]; simpl; [reflexivity|].
  destruct (Ascii.eqb c slash); [discriminate|].
  destruct (Cut s slash) as [[a b]|] eqn:Hs; [discriminate|].
  intros _. specialize (IH eq_refl). simpl in IH.
  change (s +:+ String "/" rest) with (s ++ "/" ++ rest).
  now rewrite IH.
Qed.

Lemma Split_slash s : Split (String "/" s) slash = "" :: Split s slash.
Proof. reflexivity. Qed.

Lemma remove_dot_segments_from (acc src : list string) :
  Forall (fun elem => elem <> "." /\ elem <> "..") src ->
  fold_left (fun dst elem =>
               if String.eqb elem "." then dst
               else if String.eqb elem ".." then removelast dst
               else (dst ++ [elem])%list) src acc
  = (acc ++ src)%list.
Proof.
  intros H. revert acc. induction H as [|elem src [H1 H2] _ IH]; intros acc; simpl.
  - now rewrite app_nil_r.
  - destruct (String.eqb_spec elem "."); [contradiction|].
    destruct (String.eqb_spec elem ".."); [contradiction|].
    now rewrite IH, <- app_assoc.
Qed.

Lemma last_dot_free (src : list string) :
  src <> [] ->
  Forall (fun elem => elem <> "." /\ elem <> "..") src ->
  String.eqb (List.last src "") "." || String.eqb (List.last src "") ".." = false.
Proof.
  intros Hne H.
  assert (Hin : List.In (List.last src "") src).
  { destruct (exists_last Hne) as (l & a & ->). rewrite last_last.
    apply in_or_app. right. now left. }
  rewrite List.Forall_forall in H. apply H in Hin as [H1 H2].
  destruct (String.eqb_spec (List.last src "") "."); [contradiction|].
  destruct (String.eqb_spec (List.last src "") ".."); [contradiction|].
  reflexivity.
Qed.

Lemma TrimPrefix_slash s : TrimPrefix (String "/" s) "/" = s.
Proof.
  unfold TrimPrefix. simpl.
  replace (String.prefix "" s) with true by now destruct s.
  now rewrite Nat.sub_0_r, substring_all.
Qed.

(** The end of [resolvePath], once the segments are resolved. *)
Lemma resolvePath_absolute base q :
  resolvePath base (String "/" q)
  = let src := Split (String "/" q) slash in
    let dst := remove_dot_segments src in
    let dst := if String.eqb (List.last src "") "." || String.eqb (List.last src "") ".."
               then (dst ++ [""])%list else dst in
    "/" ++ TrimPrefix (Join dst "/") "/".
Proof. reflexivity. Qed.

(** An absolute path without dot segments resolves to itself, whatever the
    base. *)
Lemma resolvePath_dot_free base q :
  dot_free (String "/" q) -> resolvePath base (String "/" q) = String "/" q.
Proof.
  unfold dot_free. intros Hd. rewrite resolvePath_absolute. cbv zeta.
  unfold remove_dot_segments.
  rewrite (remove_dot_segments_from [] _ Hd), app_nil_l.
  rewrite (last_dot_free _ (Split_not_nil _) Hd).
  now rewrite Join_Split, TrimPrefix_slash.
Qed.

Lemma getAzureBlobURL_unfold containerURL blobName :
  getAzureBlobURL containerURL blobName
  = at_path containerURL
      (resolvePath (Path containerURL) (Path containerURL ++ "/" ++ blobName)).
Proof.
  unfold getAzureBlobURL, ResolveReference, URL_of_path, setPath, at_path. simpl.
  destruct (Path containerURL ++ "/" ++ blobName) eqn:Hp; [|reflexivity].
  destruct (Path containerURL); discriminate.
Qed.

(** X7.  For a container URL with an absolute path and a blob name, none
    of whose segments is [.] or [..], the address of the blob is the
    container's path, a slash and the blob name, on the scheme, user and
    host of the container URL; the query and the fragment of the container
    URL are not carried over. *)
Theorem getAzureBlobURL_appends_name (containerURL : URL) (blobName q : string) :
  Path containerURL = String "/" q ->
  dot_free (Path containerURL ++ "/" ++ blobName) ->
  getAzureBlobURL containerURL blobName
  = at_path containerURL (Path containerURL ++ "/" ++ blobName).
Proof.
  intros Hp Hd. rewrite getAzureBlobURL_unfold. f_equal.
  rewrite Hp in *. now apply resolvePath_dot_free.
Qed.

Lemma getAzureBlobURL_appends_name_witness :
  getAzureBlobURL (sample_URL "/container") "dir/a.txt"
  = at_path (sample_URL "/container") "/container/dir/a.txt".
Proof.
  apply (getAzureBlobURL_appends_name (sample_URL "/container") "dir/a.txt" "container").
  - reflexivity.
  - repeat constructor; discriminate.
Defined.

Lemma extractAzurePrefix_two_parts u container prefix :
  TrimLeft (Path u) "/" = container ++ "/" ++ prefix ->
  Cut container slash = None ->
  extractAzurePrefix u = (Some (container_URL u container), prefix, None).
Proof.
  intros Hp Hc. unfold extractAzurePrefix, SplitN2.
  rewrite Hp, (Cut_app _ _ Hc). cbn [nth].
  rewrite ResolveReference_container by assumption.
  destruct container; reflexivity.
Qed.

Lemma container_URL_plain u container :
  container <> "." -> container <> ".." ->
  container_URL u container = at_path u ("/" ++ container).
Proof.
  intros H1 H2. unfold container_URL, at_path.
  destruct (String.eqb_spec container "."); [contradiction|].
  destruct (String.eqb_spec container ".."); [contradiction|].
  reflexivity.
Qed.

(** X8.  The walker's two steps composed: for a storage URL whose path is
    a container, a slash and a prefix, [extractAzurePrefix] gives a
    container URL from which [getAzureBlobURL] addresses a blob at the
    path made of the container and the blob's full name, once; the leading
    slashes, the prefix, the query and the fragment of the storage URL do
    not appear in it.  The container and the segments of the name are
    neither [.] nor [..]. *)
Theorem blob_address_of_storage_URL (u : URL) (container prefix blobName : string) :
  TrimLeft (Path u) "/" = container ++ "/" ++ prefix ->
  Cut container slash = None ->
  container <> "." -> container <> ".." ->
  dot_free blobName ->
  exists containerURL,
    extractAzurePrefix u = (Some containerURL, prefix, None) /\
    getAzureBlobURL containerURL blobName
    = at_path u ("/" ++ container ++ "/" ++ blobName).
Proof.
  intros Hp Hc H1 H2 Hd. exists (container_URL u container).
  split; [now apply extractAzurePrefix_two_parts|].
  rewrite container_URL_plain by assumption.
  rewrite (getAzureBlobURL_appends_name _ blobName container); [reflexivity.. |].
  change (Path (at_path u ("/" ++ container)) ++ "/" ++ blobName)
    with (String "/" (container ++ "/" ++ blobName)).
  unfold dot_free. rewrite Split_slash, (Split_app _ _ Hc).
  repeat constructor; try discriminate; try assumption.
Qed.

Lemma blob_address_of_storage_URL_witness :
  exists containerURL,
    extractAzurePrefix (sample_URL "//container/dir/sub") = (Some containerURL, "dir/sub", None) /\
    getAzureBlobURL containerURL "dir/sub/a.txt"
    = at_path (sample_URL "//container/dir/sub") "/container/dir/sub/a.txt".
Proof.
  apply (blob_address_of_storage_URL (sample_URL "//container/dir/sub")
           "container" "dir/sub" "dir/sub/a.txt");
    try reflexivity; try discriminate.
  repeat constructor; discriminate.
Defined.

(** X9.  A blob name is resolved as a relative reference, not appended: a
    name that starts with the segment [..] is addressed outside the
    container, at the root of the storage account. *)
Theorem getAzureBlobURL_parent_segment (containerURL : URL) (container rest : string) :
  Path containerURL = "/" ++ container ->
  Cut container slash = None ->
  container <> "." -> container <> ".." ->
  dot_free rest ->
  getAzureBlobURL containerURL ("../" ++ rest) = at_path containerURL ("/" ++ rest).
Proof.
  intros Hp Hc H1 H2 Hd. rewrite getAzureBlobURL_unfold. f_equal. rewrite Hp.
  change (("/" ++ container) ++ "/" ++ "../" ++ rest)
    with (String "/" (container ++ "/" ++ (".." ++ "/" ++ rest))).
  rewrite resolvePath_absolute. cbv zeta.
  rewrite Split_slash, (Split_app _ _ Hc), (Split_app ".." rest eq_refl).
  unfold remove_dot_segments. cbn [fold_left].
  destruct (String.eqb_spec container "."); [contradiction|].
  destruct (String.eqb_spec container ".."); [contradiction|].
  cbn [String.eqb Ascii.eqb Bool.eqb app removelast].
  rewrite (remove_dot_segments_from [""] _ Hd).
  replace (List.last ("" :: container :: ".." :: Split rest slash) "")
    with (List.last (Split rest slash) "").
  2:{ pose proof (Split_not_nil rest). destruct (Split rest slash); [congruence | reflexivity]. }
  rewrite (last_dot_free _ (Split_not_nil _) Hd).
  change ([""] ++ Split rest slash)%list with (Split (String "/" rest) slash).
  now rewrite Join_Split, TrimPrefix_slash.
Qed.

Lemma getAzureBlobURL_parent_segment_witness :
  getAzureBlobURL (sample_URL "/container") "../other/a.txt"
  = at_path (sample_URL "/container") "/other/a.txt".
Proof.
  apply (getAzureBlobURL_parent_segment (sample_URL "/container") "container" "other/a.txt");
    try reflexivity; try discriminate.
  repeat constructor; discriminate.
Defined.

Lemma TrimLeft_slash_head s a r : TrimLeft s "/" = String a r -> a <> slash.
Proof.
  induction s as [|c s IH]; simpl; [discriminate|].
  destruct (Ascii.eqb_spec c "/") as [->|Hc]; [exact IH|].
  intros [= -> ->]. exact Hc.
Qed.

Lemma TrimLeft_no_slash_head a r : a <> slash -> TrimLeft (String a r) "/" = String a r.
Proof.
  intros Ha. simpl. destruct (Ascii.eqb_spec a "/") as [->|]; [|reflexivity].
  now contradiction Ha.
Qed.

Lemma Cut_Some s before rest :
  Cut s slash = Some (before, rest) ->
  Cut before slash = None /\ s = before ++ "/" ++ rest.
Proof.
  revert before. induction s as [|c s IH]; intros before; simpl; [discriminate|].
  destruct (Ascii.eqb_spec c slash) as [->|Hc].
  - intros [= <- <-]. split; reflexivity.
  - destruct (Cut s slash) as [[b r]|]; [|discriminate].
    intros [= <- <-]. destruct (IH b eq_refl) as [Hb ->]. split.
    + simpl. destruct (Ascii.eqb_spec c slash); [contradiction|]. now rewrite Hb.
    + reflexivity.
Qed.

(** X10.  The container URL [extractAzurePrefix] returns is a container
    URL in its own eyes: given back to [extractAzurePrefix] it comes out
    unchanged, with an empty prefix.  The one exception is a storage path
    whose first segment is [.] or [..] and is followed by a slash: the URL
    returned for it has the root path, which [extractAzurePrefix] itself
    refuses with [ErrAzureInvalidURL]. *)
Theorem extractAzurePrefix_container_again (u containerURL : URL) (prefix : string) :
  extractAzurePrefix u = (Some containerURL, prefix, None) ->
  let path := TrimLeft (Path u) "/" in
  let container := nth 0 (SplitN2 path slash) "" in
  (Cut path slash = None \/ (container <> "." /\ container <> "..") ->
   extractAzurePrefix containerURL = (Some containerURL, "", None)) /\
  (Cut path slash <> None -> container = "." \/ container = ".." ->
   exists e, extractAzurePrefix containerURL = (None, "", Some e) /\
             azure_Is e ErrAzureInvalidURL = true).
Proof.
  intros Hx. cbv zeta. unfold extractAzurePrefix in Hx. unfold SplitN2 in *.
  destruct (TrimLeft (Path u) "/") as [|a r] eqn:Hpath; [discriminate|].
  pose proof (TrimLeft_slash_head _ _ _ Hpath) as Ha.
  cbn [String.length Nat.eqb] in Hx.
  destruct (Cut (String a r) slash) as [[before rest]|] eqn:Hcut; cbn [nth] in *.
  - destruct (Cut_Some _ _ _ Hcut) as [Hb Heq].
    injection Hx as <- <-.
    destruct before as [|b before].
    { change ("" ++ "/" ++ rest) with (String "/" rest) in Heq.
      inversion Heq; subst. now contradiction Ha. }
    change (String b before ++ "/" ++ rest)
      with (String b (before ++ "/" ++ rest)) in Heq.
    inversion Heq; subst b.
    rewrite ResolveReference_container by assumption.
    split.
    + intros [|[Hnd1 Hnd2]]; [discriminate|].
      rewrite container_URL_plain by assumption.
      unfold extractAzurePrefix, at_path. cbn [Path].
      change ("/" ++ String a before) with (String "/" (String a before)).
      change (TrimLeft (String "/" (String a before)) "/")
        with (TrimLeft (String a before) "/").
      rewrite (TrimLeft_no_slash_head _ _ Ha). cbn [String.length Nat.eqb].
      unfold SplitN2. now rewrite Hb.
    + intros _ [Hd|Hd]; rewrite Hd; eexists; split; reflexivity.
  - inversion Hx; subst; clear Hx. split.
    + intros _. unfold extractAzurePrefix. rewrite Hpath. cbn [String.length Nat.eqb].
      unfold SplitN2. now rewrite Hcut.
    + intros H. now contradiction H.
Qed.

Lemma extractAzurePrefix_container_again_witness :
  extractAzurePrefix (container_URL (sample_URL "//container/dir/blob") "container")
  = (Some (container_URL (sample_URL "//container/dir/blob") "container"), "", None) /\
  exists e, extractAzurePrefix (container_URL (sample_URL "/../dir/blob") "..")
            = (None, "", Some e).
Proof.
  split.
  - apply (proj1 (extractAzurePrefix_container_again
                    (sample_URL "//container/dir/blob") _ "dir/blob" eq_refl)).
    right. split; discriminate.
  - destruct (proj2 (extractAzurePrefix_container_again
                       (sample_URL "/../dir/blob") _ "dir/blob" eq_refl))
      as (e & He & _); [discriminate | now right |].
    exists e. exact He.
Defined.

(** *** The walk *)

(** The blob is past the key the walk resumes after: no key is given, or
    the name of the blob is greater. *)
Definition after_key (op : WalkOptions) (blobInfo : BlobItem) : bool :=
  String.eqb (After op) "" || String.ltb (After op) (Name blobInfo).

Lemma skipped_iff_not_after_key op blobInfo :
  negb (String.eqb (After op) "") && String.leb (Name blobInfo) (After op)
  = negb (after_key op blobInfo).
Proof.
  unfold after_key, String.leb, String.ltb.
  rewrite (String.compare_antisym (After op) (Name blobInfo)).
  destruct (String.eqb (After op) ""); [reflexivity|].
  now destruct (String.compare (Name blobInfo) (After op)).
Qed.

(** The order of strings: a string below a second that is below a third
    is below the third. *)
Lemma compare_trans_lt s1 : forall s2 s3,
  String.compare s1 s2 = Lt -> String.compare s2 s3 = Lt ->
  String.compare s1 s3 = Lt.
Proof.
  induction s1 as [|c1 s1 IH]; intros [|c2 s2] [|c3 s3]; simpl; try done.
  unfold Ascii.compare.
  destruct (N.compare_spec (N_of_ascii c1) (N_of_ascii c2)) as [H12|H12|H12];
    try done;
    destruct (N.compare_spec (N_of_ascii c2) (N_of_ascii c3)) as [H23|H23|H23];
    try done; intros Ha Hb.
  - rewrite H12, H23, N.compare_refl. by apply (IH s2).
  - rewrite H12. by apply N.compare_lt_iff in H23 as ->.
  - rewrite <- H23. by apply N.compare_lt_iff in H12 as ->.
  - assert (H13 : (N_of_ascii c1 < N_of_ascii c3)%N) by lia.
    by apply N.compare_lt_iff in H13 as ->.
Qed.

Lemma ltb_trans s1 s2 s3 :
  String.ltb s1 s2 = true -> String.ltb s2 s3 = true -> String.ltb s1 s3 = true.
Proof.
  unfold String.ltb. intros H1 H2.
  rewrite (compare_trans_lt s1 s2 s3); [done| |].
  - by destruct (String.compare s1 s2).
  - by destruct (String.compare s2 s3).
Qed.

Section WalkFacts.

Variables E T : Type.
Variable ListBlobsFlatSegment :
  URL -> option string -> string -> ListBlobsFlatSegmentResponse + E.
Variable walkFn : T -> ObjectStoreEntry -> T * option E.

(** The blobs the service lists from a marker on, each with the marker of
    the request that returned it: the answers are followed until one
    carries a marker that ends the listing.  [None] when a request fails
    or [fuel] requests do not reach the end. *)
Fixpoint listing (fuel : nat) (marker : option string) (containerURL : URL)
    (prefix : string) : option (list (option string * BlobItem)) :=
  match fuel with
  | O => None
  | S fuel' =>
      match ListBlobsFlatSegment containerURL marker prefix with
      | inr _ => None
      | inl listBlob =>
          let page := map (pair marker) (BlobItems listBlob) in
          if NotDone (NextMarker listBlob)
          then match listing fuel' (NextMarker listBlob) containerURL prefix with
               | Some rest => Some (page ++ rest)%list
               | None => None
               end
          else Some page
      end
  end.

(** The callback applied to a sequence in order, up to its first error:
    the state it leaves and, if it failed, where and how. *)
Fixpoint feed {X} (f : T -> X -> T * option E) (s : T) (xs : list X)
  : T * option (X * E) :=
  match xs with
  | [] => (s, None)
  | x :: xs' =>
      match f s x with
      | (s', Some err) => (s', Some (x, err))
      | (s', None) => feed f s' xs'
      end
  end.

Lemma feed_app {X} (f : T -> X -> T * option E) s (xs ys : list X) :
  feed f s (xs ++ ys)
  = match feed f s xs with
    | (s', None) => feed f s' ys
    | r => r
    end.
Proof.
  revert s. induction xs as [|x xs IH]; intros s; simpl; [reflexivity|].
  destruct (f s x) as [s' [err|]]; [reflexivity | apply IH].
Qed.

Lemma feed_failed_at {X} (f : T -> X -> T * option E) s (xs : list X) s' x err :
  feed f s xs = (s', Some (x, err)) -> List.In x xs.
Proof.
  revert s. induction xs as [|y xs IH]; intros s; simpl; [discriminate|].
  destruct (f s y) as [s1 [e|]].
  - intros [= <- <- <-]. now left.
  - intros H. right. eauto.
Qed.

(** The entry the callback gets for a listed blob. *)
Definition entry_for (containerURL : URL) (prefix : string)
    (tb : option string * BlobItem) : ObjectStoreEntry :=
  entry_of containerURL prefix tb.2 (default 0 (ContentLength tb.2)).

Definition visited (op : WalkOptions) (tagged : list (option string * BlobItem))
  : list (option string * BlobItem) :=
  List.filter (fun tb => after_key op tb.2) tagged.

Definition sized (tb : option string * BlobItem) : Prop :=
  ContentLength tb.2 <> None.

Lemma walk_items_feed items containerURL prefix op mk s tok :
  Forall sized (visited op (map (pair tok) items)) ->
  match feed (fun s tb => walkFn s (entry_for containerURL prefix tb)) s
          (visited op (map (pair tok) items)) with
  | (s', None) =>
      exists lk,
        walk_items walkFn items containerURL prefix op mk s
        = (s', {| ContinuationToken := ContinuationToken mk; LastKey := lk;
                  HasMore := HasMore mk |}, None)
  | (s', Some (tb, err)) =>
      walk_items walkFn items containerURL prefix op mk s
      = (s', {| ContinuationToken := ContinuationToken mk; LastKey := Name tb.2;
                HasMore := HasMore mk |}, Some (Returns (Some (inr err))))
  end.
Proof.
  unfold visited. revert mk s.
  induction items as [|b items IH]; intros mk s Hs; simpl in *.
  - exists (LastKey mk). now destruct mk.
  - rewrite skipped_iff_not_after_key.
    destruct (after_key op b) eqn:Hb; simpl in *; [|now apply IH].
    apply Forall_cons in Hs as [Hb0 Hs]. unfold sized in Hb0. simpl in Hb0.
    unfold entry_for at 1. simpl.
    destruct (ContentLength b) as [size|]; [|congruence]. simpl.
    destruct (walkFn s (entry_of containerURL prefix b size)) as [s' [err|]];
      [reflexivity|].
    exact (IH {| ContinuationToken := ContinuationToken mk; LastKey := Name b;
                 HasMore := HasMore mk |} s' Hs).
Qed.

Lemma walk_pages_feed fuel marker containerURL prefix op mk s tagged :
  listing fuel marker containerURL prefix = Some tagged ->
  Forall sized (visited op tagged) ->
  walk_pages ListBlobsFlatSegment walkFn fuel marker containerURL prefix op mk s
  = match feed (fun s tb => walkFn s (entry_for containerURL prefix tb)) s
            (visited op tagged) with
    | (s', None) =>
        (s', {| ContinuationToken := ""; LastKey := ""; HasMore := false |},
         Returns None)
    | (s', Some (tb, err)) =>
        (s', {| ContinuationToken := StringValue tb.1; LastKey := Name tb.2;
                HasMore := HasMore mk |}, Returns (Some (inr err)))
    end.
Proof.
  revert marker mk s tagged.
  induction fuel as [|fuel IH]; intros marker mk s tagged Hl Hs; simpl in *;
    [discriminate|].
  destruct (ListBlobsFlatSegment containerURL marker prefix) as [listBlob|err];
    [|discriminate].
  set (mk1 := {| ContinuationToken := StringValue marker; LastKey := LastKey mk;
                 HasMore := HasMore mk |}).
  set (page := map (pair marker) (BlobItems listBlob)) in *.
  assert (Hpage : forall rest, Forall sized (visited op (page ++ rest)) ->
                               Forall sized (visited op page)).
  { intros rest. unfold visited. rewrite List.filter_app.
    now intros [H _]%Forall_app. }
  assert (Hfail : forall s' tb err,
             feed (fun s tb => walkFn s (entry_for containerURL prefix tb)) s
               (visited op page) = (s', Some (tb, err)) -> tb.1 = marker).
  { intros s' tb err Hf. apply feed_failed_at in Hf.
    apply List.filter_In in Hf as [Hf _]. apply List.in_map_iff in Hf as (b & <- & _).
    reflexivity. }
  destruct (NotDone (NextMarker listBlob)).
  - destruct (listing fuel (NextMarker listBlob) containerURL prefix) as [rest|] eqn:Hrest;
      [|discriminate].
    injection Hl as <-.
    pose proof (walk_items_feed (BlobItems listBlob) containerURL prefix op mk1 s
                  marker (Hpage _ Hs)) as Hitems.
    fold page in Hitems. unfold visited in *. rewrite List.filter_app, feed_app.
    rewrite List.filter_app in Hs. apply Forall_app in Hs as [_ Hs].
    destruct (feed _ s (List.filter _ page)) as [s' [[tb err]|]] eqn:Hf.
    + rewrite Hitems. now rewrite (Hfail _ _ _ eq_refl).
    + destruct Hitems as (lk & ->). now rewrite (IH _ _ _ _ Hrest Hs).
  - injection Hl as <-.
    pose proof (walk_items_feed (BlobItems listBlob) containerURL prefix op mk1 s
                  marker Hs) as Hitems.
    fold page in Hitems.
    destruct (feed _ s (visited op page)) as [s' [[tb err]|]] eqn:Hf.
    + rewrite Hitems. now rewrite (Hfail _ _ _ eq_refl).
    + now destruct Hitems as (lk & ->).
Qed.

Lemma Walk_feed
    (fuel : nat) (a : azureBlobWalker) (storageURI containerURL : URL)
    (prefix : string) (op : WalkOptions) (s : T)
    (tagged : list (option string * BlobItem)) :
  extractAzurePrefix storageURI = (Some containerURL, prefix, None) ->
  listing fuel (Some (WalkOptions_ContinuationToken op)) containerURL prefix
  = Some tagged ->
  Forall sized (visited op tagged) ->
  Walk ListBlobsFlatSegment walkFn fuel a storageURI op s
  = match feed (fun s tb => walkFn s (entry_for containerURL prefix tb)) s
            (visited op tagged) with
    | (s', None) =>
        (s', {| mark := {| ContinuationToken := ""; LastKey := "";
                           HasMore := false |} |}, Returns None)
    | (s', Some (tb, err)) =>
        (s', {| mark := {| ContinuationToken := StringValue tb.1;
                           LastKey := Name tb.2;
                           HasMore := HasMore (Marker a) |} |},
         Returns (Some (inr err)))
    end.
Proof.
  intros Hx Hl Hs. unfold Walk. rewrite Hx.
  rewrite (walk_pages_feed _ _ _ _ _ _ _ _ Hl Hs).
  now destruct (feed _ s (visited op tagged)) as [s' [[tb err]|]].
Qed.


(** X11.  What a walk visits.  Let the service list, from the
    continuation token on, a sequence of blobs.  [Walk] hands the callback
    the blobs whose name is greater than [After] (all of them when [After]
    is empty), in the order of the listing, each as an entry with its full
    name, the name without the prefix, its address under the container,
    and its tag, time and size, until the callback fails.  If it never
    fails, [Walk] returns nil and the mark is reset: [HasMore] is false,
    the key and the token are empty.  If it fails at a blob, [Walk]
    returns that error, and the mark names that blob as its last key, with
    the token of the request that listed it; [HasMore] is as before. *)
Theorem Walk_visits
    (fuel : nat) (a : azureBlobWalker) (storageURI containerURL : URL)
    (prefix : string) (op : WalkOptions) (s : T)
    (tagged : list (option string * BlobItem)) :
  extractAzurePrefix storageURI = (Some containerURL, prefix, None) ->
  listing fuel (Some (WalkOptions_ContinuationToken op)) containerURL prefix
  = Some tagged ->
  Forall sized (visited op tagged) ->
  Walk ListBlobsFlatSegment walkFn fuel a storageURI op s
  = match feed (fun s tb => walkFn s (entry_for containerURL prefix tb)) s
            (visited op tagged) with
    | (s', None) =>
        (s', {| mark := {| ContinuationToken := ""; LastKey := "";
                           HasMore := false |} |}, Returns None)
    | (s', Some (tb, err)) =>
        (s', {| mark := {| ContinuationToken := StringValue tb.1;
                           LastKey := Name tb.2;
                           HasMore := HasMore (Marker a) |} |},
         Returns (Some (inr err)))
    end.
Proof. apply Walk_feed. Qed.

(** *** Resuming a walk *)

(** What [feed] has not reached: the elements after the one at which the
    callback failed. *)
Fixpoint left_over {X} (f : T -> X -> T * option E) (s : T) (xs : list X)
  : list X :=
  match xs with
  | [] => []
  | x :: xs' =>
      match f s x with
      | (_, Some _) => xs'
      | (s', None) => left_over f s' xs'
      end
  end.

Lemma left_over_app {X} (f : T -> X -> T * option E) s s' (xs ys : list X) :
  feed f s xs = (s', None) -> left_over f s (xs ++ ys) = left_over f s' ys.
Proof.
  revert s. induction xs as [|x xs IH]; intros s; simpl.
  - by intros [= ->].
  - destruct (f s x) as [s1 [err|]]; [discriminate | apply IH].
Qed.

(** The listing is in the order of the names. *)
Definition name_lt (x y : option string * BlobItem) : Prop :=
  String.ltb (Name x.2) (Name y.2) = true.

Lemma listing_from fuel marker containerURL prefix tagged x :
  listing fuel marker containerURL prefix = Some tagged ->
  List.In x tagged ->
  exists fuel' before rest,
    tagged = (before ++ rest)%list /\
    listing fuel' x.1 containerURL prefix = Some rest /\ List.In x rest.
Proof.
  revert marker tagged.
  induction fuel as [|fuel IH]; intros marker tagged Hl Hin; [discriminate|].
  pose proof Hl as Hl0. simpl in Hl.
  destruct (ListBlobsFlatSegment containerURL marker prefix) as [listBlob|err];
    [|discriminate].
  assert (Hpage : List.In x (map (pair marker) (BlobItems listBlob)) ->
                  exists fuel' before rest,
                    tagged = (before ++ rest)%list /\
                    listing fuel' x.1 containerURL prefix = Some rest /\
                    List.In x rest).
  { intros Hx. exists (S fuel), [], tagged. split; [done|].
    apply List.in_map_iff in Hx as (b & <- & _). by split. }
  destruct (NotDone (NextMarker listBlob)).
  - destruct (listing fuel (NextMarker listBlob) containerURL prefix) as [rest|] eqn:Hrest;
      [|discriminate].
    injection Hl as <-. apply List.in_app_or in Hin as [Hin|Hin]; [by apply Hpage|].
    destruct (IH _ _ Hrest Hin) as (fuel' & before & rest' & -> & Hl' & Hin').
    exists fuel', (map (pair marker) (BlobItems listBlob) ++ before)%list, rest'.
    by rewrite <- app_assoc.
  - injection Hl as <-. by apply Hpage.
Qed.

Lemma filter_none {A} (p : A -> bool) (l : list A) :
  (forall y, List.In y l -> p y = false) -> List.filter p l = [].
Proof.
  induction l as [|a l IH]; intros H; simpl; [done|].
  rewrite (H a) by by left. apply IH. intros y Hy. apply H. by right.
Qed.

Lemma sorted_around {A} (R : A -> A -> Prop) (l : list A) x (r : list A) :
  Sorted.StronglySorted R (l ++ x :: r) ->
  Forall (fun y => R y x) l /\ Forall (R x) r.
Proof.
  induction l as [|a l IH]; simpl; intros Hs.
  - inversion Hs; subst. by split.
  - inversion Hs as [|? ? Hs' Ha]; subst. destruct (IH Hs') as [H1 H2].
    split; [|done]. constructor; [|done].
    rewrite List.Forall_forall in Ha. apply Ha, List.in_or_app. right. by left.
Qed.

(** X12.  Resuming from the mark.  Let the blobs be listed in the order
    of their names, and let a walk fail in the callback at a blob with a
    non-empty name: the mark then holds the name of that blob and the
    token of the request that listed it.  A walk that resumes from this
    mark, with the key of the mark as [After] and its token as the
    continuation token, hands the callback exactly the blobs the first
    walk had not reached, in order.  The blob at which the callback failed
    is not among them: it is not handed to the callback again. *)
Theorem Walk_resumes_past_failed_blob
    (fuel : nat) (a a' : azureBlobWalker) (storageURI containerURL : URL)
    (prefix : string) (op : WalkOptions) (s s1 s' : T)
    (tagged : list (option string * BlobItem))
    (token : string) (blobInfo : BlobItem) (err : E) :
  extractAzurePrefix storageURI = (Some containerURL, prefix, None) ->
  listing fuel (Some (WalkOptions_ContinuationToken op)) containerURL prefix
  = Some tagged ->
  Sorted.StronglySorted name_lt tagged ->
  Forall sized tagged ->
  feed (fun s tb => walkFn s (entry_for containerURL prefix tb)) s
    (visited op tagged) = (s1, Some ((Some token, blobInfo), err)) ->
  Name blobInfo <> "" ->
  let missed := left_over (fun s tb => walkFn s (entry_for containerURL prefix tb))
                  s (visited op tagged) in
  Marker (Walk ListBlobsFlatSegment walkFn fuel a storageURI op s).1.2
  = {| ContinuationToken := token; LastKey := Name blobInfo;
       HasMore := HasMore (Marker a) |} /\
  ~ List.In (Some token, blobInfo) missed /\
  exists fuel',
    Walk ListBlobsFlatSegment walkFn fuel' a' storageURI
      {| After := Name blobInfo; WalkOptions_ContinuationToken := token |} s'
    = match feed (fun s tb => walkFn s (entry_for containerURL prefix tb)) s' missed with
      | (s'', None) =>
          (s'', {| mark := {| ContinuationToken := ""; LastKey := "";
                              HasMore := false |} |}, Returns None)
      | (s'', Some (tb, err')) =>
          (s'', {| mark := {| ContinuationToken := StringValue tb.1;
                              LastKey := Name tb.2;
                              HasMore := HasMore (Marker a') |} |},
           Returns (Some (inr err')))
      end.
Proof.
  intros Hx Hl Hsorted Hsized Hfeed Hname missed.
  set (f := fun s tb => walkFn s (entry_for containerURL prefix tb)) in *.
  set (x := (Some token, blobInfo)) in *.
  assert (Hvis : forall l, Forall sized l -> Forall sized (visited op l)).
  { intros l Hl0. unfold visited. rewrite List.Forall_forall in *.
    intros y Hy%List.filter_In. apply Hl0, Hy. }
  (* the first walk *)
  split.
  { rewrite (Walk_feed fuel a _ _ _ op s tagged Hx Hl (Hvis _ Hsized)).
    fold f. by rewrite Hfeed. }
  (* where the failing blob is in the listing *)
  pose proof (feed_failed_at _ _ _ _ _ _ Hfeed) as Hin.
  apply List.filter_In in Hin as [Hin Hpass].
  destruct (listing_from _ _ _ _ _ x Hl Hin)
    as (fuel' & before & rest & -> & Hl' & Hin').
  apply List.in_split in Hin' as (r1 & r2 & ->).
  rewrite app_assoc in Hsorted, Hfeed, Hsized. subst missed.
  rewrite app_assoc.
  destruct (sorted_around _ _ _ _ Hsorted) as [Hbefore Hafter].
  set (L := (before ++ r1)%list) in *.
  (* a name is not below itself, and the order is transitive *)
  assert (Hirr : forall y, name_lt y y -> False).
  { intros y. unfold name_lt, String.ltb.
    destruct (String.compare (Name y.2) (Name y.2)) eqn:Hc; try discriminate.
    pose proof (String.compare_antisym (Name y.2) (Name y.2)) as Ha.
    rewrite Hc in Ha. discriminate. }
  assert (Hasym : forall y z, name_lt y z -> String.ltb (Name z.2) (Name y.2) = false).
  { intros y z. unfold name_lt, String.ltb.
    rewrite (String.compare_antisym (Name z.2) (Name y.2)).
    by destruct (String.compare (Name y.2) (Name z.2)). }
  (* the callback does not fail before the blob, and fails at it *)
  assert (HxL : ~ List.In x (visited op L)).
  { intros Hx'%List.filter_In. destruct Hx' as [Hx' _].
    rewrite List.Forall_forall in Hbefore. by apply (Hirr x), Hbefore. }
  assert (HxR : ~ List.In x (visited op r2)).
  { intros Hx'%List.filter_In. destruct Hx' as [Hx' _].
    rewrite List.Forall_forall in Hafter. by apply (Hirr x), Hafter. }
  unfold visited in Hfeed. rewrite List.filter_app in Hfeed.
  cbn [List.filter] in Hfeed. rewrite Hpass in Hfeed. rewrite feed_app in Hfeed.
  fold (visited op L) in *. fold (visited op r2) in *.
  destruct (feed f s (visited op L)) as [sL [[y e]|]] eqn:HfL.
  { injection Hfeed as -> -> ->. by apply feed_failed_at in HfL. }
  cbn [feed] in Hfeed.
  destruct (f sL x) as [sx [ex|]] eqn:Hfx.
  2:{ by apply feed_failed_at in Hfeed. }
  assert (Hmissed : left_over f s (visited op (L ++ x :: r2)) = visited op r2).
  { unfold visited at 1. rewrite List.filter_app. cbn [List.filter]. rewrite Hpass.
    fold (visited op L). fold (visited op r2).
    rewrite (left_over_app f s sL _ _ HfL). cbn [left_over]. by rewrite Hfx. }
  rewrite Hmissed. split; [done|].
  (* every blob after it passes the first filter *)
  assert (Hall : visited op r2 = r2).
  { unfold visited. apply List.forallb_filter_id, List.forallb_forall.
    intros y Hy. rewrite List.Forall_forall in Hafter. specialize (Hafter y Hy).
    unfold after_key in *. destruct (String.eqb (After op) ""); [done|]. simpl in *.
    apply (ltb_trans _ (Name x.2)); done. }
  (* the resumed walk *)
  exists fuel'.
  assert (Hres : visited {| After := Name blobInfo;
                            WalkOptions_ContinuationToken := token |}
                   (r1 ++ x :: r2) = r2).
  { unfold visited, after_key. cbn [After].
    destruct (String.eqb_spec (Name blobInfo) "") as [|_]; [done|]. cbn [orb].
    rewrite List.filter_app. cbn [List.filter].
    replace (String.ltb (Name blobInfo) (Name x.2)) with false.
    2:{ symmetry. destruct (String.ltb (Name blobInfo) (Name x.2)) eqn:Hc; [|done].
        by destruct (Hirr x). }
    rewrite (filter_none _ r1).
    2:{ intros y Hy. apply (Hasym y x).
        rewrite List.Forall_forall in Hbefore. apply Hbefore.
        apply List.in_or_app. by right. }
    apply List.forallb_filter_id, List.forallb_forall.
    intros y Hy. rewrite List.Forall_forall in Hafter. exact (Hafter y Hy). }
  rewrite (Walk_feed fuel' a' storageURI containerURL prefix
             {| After := Name blobInfo; WalkOptions_ContinuationToken := token |}
             s' (r1 ++ x :: r2) Hx Hl').
  - by rewrite Hres, Hall.
  - rewrite Hres. apply Forall_app in Hsized as [_ Hsized].
    by apply Forall_cons in Hsized as [_ Hsized].
Qed.

End WalkFacts.

Arguments listing {E} ListBlobsFlatSegment fuel marker containerURL prefix.
Arguments feed {E T X} f s xs.
Arguments left_over {E T X} f s xs.

(** Sample data: a container of two pages, and a callback that collects
    the keys it is given and refuses the key [b/2]. *)
Definition blob (name : string) : BlobItem :=
  {| Name := name; Etag := "0x1"; LastModified := KV.Time_zero;
     ContentLength := Some 3 |}.

Definition two_pages (containerURL : URL) (marker : option string) (prefix : string)
  : ListBlobsFlatSegmentResponse + string :=
  match marker with
  | Some "" => inl {| BlobItems := [blob "a/1"; blob "a/2"]; NextMarker := Some "p2" |}
  | Some "p2" => inl {| BlobItems := [blob "b/1"; blob "b/2"; blob "b/3"];
                        NextMarker := Some "" |}
  | _ => inr "unknown marker"
  end.

Definition collect (refuse : string) (keys : list string) (e : ObjectStoreEntry)
  : list string * option string :=
  if String.eqb (FullKey e) refuse then (keys, Some "refused")
  else ((keys ++ [FullKey e])%list, None).

Lemma Walk_visits_witness :
  Walk two_pages (collect "") 5 NewAzureBlobWalker (sample_URL "/container")
    {| After := "a/1"; WalkOptions_ContinuationToken := "" |} []
  = (["a/2"; "b/1"; "b/2"; "b/3"],
     {| mark := {| ContinuationToken := ""; LastKey := ""; HasMore := false |} |},
     Returns None) /\
  Walk two_pages (collect "b/2") 5 NewAzureBlobWalker (sample_URL "/container")
    {| After := ""; WalkOptions_ContinuationToken := "" |} []
  = (["a/1"; "a/2"; "b/1"],
     {| mark := {| ContinuationToken := "p2"; LastKey := "b/2"; HasMore := true |} |},
     Returns (Some (inr "refused"))).
Proof.
  split.
  - refine (Walk_visits _ _ two_pages (collect "") 5 NewAzureBlobWalker
              (sample_URL "/container") (sample_URL "/container") ""
              {| After := "a/1"; WalkOptions_ContinuationToken := "" |} []
              _ eq_refl eq_refl _).
    repeat constructor; discriminate.
  - refine (Walk_visits _ _ two_pages (collect "b/2") 5 NewAzureBlobWalker
              (sample_URL "/container") (sample_URL "/container") ""
              {| After := ""; WalkOptions_ContinuationToken := "" |} []
              _ eq_refl eq_refl _).
    repeat constructor; discriminate.
Defined.

Lemma Walk_resumes_past_failed_blob_witness :
  exists fuel',
    Walk two_pages (collect "b/2") fuel' NewAzureBlobWalker (sample_URL "/container")
      {| After := "b/2"; WalkOptions_ContinuationToken := "p2" |} []
    = (["b/3"],
       {| mark := {| ContinuationToken := ""; LastKey := ""; HasMore := false |} |},
       Returns None).
Proof.
  edestruct (Walk_resumes_past_failed_blob _ _ two_pages (collect "b/2") 5
               NewAzureBlobWalker NewAzureBlobWalker
               (sample_URL "/container") (sample_URL "/container") ""
               {| After := ""; WalkOptions_ContinuationToken := "" |}
               [] ["a/1"; "a/2"; "b/1"] []
               [(Some "", blob "a/1"); (Some "", blob "a/2");
                (Some "p2", blob "b/1"); (Some "p2", blob "b/2");
                (Some "p2", blob "b/3")]
               "p2" (blob "b/2") "refused") as (_ & _ & fuel' & H).
  - reflexivity.
  - reflexivity.
  - repeat constructor.
  - repeat constructor; discriminate.
  - reflexivity.
  - discriminate.
  - exists fuel'. exact H.
Defined.

End AzureMore.

(** ** strconv: a number written in decimal reads back *)
Module StrconvFacts.
Import Strconv.

Lemma digits_acc d (acc : positive) :
  digits (NilEmpty.string_of_uint d) (Z.pos acc)
  = Some (Z.pos (Pos.of_uint_acc d acc)).
Proof.
  revert acc. induction d as [|d IH|d IH|d IH|d IH|d IH|d IH|d IH|d IH|d IH|d IH];
    intros acc; [reflexivity|..];
    cbn [NilEmpty.string_of_uint digits Pos.of_uint_acc];
    match goal with
    | |- context [digit ?c] =>
        let v := eval vm_compute in (digit c) in change (digit c) with v
    end;
    cbv beta iota; rewrite <- IH; f_equal; lia.
Qed.

Lemma digits_of_uint d :
  digits (NilEmpty.string_of_uint d) 0 = Some (Z.of_N (Pos.of_uint d)).
Proof.
  induction d as [|d IH|d IH|d IH|d IH|d IH|d IH|d IH|d IH|d IH|d IH];
    [reflexivity| exact IH |..];
    cbn [NilEmpty.string_of_uint digits Pos.of_uint Z.of_N];
    match goal with
    | |- context [digit ?c] =>
        let v := eval vm_compute in (digit c) in change (digit c) with v
    end;
    cbv beta iota; rewrite <- digits_acc; f_equal.
Qed.

(** [strconv.Atoi(strconv.Itoa(i))] is [i], for [i] in the range of a
    64-bit [int]. *)
Lemma Atoi_Itoa z : - 2 ^ 63 <= z < 2 ^ 63 -> Atoi (Itoa z) = Some z.
Proof.
  intros Hz.
  assert (Hrange : Z.leb (- 2 ^ 63) z && Z.ltb z (2 ^ 63) = true).
  { apply andb_true_intro. split; [apply Z.leb_le | apply Z.ltb_lt]; lia. }
  destruct z as [|p|p]; [reflexivity|..]; unfold Itoa;
    cbn [Z.to_int NilZero.string_of_int];
    pose proof (DecimalPos.Unsigned.of_to p) as Hp;
    pose proof (DecimalPos.Unsigned.to_uint_nonnil p) as Hn;
    pose proof (digits_of_uint (Pos.to_uint p)) as Hdig;
    rewrite Hp in Hdig;
    destruct (Pos.to_uint p) as [|d|d|d|d|d|d|d|d|d|d]; try congruence;
    unfold NilZero.string_of_uint, Atoi;
    cbn [NilEmpty.string_of_uint Ascii.eqb Bool.eqb orb] in *;
    rewrite Hdig; cbv beta iota zeta;
    cbn [Z.of_N]; change (- Z.pos p) with (Z.neg p); now rewrite Hrange.
Qed.

End StrconvFacts.

(** ** Migrate *)
Module MigrateFacts.
Import KV Strconv Postgres ImportFacts.
Local Open Scope list_scope.
Local Open Scope nat_scope.

(** What a trace shows: the writes to the store, the statements sent to
    the database and the directories removed, each with the answer. *)
Definition sets_of (t : list event) : list (string * string * option error) :=
  omap (fun ev => match ev with
                  | Call (store_Set k v) r => Some (k, v, r)
                  | _ => None
                  end) t.

Definition execs_of (t : list event) : list (sql * option error) :=
  omap (fun ev => match ev with
                  | Call (pool_Exec q) r => Some (q, r)
                  | _ => None
                  end) t.

Definition removals_of (t : list event) : list (string * option error) :=
  omap (fun ev => match ev with
                  | Call (os_RemoveAll d) r => Some (d, r)
                  | _ => None
                  end) t.

(** The events of a provider task: its log lines, the creation of its file
    and the rewind. *)
Definition task_event (ev : event) : bool :=
  match ev with
  | Log _ _ | Call (os_CreateTemp _ _) _ | Call (file_Seek _) _ => true
  | _ => false
  end.

Lemma task_events_silent evs :
  Forall (fun ev => task_event ev = true) evs ->
  sets_of evs = [] /\ execs_of evs = [] /\ removals_of evs = [].
Proof.
  induction 1 as [|ev evs Hev _ (IH1 & IH2 & IH3)]; [done|].
  unfold sets_of, execs_of, removals_of in *.
  repeat split; (destruct ev as [[]|]; simpl in Hev; try discriminate; exact IH1
                 || exact IH2 || exact IH3).
Qed.

(** The errors of the tasks that have failed. *)
Definition failure (t : task) : option error :=
  match t with
  | Finished (Some e) => Some e
  | _ => None
  end.

Definition failures (ts : list task) : list error := omap failure ts.

(** The keys of the entries of a stream, as the loop of [Import] sees
    them: the key of the variable [entry] after each object is decoded. *)
Fixpoint keys_of (jd : list frame) (entry : Entry) : list string :=
  match jd with
  | [] => []
  | Bad _ :: jd' => keys_of jd' entry
  | Obj o :: jd' =>
      let entry' := fst (unmarshal o entry) in
      slice_data (Key entry') :: keys_of jd' entry'
  end.

(** The keys of an export file: those of the frames after the header. *)
Definition stream_keys (fd : list frame) : list string :=
  match fd with
  | [] => []
  | _ :: jd => keys_of jd Entry_zero
  end.

Section Facts.

Variable InitialMigrateVersion : Z.
Variable DBVersionPath DefaultTableName DriverName : string.
Variable env : list event -> call -> option error.
Variable kvPkgs : list (string * pkgMigrate).
Variable schedule : list nat.

(** The keys a task has still to write. *)
Definition pending_keys (rels : gset string) (t : task) : list string :=
  match t with
  | Pending _ p => stream_keys (fst (Func p rels))
  | Importing _ jd entry => keys_of jd entry
  | Finished _ => []
  end.

Inductive stepped (w : World) (t : task) (w' : World) (t' : task) : Prop :=
| stepped_failed e :
    table w' = table w -> t' = Finished (Some e) -> stepped w t w' t'
| stepped_done name entry :
    table w' = table w -> t = Importing name [] entry -> t' = Finished None ->
    stepped w t w' t'
| stepped_started name p hdr jd :
    table w' = table w -> t = Pending name p ->
    fst (Func p (relations w)) = hdr :: jd -> t' = Importing name jd Entry_zero ->
    stepped w t w' t'
| stepped_wrote name o jd entry (m : gmap string string) k v :
    t = Importing name (Obj o :: jd) entry ->
    t' = Importing name jd (fst (unmarshal o entry)) ->
    Key (fst (unmarshal o entry)) = Some k -> k <> "" ->
    table w = Some m -> m !! k = None -> table w' = Some (<[k:=v]> m) ->
    stepped w t w' t'.

Lemma Import_header_inr fd jd :
  Import_header fd = inr jd -> exists hdr, fd = hdr :: jd.
Proof.
  unfold Import_header, Decode. destruct fd as [|hdr fd].
  - simpl. discriminate.
  - destruct (decode_value hdr Header_zero) as [h [e|]].
    + destruct (errors_Is e EOF); discriminate.
    + destruct (decide (h = Header_zero)); [discriminate|].
      intros [= <-]. eauto.
Qed.

(** One step of a task that is not done: the relational source and the
    directories stay, the trace grows by events of the task, and the store
    changes only by the write of a key that was free. *)
Lemma task_step_spec tmpDir t w w' t' :
  task_step env tmpDir t w = (w', t') -> is_finished t = false ->
  relations w' = relations w /\ dirs w' = dirs w /\
  (exists evs, trace w' = trace w ++ evs /\
               Forall (fun ev => task_event ev = true) evs) /\
  stepped w t w' t'.
Proof.
  destruct t as [name p|name jd entry|r]; simpl; [| |discriminate]; intros H _.
  - unfold plain_call in H. simpl in H.
    match type of H with context [env ?t ?c] => destruct (env t c) as [e1|] eqn:E1 end.
    { inversion H; subst; clear H. simpl. repeat split.
      - eexists; split; [by rewrite <- app_assoc|]. repeat constructor.
      - by eapply stepped_failed. }
    destruct (Func p (relations w)) as [fd [e2|]] eqn:Hf.
    { inversion H; subst; clear H. simpl. repeat split.
      - eexists; split; [by rewrite <- !app_assoc|]. repeat constructor.
      - by eapply stepped_failed. }
    match type of H with context [env ?t ?c] => destruct (env t c) as [e3|] eqn:E3 end.
    { inversion H; subst; clear H. simpl. repeat split.
      - eexists; split; [by rewrite <- !app_assoc|]. repeat constructor.
      - by eapply stepped_failed. }
    destruct (Import_header fd) as [e4|jd] eqn:Hh.
    { inversion H; subst; clear H. simpl. repeat split.
      - eexists; split; [by rewrite <- !app_assoc|]. repeat constructor.
      - by eapply stepped_failed. }
    inversion H; subst; clear H. simpl. repeat split.
    + eexists; split; [by rewrite <- !app_assoc|]. repeat constructor.
    + apply Import_header_inr in Hh as [hdr ->].
      eapply stepped_started; [done..| |done]. simpl. by rewrite Hf.
  - destruct jd as [|fr jd]; simpl in H.
    { inversion H; subst; clear H. simpl. repeat split.
      - eexists; split; [done|]. repeat constructor.
      - by eapply stepped_done. }
    destruct (decode_value fr entry) as [entry' err] eqn:Hd.
    destruct (loop_body entry' err (table w)) as [store' fl] eqn:Hb.
    destruct fl as [| |e].
    + inversion H; subst; clear H. simpl. repeat split.
      { exists []. split; [by rewrite app_nil_r | constructor]. }
      apply loop_body_Continue in Hb as (-> & m & k & v & Ht & Hk & Hne & Hv & Hfree & ->).
      destruct fr as [o|msg]; [|discriminate]. simpl in Hd.
      eapply stepped_wrote; try done; rewrite Hd; done.
    + exfalso. unfold loop_body in Hb. destruct fr as [o|msg]; simpl in Hd.
      * inversion Hd; subst. simpl in Hb.
        repeat (case_match; try discriminate).
      * inversion Hd; subst. simpl in Hb. discriminate.
    + apply loop_body_stop in Hb as ->; [|done].
      inversion H; subst; clear H. simpl. repeat split.
      { exists []. split; [by rewrite app_nil_r | constructor]. }
      by eapply stepped_failed.
Qed.

Lemma group_step_spec tmpDir i w g w' g' :
  group_step env tmpDir i (w, g) = (w', g') ->
  (w', g') = (w, g) \/
  exists t t',
    tasks g !! i = Some t /\ is_finished t = false /\
    task_step env tmpDir t w = (w', t') /\
    tasks g' = <[i:=t']> (tasks g) /\
    errors g' = errors g ++ option_list (failure t').
Proof.
  unfold group_step. destruct (tasks g !! i) as [t|] eqn:Hi; [|intros [= <- <-]; by left].
  destruct (is_finished t) eqn:Hfin; [intros [= <- <-]; by left|].
  destruct (task_step env tmpDir t w) as [w1 t1] eqn:Hs. intros [= <- <-].
  right. exists t, t1. repeat split; try done. simpl.
  destruct t1 as [| |[e|]]; simpl; by rewrite ?app_nil_r.
Qed.

(** What holds between the state of the group at one moment and at a
    later one. *)
Record grows (s s' : World * Group) : Prop := {
  grows_relations : relations s'.1 = relations s.1;
  grows_dirs : dirs s'.1 = dirs s.1;
  grows_trace : exists evs, trace s'.1 = trace s.1 ++ evs /\
                            Forall (fun ev => task_event ev = true) evs;
  grows_table : forall m : gmap string string, table s.1 = Some m ->
                exists m' : gmap string string, table s'.1 = Some m' /\ m ⊆ m';
  grows_length : length (tasks s'.2) = length (tasks s.2);
  grows_errors : exists es, errors s'.2 = errors s.2 ++ es;
  grows_failures : errors s.2 ≡ₚ failures (tasks s.2) ->
                   errors s'.2 ≡ₚ failures (tasks s'.2)
}.

Lemma grows_refl s : grows s s.
Proof.
  split; try done.
  - exists []. by rewrite app_nil_r.
  - intros m Hm. by exists m.
  - exists []. by rewrite app_nil_r.
Qed.

Lemma grows_trans s1 s2 s3 : grows s1 s2 -> grows s2 s3 -> grows s1 s3.
Proof.
  intros [R1 D1 (ev1 & T1 & F1) M1 L1 (es1 & E1) P1]
         [R2 D2 (ev2 & T2 & F2) M2 L2 (es2 & E2) P2].
  split; try congruence.
  - exists (ev1 ++ ev2). split; [by rewrite T2, T1, app_assoc|]. by apply Forall_app.
  - intros m Hm. destruct (M1 m Hm) as (m1 & Hm1 & S1).
    destruct (M2 m1 Hm1) as (m2 & Hm2 & S2). exists m2. split; [done|]. by etrans.
  - exists (es1 ++ es2). by rewrite E2, E1, app_assoc.
  - auto.
Qed.

Lemma omap_cons_list {A B} (f : A -> option B) x l :
  omap f (x :: l) = option_list (f x) ++ omap f l.
Proof.
  change (omap f (x :: l))
    with (match f x with Some y => y :: omap f l | None => omap f l end).
  by destruct (f x).
Qed.

Lemma failures_insert ts i t t' :
  ts !! i = Some t -> failure t = None ->
  failures (<[i:=t']> ts) ≡ₚ failures ts ++ option_list (failure t').
Proof.
  intros Hi Hf. assert (Hlt : i < length ts) by by eapply lookup_lt_Some.
  pose proof (take_drop_middle ts i t Hi) as Hd.
  assert (Hts : failures ts
                = failures (take i ts) ++ failures (drop (S i) ts)).
  { rewrite <- Hd at 1. unfold failures.
    by rewrite omap_app, omap_cons_list, Hf. }
  rewrite insert_take_drop, Hts by done. unfold failures.
  rewrite omap_app, omap_cons_list, <- app_assoc.
  apply Permutation_app_head, Permutation_app_comm.
Qed.

Lemma not_finished_failure t : is_finished t = false -> failure t = None.
Proof. by destruct t. Qed.

Lemma group_step_grows tmpDir i s : grows s (group_step env tmpDir i s).
Proof.
  destruct s as [w g]. destruct (group_step env tmpDir i (w, g)) as [w' g'] eqn:Hs.
  apply group_step_spec in Hs as [[= -> ->]|(t & t' & Hi & Hfin & Hstep & Ht & He)];
    [apply grows_refl|].
  apply task_step_spec in Hstep as (HR & HD & HT & Hst); [|done].
  split; simpl; try done.
  - intros m Hm. destruct Hst as [e Htab|n e Htab|n p h jd Htab|n o jd e m0 k v _ _ _ _ Hm0 Hfree Htab].
    + exists m. by rewrite Htab.
    + exists m. by rewrite Htab.
    + exists m. by rewrite Htab.
    + rewrite Hm in Hm0. inversion Hm0; subst. eexists. split; [done|].
      by apply insert_subseteq.
  - by rewrite Ht, length_insert.
  - eauto.
  - intros HP. rewrite He, Ht, HP. symmetry.
    apply failures_insert with t; [done|]. by apply not_finished_failure.
Qed.

Lemma run_schedule_grows tmpDir sched s : grows s (run_schedule env tmpDir sched s).
Proof.
  revert s. induction sched as [|i sched IH]; intros s; simpl.
  - apply grows_refl.
  - eapply grows_trans; [apply group_step_grows | apply IH].
Qed.

Lemma run_schedule_app tmpDir l1 l2 s :
  run_schedule env tmpDir (l1 ++ l2) s
  = run_schedule env tmpDir l2 (run_schedule env tmpDir l1 s).
Proof. unfold run_schedule. apply fold_left_app. Qed.

(** *** A task on its own runs [kv.Import] *)

Fixpoint steps (tmpDir : string) (n : nat) (s : World * task) : World * task :=
  match n with
  | O => s
  | S n' => steps tmpDir n' (let '(w, t) := s in task_step env tmpDir t w)
  end.

Lemma steps_finished tmpDir n w r :
  steps tmpDir n (w, Finished r) = (w, Finished r).
Proof. induction n as [|n IH]; [done|]. simpl. apply IH. Qed.

(** Left alone, a task that has entered the loop ends after one step per
    frame and one more, with the store and the error of [Import_loop]. *)
Lemma lone_task_Import tmpDir name jd : forall entry w,
  exists w',
    steps tmpDir (1 + length jd) (w, Importing name jd entry)
    = (w', Finished (failed_import name <$> (Import_loop jd entry (table w)).2)) /\
    table w' = (Import_loop jd entry (table w)).1.
Proof.
  induction jd as [|fr jd IH]; intros entry w.
  - eexists. split; [reflexivity | reflexivity].
  - change (1 + length (fr :: jd)) with (S (1 + length jd)).
    cbn [steps task_step Decode Import_loop].
    destruct (decode_value fr entry) as [entry1 err].
    destruct (loop_body entry1 err (table w)) as [store1 [| |e]] eqn:Hb.
    + destruct (IH entry1 (with_table w store1)) as (w' & Hs & Ht).
      exists w'. split; [exact Hs | exact Ht].
    + eexists. rewrite steps_finished. split; reflexivity.
    + eexists. rewrite steps_finished. split; reflexivity.
Qed.

(** *** Every task ends *)

Lemma budget_relations w w' t : relations w' = relations w -> budget w' t = budget w t.
Proof. intros H. destruct t; simpl; by rewrite ?H. Qed.

Lemma task_step_budget tmpDir t w w' t' :
  task_step env tmpDir t w = (w', t') -> is_finished t = false ->
  (budget w' t' < budget w t)%nat.
Proof.
  intros Hs Hf. apply task_step_spec in Hs as (_ & _ & _ & Hst); [|done].
  destruct Hst as [e _ ->|n e _ -> ->|n p h jd _ -> Hfd ->|n o jd e m k v -> -> _ _ _ _ _];
    simpl; try lia.
  - destruct t; simpl in *; try discriminate; lia.
  - rewrite Hfd. simpl. lia.
Qed.

Lemma run_schedule_cons tmpDir i sched s :
  run_schedule env tmpDir (i :: sched) s
  = run_schedule env tmpDir sched (group_step env tmpDir i s).
Proof. reflexivity. Qed.

Lemma repeat_step_finishes tmpDir i n : forall w g t w' g',
  tasks g !! i = Some t -> (budget w t <= n)%nat ->
  run_schedule env tmpDir (repeat i n) (w, g) = (w', g') ->
  (exists r, tasks g' !! i = Some (Finished r)) /\
  (forall j, j <> i -> tasks g' !! j = tasks g !! j).
Proof.
  induction n as [|n IH]; intros w g t w' g' Hi Hb Hrun.
  - inversion Hrun; subst. split; [|done].
    destruct t; simpl in Hb; try lia. eauto.
  - change (repeat i (S n)) with (i :: repeat i n) in Hrun.
    rewrite run_schedule_cons in Hrun.
    destruct (is_finished t) eqn:Hfin.
    + unfold group_step in Hrun. rewrite Hi, Hfin in Hrun.
      eapply IH; [done| |done]. destruct t; simpl in *; try discriminate; lia.
    + destruct (group_step env tmpDir i (w, g)) as [w1 g1] eqn:Hs.
      unfold group_step in Hs. rewrite Hi, Hfin in Hs.
      destruct (task_step env tmpDir t w) as [w2 t'] eqn:Hstep.
      inversion Hs; subst w2 g1; clear Hs.
      assert (Hlt : i < length (tasks g)) by by eapply lookup_lt_Some.
      pose proof (task_step_budget _ _ _ _ _ Hstep Hfin) as Hdec.
      pose proof (fun H1 H2 => IH _ _ t' _ _ H1 H2 Hrun) as IH'. simpl in IH'.
      destruct IH' as [Hfinal Hothers]; [by apply list_lookup_insert_eq | lia |].
      split; [done|]. intros j Hj. rewrite (Hothers j Hj). simpl.
      by apply list_lookup_insert_ne.
Qed.

Lemma completion_run tmpDir w0 (l : list (nat * task)) : forall w g w' g',
  NoDup l.*1 -> relations w = relations w0 ->
  (forall i t, (i, t) ∈ l -> tasks g !! i = Some t) ->
  run_schedule env tmpDir
    (flat_map (fun '(i, t) => repeat i (budget w0 t)) l) (w, g) = (w', g') ->
  (forall i, i ∈ l.*1 -> exists r, tasks g' !! i = Some (Finished r)) /\
  (forall j, j ∉ l.*1 -> tasks g' !! j = tasks g !! j).
Proof.
  induction l as [|[i t] l IH]; intros w g w' g' Hnd Hrel Hl Hrun.
  - inversion Hrun; subst. split; [|done]. intros i Hi. by apply elem_of_nil in Hi.
  - simpl in Hrun. rewrite run_schedule_app in Hrun.
    destruct (run_schedule env tmpDir (repeat i (budget w0 t)) (w, g))
      as [w1 g1] eqn:H1.
    pose proof (run_schedule_grows tmpDir (repeat i (budget w0 t)) (w, g)) as Hg.
    rewrite H1 in Hg. destruct Hg as [HR _ _ _ _ _ _]. simpl in HR.
    rewrite fmap_cons in Hnd. apply NoDup_cons in Hnd as [Hi Hnd]. simpl in Hi.
    destruct (repeat_step_finishes tmpDir i (budget w0 t) w g t w1 g1)
      as [Hfin Hoth];
      [apply Hl; left | by rewrite (budget_relations w0 w) | done |].
    destruct (IH w1 g1 w' g') as [IH1 IH2]; [done | congruence | | done |].
    { intros j tj Hj. rewrite Hoth; [apply Hl; by right|].
      intros ->. apply Hi. apply list_elem_of_fmap. by exists (i, tj). }
    split.
    + intros j Hj. rewrite fmap_cons in Hj.
      apply elem_of_cons in Hj as [->|Hj]; [|by apply IH1].
      by rewrite IH2.
    + intros j Hj. rewrite fmap_cons in Hj. apply not_elem_of_cons in Hj as [Hne Hj].
      rewrite IH2 by done. by apply Hoth.
Qed.

(** [g.Wait] answers when every task is done, whatever the schedule. *)
Lemma Wait_finished tmpDir g w w' g' :
  Wait env schedule tmpDir g w = (w', g') ->
  Forall (fun t => is_finished t = true) (tasks g').
Proof.
  unfold Wait. destruct (run_schedule env tmpDir schedule (w, g)) as [w1 g1] eqn:H1.
  intros H2. unfold completion in H2.
  pose proof (run_schedule_grows tmpDir
                (flat_map (fun '(i, t) => repeat i (budget w1 t))
                   (imap pair (tasks g1))) (w1, g1)) as Hg.
  rewrite H2 in Hg. destruct Hg as [_ _ _ _ HL _ _]. simpl in HL.
  assert (Hfst : (imap pair (tasks g1)).*1 = seq 0 (length (tasks g1))).
  { rewrite fmap_imap.
    transitivity (id <$> seq 0 (length (tasks g1))); [|apply list_fmap_id].
    rewrite <- (imap_seq_0 (tasks g1) id). apply imap_ext. by intros. }
  destruct (completion_run tmpDir w1 (imap pair (tasks g1)) w1 g1 w' g')
    as [Hfin _]; try done.
  { rewrite Hfst. apply NoDup_seq. }
  { intros i t Hit. apply list_elem_of_lookup in Hit as [j Hj].
    rewrite list_lookup_imap in Hj.
    destruct (tasks g1 !! j) as [tj|] eqn:Hjt; simpl in Hj; [|done].
    by inversion Hj; subst. }
  apply Forall_lookup. intros j t Hj.
  destruct (Hfin j) as [r Hr].
  { rewrite Hfst. apply elem_of_seq. apply lookup_lt_Some in Hj. lia. }
  rewrite Hj in Hr. by inversion Hr.
Qed.

Lemma Wait_grows tmpDir g w : grows (w, g) (Wait env schedule tmpDir g w).
Proof.
  unfold Wait. pose proof (run_schedule_grows tmpDir schedule (w, g)) as H1.
  destruct (run_schedule env tmpDir schedule (w, g)) as [w1 g1].
  eapply grows_trans; [exact H1 | apply run_schedule_grows].
Qed.

Lemma finished_failure t : is_finished t = true -> failure t = None -> t = Finished None.
Proof. destruct t as [| |[e|]]; simpl; congruence. Qed.

(** *** No key is written twice *)

Definition all_pending (rels : gset string) (ts : list task) : list string :=
  concat (pending_keys rels <$> ts).

(** The keys still to be written are distinct and free in the store. *)
Definition fresh_keys (rels : gset string) (m : gmap string string)
    (ts : list task) : Prop :=
  NoDup (all_pending rels ts) /\
  forall k, k ∈ all_pending rels ts -> m !! k = None.

Lemma all_pending_split rels ts i t :
  ts !! i = Some t ->
  exists A B,
    all_pending rels ts = A ++ pending_keys rels t ++ B /\
    forall t', all_pending rels (<[i:=t']> ts) = A ++ pending_keys rels t' ++ B.
Proof.
  intros Hi. assert (Hlt : i < length ts) by by eapply lookup_lt_Some.
  exists (all_pending rels (take i ts)), (all_pending rels (drop (S i) ts)).
  unfold all_pending. split.
  - rewrite <- (take_drop_middle ts i t Hi) at 1.
    by rewrite fmap_app, concat_app.
  - intros t'. rewrite insert_take_drop by done.
    by rewrite fmap_app, concat_app.
Qed.

Lemma all_pending_finished rels ts :
  Forall (fun t => is_finished t = true) ts -> all_pending rels ts = [].
Proof.
  induction 1 as [|t ts Ht _ IH]; [done|].
  unfold all_pending in *. rewrite fmap_cons. simpl. rewrite IH.
  by destruct t.
Qed.

Lemma group_step_keys tmpDir i w g w' g' (m : gmap string string) :
  group_step env tmpDir i (w, g) = (w', g') ->
  errors g' = [] -> table w = Some m ->
  exists m' : gmap string string,
    table w' = Some m' /\
    (fresh_keys (relations w) m' (tasks g') -> fresh_keys (relations w) m (tasks g)).
Proof.
  intros Hs He Hm.
  apply group_step_spec in Hs as [[= -> ->]|(t & t' & Hi & Hfin & Hstep & Ht & Herr)];
    [by exists m|].
  apply task_step_spec in Hstep as (HR & _ & _ & Hst); [|done].
  destruct (all_pending_split (relations w) (tasks g) i t Hi) as (A & B & HA & HB).
  unfold fresh_keys. rewrite Ht, HA, (HB t').
  destruct Hst as [e Htab ->|n e Htab -> ->|n p h jd Htab -> Hfd ->
                  |n o jd e m0 k v -> -> Hk Hne Hm0 Hfree Htab].
  - rewrite He in Herr. simpl in Herr. by destruct (errors g).
  - exists m. by rewrite Htab.
  - exists m. rewrite Htab. split; [done|]. simpl. by rewrite Hfd.
  - rewrite Hm in Hm0. inversion Hm0; subst m0. eexists. split; [done|].
    change (pending_keys (relations w) (Importing n (Obj o :: jd) e))
      with (slice_data (Key (unmarshal o e).1) :: keys_of jd (unmarshal o e).1).
    change (pending_keys (relations w) (Importing n jd (unmarshal o e).1))
      with (keys_of jd (unmarshal o e).1).
    rewrite Hk. cbn [slice_data default].
    set (K := keys_of jd (unmarshal o e).1).
    assert (HP : A ++ (k :: K) ++ B ≡ₚ k :: (A ++ K ++ B)).
    { change ((k :: K) ++ B) with (k :: (K ++ B)). symmetry. apply Permutation_middle. }
    intros [Hnd Hfr].
    assert (Hk' : k ∉ A ++ K ++ B).
    { intros Hin. apply Hfr in Hin. by rewrite lookup_insert_eq in Hin. }
    split.
    + rewrite HP. by apply NoDup_cons.
    + intros k' Hin. rewrite HP in Hin.
      apply elem_of_cons in Hin as [->|Hin]; [done|].
      specialize (Hfr k' Hin). rewrite lookup_insert_ne in Hfr; [done|].
      intros ->. by apply Hk'.
Qed.

Lemma run_schedule_keys tmpDir sched : forall w g w' g' (m : gmap string string),
  run_schedule env tmpDir sched (w, g) = (w', g') ->
  errors g' = [] -> table w = Some m ->
  exists m' : gmap string string,
    table w' = Some m' /\
    (fresh_keys (relations w) m' (tasks g') -> fresh_keys (relations w) m (tasks g)).
Proof.
  induction sched as [|i sched IH]; intros w g w' g' m Hrun He Hm.
  - inversion Hrun; subst. by exists m.
  - rewrite run_schedule_cons in Hrun.
    destruct (group_step env tmpDir i (w, g)) as [w1 g1] eqn:Hs.
    pose proof (run_schedule_grows tmpDir sched (w1, g1)) as Hg.
    rewrite Hrun in Hg. destruct Hg as [_ _ _ _ _ (es & Hes) _]. simpl in Hes.
    assert (He1 : errors g1 = []).
    { rewrite He in Hes. symmetry in Hes. by apply app_eq_nil in Hes as [? _]. }
    pose proof (group_step_grows tmpDir i (w, g)) as Hg0.
    rewrite Hs in Hg0. destruct Hg0 as [HR _ _ _ _ _ _]. simpl in HR.
    destruct (group_step_keys _ _ _ _ _ _ m Hs He1 Hm) as (m1 & Hm1 & K1).
    destruct (IH _ _ _ _ m1 Hrun He Hm1) as (m' & Hm' & K2).
    exists m'. split; [done|]. rewrite HR in K2. auto.
Qed.

(** When no task has failed, the keys of all the export files were
    distinct, and none of them was in the store before. *)
Lemma Wait_success_keys tmpDir g w w' g' (m : gmap string string) :
  Wait env schedule tmpDir g w = (w', g') ->
  errors g' = [] -> table w = Some m ->
  fresh_keys (relations w) m (tasks g).
Proof.
  intros HW He Hm. pose proof (Wait_finished _ _ _ _ _ HW) as Hfin.
  unfold Wait in HW.
  destruct (run_schedule env tmpDir schedule (w, g)) as [w1 g1] eqn:H1.
  pose proof (run_schedule_grows tmpDir (completion w1 g1) (w1, g1)) as Hg.
  rewrite HW in Hg. destruct Hg as [_ _ _ _ _ (es & Hes) _]. simpl in Hes.
  assert (He1 : errors g1 = []).
  { rewrite He in Hes. symmetry in Hes. by apply app_eq_nil in Hes as [? _]. }
  pose proof (run_schedule_grows tmpDir schedule (w, g)) as Hg0.
  rewrite H1 in Hg0. destruct Hg0 as [HR _ _ _ _ _ _]. simpl in HR.
  destruct (run_schedule_keys _ _ _ _ _ _ m H1 He1 Hm) as (m1 & Hm1 & K1).
  destruct (run_schedule_keys _ _ _ _ _ _ m1 HW He Hm1) as (m2 & Hm2 & K2).
  apply K1. rewrite <- HR. apply K2.
  unfold fresh_keys. rewrite all_pending_finished by done.
  split; [constructor|]. intros k Hk. by apply elem_of_nil in Hk.
Qed.

(** *** Every block only adds to the trace *)

Definition appends {A} (m : M A) : Prop :=
  forall w w' o, m w = (w', o) -> exists evs, trace w' = trace w ++ evs.

Lemma appends_ret {A} (a : A) : appends (mret a).
Proof. intros w w' o [= <- <-]. exists []. by rewrite app_nil_r. Qed.

Lemma appends_return {A} r : appends (@return_ A r).
Proof. intros w w' o [= <- <-]. exists []. by rewrite app_nil_r. Qed.

Lemma appends_bind {A B} (m : M A) (f : A -> M B) :
  appends m -> (forall a, appends (f a)) -> appends (m ≫= f).
Proof.
  intros Hm Hf w w' o. unfold mbind, M_bind.
  destruct (m w) as [w1 [a|r]] eqn:H1.
  - intros H2. destruct (Hm _ _ _ H1) as [e1 E1].
    destruct (Hf a _ _ _ H2) as [e2 E2].
    exists (e1 ++ e2). by rewrite E2, E1, app_assoc.
  - intros [= <- <-]. eauto.
Qed.

Lemma appends_check err wrap : appends (check err wrap).
Proof. destruct err; [apply appends_return | apply appends_ret]. Qed.

Lemma appends_logging level msg : appends (logging level msg).
Proof. intros w w' o [= <- <-]. by eexists. Qed.

Lemma appends_kv_open dsn : appends (kv_open DriverName env dsn).
Proof. intros w w' o [= <- <-]. simpl. by destruct (env _ _); eexists. Qed.

Lemma appends_store_close : appends (does (store_close env)).
Proof. intros w w' o [= <- <-]. by eexists. Qed.

Lemma appends_store_set k v : appends (store_set env k v).
Proof.
  intros w w' o. unfold store_set. destruct (env _ _).
  - intros [= <- <-]. by eexists.
  - destruct (Set_ (table w) k v) as [t' err]. intros [= <- <-]. by eexists.
Qed.

Lemma appends_pool_exec q : appends (pool_exec DefaultTableName env q).
Proof.
  intros w w' o [= <- <-]. simpl. by destruct (env _ _), q; eexists.
Qed.

Lemma appends_mkdir pattern : appends (os_mkdir_temp env pattern).
Proof.
  intros w w' o. unfold os_mkdir_temp. by destruct (env _ _); intros [= <- <-]; eexists.
Qed.

Lemma appends_remove_all path : appends (os_remove_all env path).
Proof. intros w w' o [= <- <-]. simpl. by destruct (env _ _); eexists. Qed.

Lemma appends_dropTables tables : appends (dropTables DefaultTableName env tables).
Proof.
  unfold dropTables. destruct (length tables <? 1); [apply appends_ret|].
  apply appends_bind; [apply appends_pool_exec|].
  intros [e|]; apply appends_ret.
Qed.

Lemma appends_group_wait tmpDir g : appends (group_wait env schedule tmpDir g).
Proof.
  intros w w' o. unfold group_wait.
  pose proof (Wait_grows tmpDir g w) as Hg.
  destruct (Wait env schedule tmpDir g w) as [w2 g2]. intros [= <- <-].
  destruct Hg as [_ _ (evs & Hevs & _) _ _ _ _]. eauto.
Qed.

Lemma appends_finish dbParams tmpDir tables err :
  appends (finish InitialMigrateVersion DBVersionPath DefaultTableName env
             dbParams tmpDir tables err).
Proof.
  unfold finish.
  apply appends_bind; [apply appends_check | intros _].
  apply appends_bind; [apply appends_store_set | intros e1].
  apply appends_bind; [apply appends_check | intros _].
  apply appends_bind.
  { destruct (DropTables dbParams); [|apply appends_ret].
    apply appends_bind; [apply appends_dropTables | intros e2; apply appends_check]. }
  intros _. apply appends_bind; [apply appends_remove_all | intros e3].
  apply appends_bind; [|intros _; apply appends_ret].
  destruct e3; [apply appends_logging | apply appends_ret].
Qed.

(** *** The run of Migrate *)

Local Abbreviation all_tables := (flat_map (fun '(_, p) => Tables p) kvPkgs).
Local Abbreviation Migrate_ :=
  (Migrate InitialMigrateVersion DBVersionPath DefaultTableName DriverName env
     kvPkgs schedule).
Local Abbreviation reset_ :=
  (reset_if_stale InitialMigrateVersion DBVersionPath DefaultTableName DriverName env).
Local Abbreviation finish_ :=
  (finish InitialMigrateVersion DBVersionPath DefaultTableName env).
Local Abbreviation Wait_ := (Wait env schedule).

(** [Migrate] gets as far as starting the provider tasks: the store is
    opened, the version is checked and the store reset if need be, the
    in-progress marker is written, and the staging directory [tmpDir] is
    made; [w1] is the world at that moment (lines 43-82). *)
Inductive reaches (dbParams : Database) (w w1 : World) (tmpDir : string) : Prop :=
| reaches_intro (opened checked marked staged : World) :
    KVEnabled dbParams = true ->
    kv_open DriverName env (ConnectionString dbParams) w = (opened, Yield None) ->
    reset_ dbParams opened = (checked, Yield tt) ->
    store_set env DBVersionPath "0" checked = (marked, Yield None) ->
    os_mkdir_temp env "kv_migrate_" marked = (staged, Yield (tmpDir, None)) ->
    w1 = record (Log "info" "Starting KV Migration Process") staged ->
    reaches dbParams w w1 tmpDir.

(** The result of a function body. *)
Definition result (r : World * outcome (option error)) : World * option error :=
  match r with
  | (w, Yield err) | (w, Returned err) => (store_close env w, err)
  end.

Lemma Migrate_reaches dbParams w w1 tmpDir :
  reaches dbParams w w1 tmpDir ->
  Migrate_ dbParams w
  = let '(w2, g) := Wait_ tmpDir (Go kvPkgs) w1 in
    result (finish_ dbParams tmpDir all_tables (ErrorOrNil g) w2).
Proof.
  intros [w0 wc wm ws He Ho Hr Hs Hm ->].
  unfold Migrate. rewrite He. cbn [negb].
  unfold mbind, M_bind, defer. rewrite Ho. cbn [check mret M_ret].
  rewrite Hr, Hs. cbn [check mret M_ret id]. rewrite Hm. cbn [check mret M_ret logging].
  unfold group_wait.
  destruct (Wait_ tmpDir (Go kvPkgs) _) as [w2 g].
  unfold result.
  by destruct (finish_ dbParams tmpDir all_tables (ErrorOrNil g) w2) as [w3 [r|r]].
Qed.

(** Lines 68-132: what follows the check of the version. *)
Definition after_reset (dbParams : Database) : M (option error) :=
  err ← store_set env DBVersionPath "0";
  check err id;;
  '(tmpDir, err) ← os_mkdir_temp env "kv_migrate_";
  check err (Errorf "create temp dir: ");;
  logging "info" "Starting KV Migration Process";;
  g ← group_wait env schedule tmpDir (Go kvPkgs);
  finish_ dbParams tmpDir all_tables (ErrorOrNil g).

Lemma Migrate_unfold dbParams w w0 :
  KVEnabled dbParams = true ->
  kv_open DriverName env (ConnectionString dbParams) w = (w0, Yield None) ->
  Migrate_ dbParams w = result ((reset_ dbParams;; after_reset dbParams) w0).
Proof.
  intros He Ho. unfold Migrate. rewrite He. cbn [negb].
  unfold mbind at 1. unfold M_bind at 1. rewrite Ho.
  unfold mbind at 1. unfold M_bind at 1. cbn [check mret M_ret].
  unfold defer, result, after_reset.
  match goal with |- context [(?m ≫= ?f) w0] => by destruct ((m ≫= f) w0) as [w1 [r|r]] end.
Qed.

Lemma after_reset_trace dbParams wc w' o :
  after_reset dbParams wc = (w', o) ->
  exists r0 rest,
    trace w' = trace wc ++ Call (store_Set DBVersionPath "0") r0 :: rest.
Proof.
  unfold after_reset. unfold mbind at 1. unfold M_bind at 1.
  destruct (store_set env DBVersionPath "0" wc) as [w1 o1] eqn:Hs.
  assert (Ht : exists r0, trace w1 = trace wc ++ [Call (store_Set DBVersionPath "0") r0]
                          /\ o1 = Yield r0).
  { unfold store_set in Hs. destruct (env _ _).
    - inversion Hs; subst. eauto.
    - destruct (Set_ (table wc) DBVersionPath "0"). inversion Hs; subst. eauto. }
  destruct Ht as (r0 & Ht & ->). intros Hrest.
  assert (Ha : exists evs, trace w' = trace w1 ++ evs).
  { revert Hrest. generalize w1 w' o. change (appends (
      check r0 id;;
      '(tmpDir, err) ← os_mkdir_temp env "kv_migrate_";
      check err (Errorf "create temp dir: ");;
      logging "info" "Starting KV Migration Process";;
      g ← group_wait env schedule tmpDir (Go kvPkgs);
      finish_ dbParams tmpDir all_tables (ErrorOrNil g))).
    apply appends_bind; [apply appends_check | intros _].
    apply appends_bind; [apply appends_mkdir | intros [tmpDir err]].
    apply appends_bind; [apply appends_check | intros _].
    apply appends_bind; [apply appends_logging | intros _].
    apply appends_bind; [apply appends_group_wait | intros g].
    apply appends_finish. }
  destruct Ha as [evs Ha]. exists r0, evs. by rewrite Ha, Ht, <- app_assoc.
Qed.

(** What the check of lines 49-66 does, case by case. *)
Lemma reset_spec dbParams w0 :
  reset_ dbParams w0 =
  match validateVersion InitialMigrateVersion DBVersionPath (table w0) with
  | (_, Some e) => (w0, Returned (Some (Errorf "validating version: " e)))
  | (false, None) => (w0, Yield tt)
  | (true, None) =>
      let wa := record (Log "warning" "Removing KV table") w0 in
      let q := pool_Exec (DropTableIfExists [Sanitize DefaultTableName]) in
      match env (trace wa) q with
      | Some e =>
          (record (Call q (Some e)) wa,
           Returned (Some (Errorf
             ("failed during drop tables: "
              +:+ show_strings [Sanitize DefaultTableName]
              +:+ ". Please perform manual cleanup of old database tables: ") e)))
      | None =>
          let wb := record (Call q None)
                      (drop_effect DefaultTableName [Sanitize DefaultTableName] wa) in
          let o := kv_Open DriverName (ConnectionString dbParams) in
          match env (trace wb) o with
          | Some e =>
              (record (Call o (Some e)) wb,
               Returned (Some (Errorf "opening kv store: " e)))
          | None =>
              (store_close env
                 (record (Call o None) (with_table wb (Some (default ∅ (table wb))))),
               Yield tt)
          end
      end
  end.
Proof.
  unfold reset_if_stale, dropTables, pool_exec, kv_open, logging, reads, does,
    check, return_, mbind, M_bind, mret, M_ret.
  destruct (validateVersion _ _ (table w0)) as [[|] [e|]]; try reflexivity.
  cbn [length Nat.ltb Nat.leb map trace record].
  destruct (env (trace w0 ++ [Log "warning" "Removing KV table"]) _) as [e|];
    [reflexivity|].
  cbn [trace record drop_effect id].
  by destruct (env _ (kv_Open _ _)).
Qed.

Local Abbreviation validateVersion_ :=
  (validateVersion InitialMigrateVersion DBVersionPath).

Lemma validateVersion_true (m : gmap string string) :
  (validateVersion_ (Some m)).1 = true <->
  exists raw version,
    m !! DBVersionPath = Some raw /\ Atoi raw = Some version /\
    (version < InitialMigrateVersion)%Z.
Proof.
  unfold validateVersion, GetDBVersion, Get.
  destruct (m !! DBVersionPath) as [raw|]; simpl.
  - destruct (Atoi raw) as [version|] eqn:Ha; simpl.
    + rewrite Z.ltb_lt. split; [eauto|].
      intros (raw' & v' & H1 & H2 & H). by simplify_eq.
    + split; [done|]. intros (raw' & v' & H1 & H2 & _). by simplify_eq.
  - split; [done|]. intros (raw' & v' & H & _). done.
Qed.

Lemma validateVersion_proceeds (m : gmap string string) :
  m !! DBVersionPath = None \/
  (exists raw version,
     m !! DBVersionPath = Some raw /\ Atoi raw = Some version /\
     (InitialMigrateVersion <= version)%Z) ->
  validateVersion_ (Some m) = (false, None).
Proof.
  unfold validateVersion, GetDBVersion, Get.
  intros [->|(raw & version & -> & Hv & Hle)]; simpl; [done|].
  rewrite Hv. f_equal. apply Z.ltb_ge. done.
Qed.

(** C2.  With the store opened, the check asks for a reset exactly when
    the marker is there and reads as a number below the completion
    constant.  When the marker is absent, or at or above the constant, the
    first thing [Migrate] does after opening the store is to write the
    in-progress marker: nothing is dropped.  When a reset is asked for,
    [Migrate] sends the statement that drops the table of the KV store; if
    that fails, or if opening the store again fails, it returns the error
    and the marker is not written; otherwise the store is open again on an
    empty table, and only then is the in-progress marker written. *)
Theorem Migrate_resets_only_when_stale
    (dbParams : Database) (w w' : World) (r : option error) :
  KVEnabled dbParams = true ->
  let open := kv_Open DriverName (ConnectionString dbParams) in
  env (trace w) open = None ->
  Migrate_ dbParams w = (w', r) ->
  let m : gmap string string := default ∅ (table w) in
  let w0 := record (Call open None) (with_table w (Some m)) in
  let t0 := trace w ++ [Call open None] in
  let reset := (validateVersion_ (Some m)).1 in
  let drop := pool_Exec (DropTableIfExists [Sanitize DefaultTableName]) in
  let mark := store_Set DBVersionPath "0" in
  (reset = true <->
   exists raw version,
     m !! DBVersionPath = Some raw /\ Atoi raw = Some version /\
     (version < InitialMigrateVersion)%Z) /\
  (m !! DBVersionPath = None \/
   (exists raw version,
      m !! DBVersionPath = Some raw /\ Atoi raw = Some version /\
      (InitialMigrateVersion <= version)%Z) ->
   reset = false /\
   exists r0 rest, trace w' = t0 ++ Call mark r0 :: rest) /\
  (reset = true ->
   let t1 := t0 ++ [Log "warning" "Removing KV table"] in
   match env t1 drop with
   | Some e =>
       (exists e', r = Some e') /\
       exists rc, trace w' = t1 ++ [Call drop (Some e); Call store_Close rc]
   | None =>
       let t2 := t1 ++ [Call drop None] in
       match env t2 open with
       | Some e =>
           r = Some (Errorf "opening kv store: " e) /\
           exists rc, trace w' = t2 ++ [Call open (Some e); Call store_Close rc]
       | None =>
           (exists checked,
              reset_ dbParams w0 = (checked, Yield tt) /\
              table checked = Some ∅) /\
           exists rc r0 rest,
             trace w' = t2 ++ [Call open None; Call store_Close rc; Call mark r0]
                        ++ rest
       end
   end).
Proof.
  intros He open Ho HM m w0 t0 reset drop mark.
  assert (Hopen : kv_open DriverName env (ConnectionString dbParams) w
                  = (w0, Yield None)).
  { unfold kv_open. fold open. by rewrite Ho. }
  rewrite (Migrate_unfold _ _ _ He Hopen) in HM.
  unfold mbind, M_bind in HM. rewrite reset_spec in HM.
  change (table w0) with (Some m) in HM.
  split; [apply validateVersion_true|]. split.
  - intros Habs. apply validateVersion_proceeds in Habs as Hv.
    unfold reset. rewrite Hv. split; [done|]. rewrite Hv in HM.
    destruct (after_reset dbParams w0) as [w3 o] eqn:Ha.
    apply after_reset_trace in Ha as (r0 & rest & Ht).
    exists r0, (rest ++ [Call store_Close (env (trace w3) store_Close)]).
    unfold result in HM.
    assert (w' = store_close env w3) as -> by (destruct o; by inversion HM).
    simpl. rewrite Ht. change (trace w0) with t0. by rewrite <- app_assoc.
  - intros Hr. unfold reset in Hr.
    destruct (validateVersion_ (Some m)) as [b [e|]] eqn:Hv; simpl in Hr; subst b.
    { exfalso. unfold validateVersion in Hv.
      destruct (GetDBVersion DBVersionPath (Some m)) as [v [e'|]];
        [destruct (errors_Is e' ErrNotFound)|]; congruence. }
    cbn zeta in HM. change (trace (record (Log "warning" "Removing KV table") w0))
      with (t0 ++ [Log "warning" "Removing KV table"]) in HM.
    fold drop in HM. cbn zeta.
    destruct (env (t0 ++ [Log "warning" "Removing KV table"]) drop) as [e|] eqn:Hd.
    { unfold result in HM. inversion HM; subst. split; [eauto|].
      eexists. simpl. subst t0. by rewrite <- !app_assoc. }
    change (trace (record (Call drop None)
                     (drop_effect DefaultTableName [Sanitize DefaultTableName]
                        (record (Log "warning" "Removing KV table") w0))))
      with ((t0 ++ [Log "warning" "Removing KV table"]) ++ [Call drop None]) in HM.
    fold open in HM.
    destruct (env ((t0 ++ [Log "warning" "Removing KV table"]) ++ [Call drop None]) open)
      as [e|] eqn:Ho2.
    { unfold result in HM. inversion HM; subst. split; [done|].
      eexists. simpl. subst t0. by rewrite <- !app_assoc. }
    split.
    + eexists. split.
      { rewrite reset_spec. change (table w0) with (Some m). rewrite Hv.
        cbn zeta. change (trace (record (Log "warning" "Removing KV table") w0))
          with (t0 ++ [Log "warning" "Removing KV table"]).
        fold drop. rewrite Hd.
        change (trace (record (Call drop None)
                         (drop_effect DefaultTableName [Sanitize DefaultTableName]
                            (record (Log "warning" "Removing KV table") w0))))
          with ((t0 ++ [Log "warning" "Removing KV table"]) ++ [Call drop None]).
        fold open. rewrite Ho2. reflexivity. }
      simpl. rewrite bool_decide_true; [done|]. apply list_elem_of_singleton. done.
    + match type of HM with result (after_reset dbParams ?wc) = _ =>
        destruct (after_reset dbParams wc) as [w3 o] eqn:Ha
      end.
      apply after_reset_trace in Ha as (r0 & rest & Ht).
      unfold result in HM.
      assert (w' = store_close env w3) as -> by (destruct o; by inversion HM).
      eexists _, r0, (rest ++ [Call store_Close (env (trace w3) store_Close)]).
      simpl. rewrite Ht. simpl. subst t0. rewrite <- !app_assoc. simpl. reflexivity.
Qed.

(** *** From the start to the tasks *)

Lemma sets_of_app t1 t2 : sets_of (t1 ++ t2) = sets_of t1 ++ sets_of t2.
Proof. apply omap_app. Qed.
Lemma execs_of_app t1 t2 : execs_of (t1 ++ t2) = execs_of t1 ++ execs_of t2.
Proof. apply omap_app. Qed.
Lemma removals_of_app t1 t2 : removals_of (t1 ++ t2) = removals_of t1 ++ removals_of t2.
Proof. apply omap_app. Qed.

Local Abbreviation reset_statement :=
  (DropTableIfExists [Sanitize DefaultTableName]).

(** The check of the version writes nothing to the store and removes no
    directory; the one statement it may send drops the table of the KV
    store, and a relational source that has no table of that name stays as
    it is. *)
Lemma reset_facts dbParams w0 wc o :
  reset_ dbParams w0 = (wc, o) ->
  dirs wc = dirs w0 /\
  (exists evs,
     trace wc = trace w0 ++ evs /\ sets_of evs = [] /\ removals_of evs = [] /\
     forall q r, (q, r) ∈ execs_of evs -> q = reset_statement) /\
  ((forall t, t ∈ relations w0 -> Sanitize t <> Sanitize DefaultTableName) ->
   relations wc = relations w0).
Proof.
  rewrite reset_spec.
  destruct (validateVersion_ (table w0)) as [[|] [e|]].
  1,3,4: intros [= <- <-]; split; [done|split; [|done]]; exists [];
    rewrite app_nil_r; (split; [done|split; [done|split; [done|]]]);
    intros q r Hin; by apply elem_of_nil in Hin.
  cbn zeta.
  destruct (env (trace (record (Log "warning" "Removing KV table") w0)) _) as [e|].
  { intros [= <- <-]. split; [done|]. split; [|done].
    eexists. split; [simpl; by rewrite <- app_assoc|]. repeat split; try done.
    intros q r Hin. simpl in Hin. apply list_elem_of_singleton in Hin. by inversion Hin. }
  assert (Hrel : (forall t, t ∈ relations w0 -> Sanitize t <> Sanitize DefaultTableName) ->
                 filter (fun t => Sanitize t ∉ [Sanitize DefaultTableName]) (relations w0)
                 = relations w0).
  { intros Hne. apply set_eq. intros t. rewrite elem_of_filter.
    split; [by intros [_ ?]|]. intros Ht. split; [|done].
    intros Hin. apply list_elem_of_singleton in Hin. by apply (Hne t). }
  destruct (env _ (kv_Open _ _)) as [e|].
  { intros [= <- <-]. split; [done|]. split; [|done].
    eexists. split; [simpl; by rewrite <- !app_assoc|]. repeat split; try done.
    intros q r Hin. simpl in Hin. apply list_elem_of_singleton in Hin. by inversion Hin. }
  intros [= <- <-]. split; [done|]. split; [|done].
  eexists. split; [simpl; by rewrite <- !app_assoc|]. repeat split; try done.
  intros q r Hin. simpl in Hin. apply list_elem_of_singleton in Hin. by inversion Hin.
Qed.

(** When the tasks start, the in-progress marker is in the store, the
    staging directory exists, and the only write [Migrate] has made to the
    store is that of the marker. *)
Lemma reaches_facts dbParams w w1 tmpDir :
  reaches dbParams w w1 tmpDir ->
  (exists evs,
     trace w1 = trace w ++ evs /\
     sets_of evs = [(DBVersionPath, "0", None)] /\ removals_of evs = [] /\
     forall q r, (q, r) ∈ execs_of evs -> q = reset_statement) /\
  (exists m : gmap string string, table w1 = Some m /\ m !! DBVersionPath = Some "0") /\
  tmpDir ∈ dirs w1 /\
  ((forall t, t ∈ relations w -> Sanitize t <> Sanitize DefaultTableName) ->
   relations w1 = relations w).
Proof.
  intros [w0 wc wm ws He Ho Hr Hs Hm ->].
  unfold kv_open in Ho.
  destruct (env (trace w) (kv_Open DriverName (ConnectionString dbParams))) eqn:Eo;
    [by inversion Ho|]. inversion Ho as [H0]. clear Ho.
  apply reset_facts in Hr as (Hd & (ev1 & Ht1 & Hs1 & Hr1 & Hq1) & Hrel).
  unfold store_set in Hs.
  destruct (env (trace wc) (store_Set DBVersionPath "0")) eqn:Es; [by inversion Hs|].
  destruct (table wc) as [mc|] eqn:Htc; simpl in Hs; [|by inversion Hs].
  inversion Hs as [H1]; clear Hs.
  unfold os_mkdir_temp in Hm.
  destruct (env (trace wm) _) eqn:Em; [by inversion Hm|].
  inversion Hm as [[H2 H3]]; clear Hm.
  subst ws wm. simpl. repeat split.
  - eexists. split.
    { rewrite Ht1, <- H0. simpl. by rewrite <- !app_assoc. }
    rewrite !sets_of_app, !removals_of_app, Hs1, Hr1. repeat split; try done.
    intros q r. rewrite !execs_of_app. simpl. rewrite ?app_nil_r.
    apply Hq1.
  - eexists. split; [done|]. apply lookup_insert_eq.
  - apply elem_of_union_l, elem_of_singleton. done.
  - intros Hne. rewrite Hrel; [by rewrite <- H0|]. by rewrite <- H0.
Qed.

Lemma failures_Go pkgs : failures (tasks (Go pkgs)) = [].
Proof.
  unfold Go. simpl. induction pkgs as [|[n p] l IH]; [done|].
  exact IH.
Qed.

(** The errors [g.Wait] hands over are those of the tasks that failed. *)
Lemma Wait_errors tmpDir w w' g :
  Wait_ tmpDir (Go kvPkgs) w = (w', g) -> errors g ≡ₚ failures (tasks g).
Proof.
  intros HW. pose proof (Wait_grows tmpDir (Go kvPkgs) w) as Hg.
  rewrite HW in Hg. destruct Hg as [_ _ _ _ _ _ HP]. apply HP.
  cbn [fst snd]. by rewrite failures_Go.
Qed.

(** When [g.Wait] answers, the store still holds the in-progress marker,
    the staging directory is still there, and the tasks have neither
    written a marker, nor sent a statement, nor removed a directory. *)
Lemma Wait_facts dbParams w w1 tmpDir w2 g :
  reaches dbParams w w1 tmpDir ->
  Wait_ tmpDir (Go kvPkgs) w1 = (w2, g) ->
  (exists evs,
     trace w2 = trace w ++ evs /\
     sets_of evs = [(DBVersionPath, "0", None)] /\ removals_of evs = [] /\
     forall q r, (q, r) ∈ execs_of evs -> q = reset_statement) /\
  (exists m : gmap string string, table w2 = Some m /\ m !! DBVersionPath = Some "0") /\
  tmpDir ∈ dirs w2 /\ relations w2 = relations w1.
Proof.
  intros Hreach HW.
  destruct (reaches_facts _ _ _ _ Hreach) as ((ev1 & Ht1 & Hs1 & Hr1 & Hq1) & (m1 & Hm1 & Hk1) & Hd1 & _).
  pose proof (Wait_grows tmpDir (Go kvPkgs) w1) as Hg. rewrite HW in Hg.
  destruct Hg as [HR HD (ev2 & Ht2 & Hq) HM _ _ _]. simpl in *.
  apply task_events_silent in Hq as (Hs2 & He2 & Hr2).
  repeat split; try done.
  - exists (ev1 ++ ev2). split; [by rewrite Ht2, Ht1, app_assoc|].
    rewrite sets_of_app, removals_of_app, execs_of_app, Hs1, Hs2, Hr1, Hr2, He2.
    rewrite !app_nil_r. done.
  - destruct (HM m1 Hm1) as (m2 & Hm2 & Hsub). exists m2. split; [done|].
    by eapply lookup_weaken.
  - by rewrite HD.
Qed.

(** C3.  When one or more provider tasks have failed, [Migrate] returns
    one error that holds the errors of exactly the tasks that failed, all
    tasks having run to their end.  The in-progress marker is the only
    write [Migrate] has made to the store and it is still what the marker
    holds; no directory has been removed, and the staging directory is
    still there. *)
Theorem Migrate_task_failure
    (dbParams : Database) (w w1 w2 : World) (tmpDir : string) (g : Group) :
  reaches dbParams w w1 tmpDir ->
  Wait_ tmpDir (Go kvPkgs) w1 = (w2, g) ->
  failures (tasks g) <> [] ->
  let w' := store_close env w2 in
  Migrate_ dbParams w = (w', Some (MultiErr (errors g))) /\
  Forall (fun t => is_finished t = true) (tasks g) /\
  errors g ≡ₚ failures (tasks g) /\
  (exists evs,
     trace w' = trace w ++ evs /\
     sets_of evs = [(DBVersionPath, "0", None)] /\ removals_of evs = []) /\
  (exists m : gmap string string,
     table w' = Some m /\ m !! DBVersionPath = Some "0") /\
  tmpDir ∈ dirs w'.
Proof.
  intros Hreach HW Hfail w'.
  pose proof (Wait_errors _ _ _ _ HW) as HP.
  destruct (Wait_facts _ _ _ _ _ _ Hreach HW)
    as ((evs & Ht & Hs & Hr & _) & Hm & Hd & _).
  repeat split; try done.
  - rewrite (Migrate_reaches _ _ _ _ Hreach), HW.
    unfold ErrorOrNil. destruct (errors g) as [|e es] eqn:He.
    + exfalso. apply Hfail. by apply Permutation_nil_l in HP.
    + reflexivity.
  - by eapply Wait_finished.
  - exists (evs ++ [Call store_Close (env (trace w2) store_Close)]).
    split; [simpl; by rewrite Ht, app_assoc|].
    rewrite sets_of_app, removals_of_app, Hs, Hr. done.
Qed.

Lemma all_succeeded_errors tmpDir w w' g :
  Wait_ tmpDir (Go kvPkgs) w = (w', g) ->
  Forall (fun t => t = Finished None) (tasks g) -> errors g = [].
Proof.
  intros HW Hall. apply Permutation_nil_r. rewrite (Wait_errors _ _ _ _ HW).
  unfold failures. induction Hall as [|t ts -> _ IH]; [done|].
  by rewrite omap_cons_list, IH.
Qed.

Lemma elem_of_all_tables name p t :
  (name, p) ∈ kvPkgs -> t ∈ Tables p -> t ∈ all_tables.
Proof.
  intros Hp Ht. apply list_elem_of_In, in_flat_map.
  exists (name, p). split; by apply list_elem_of_In.
Qed.

(** What [Migrate] does once every task has succeeded, given that the
    write of the marker and the statement that drops the tables go
    through. *)
Lemma finish_succeeds
    (dbParams : Database) (w w1 w2 : World) (tmpDir : string) (g : Group) :
  reaches dbParams w w1 tmpDir ->
  Wait_ tmpDir (Go kvPkgs) w1 = (w2, g) ->
  Forall (fun t => t = Finished None) (tasks g) ->
  let mark := store_Set DBVersionPath (Itoa InitialMigrateVersion) in
  let drop := pool_Exec (DropTableIfExists (map Sanitize all_tables)) in
  let remove := os_RemoveAll tmpDir in
  let dropping := DropTables dbParams && negb (length all_tables <? 1) in
  let t3 := trace w2 ++ [Call mark None] in
  let t4 := if dropping then t3 ++ [Call drop None] else t3 in
  env (trace w2) mark = None ->
  (dropping = true -> env t3 drop = None) ->
  exists w' rc,
    Migrate_ dbParams w = (w', None) /\
    trace w'
    = t4 ++ Call remove (env t4 remove)
         :: match env t4 remove with
            | Some _ => [Log "error" "Failed to remove migration directory"]
            | None => []
            end
         ++ [Call store_Close rc] /\
    (DropTables dbParams = true ->
     forall name p t, (name, p) ∈ kvPkgs -> t ∈ Tables p -> t ∉ relations w') /\
    (env t4 remove = None -> tmpDir ∉ dirs w') /\
    (dropping = false -> relations w' = relations w2) /\
    (dropping = false \/ Sanitize DefaultTableName ∉ map Sanitize all_tables ->
     exists m : gmap string string,
       table w' = Some m /\
       m !! DBVersionPath = Some (Itoa InitialMigrateVersion)).
Proof.
  intros Hreach HW Hall mark drop remove dropping t3 t4 Hmark Hdrop.
  destruct (Wait_facts _ _ _ _ _ _ Hreach HW) as (_ & (m2 & Hm2 & _) & _ & _).
  rewrite (Migrate_reaches _ _ _ _ Hreach), HW.
  unfold ErrorOrNil. rewrite (all_succeeded_errors _ _ _ _ HW Hall).
  unfold finish, result, check, mbind, M_bind, mret, M_ret, store_set.
  fold mark. rewrite Hmark, Hm2. cbn [Set_ id].
  set (w3 := record (Call mark None)
               (with_table w2 (Some (<[DBVersionPath:=Itoa InitialMigrateVersion]> m2)))).
  assert (Ht3 : trace w3 = t3) by reflexivity.
  match goal with
  | |- context [?body w3] =>
      lazymatch body with
      | (if DropTables dbParams then _ else _) => idtac
      end;
      assert (Hstep : exists w4,
        body w3 = (w4, Yield ()) /\
        trace w4 = t4 /\ dirs w4 = dirs w2 /\
        (dropping = false -> relations w4 = relations w2) /\
        (DropTables dbParams = true ->
         forall t, t ∈ all_tables -> t ∉ relations w4) /\
        (dropping = false \/ Sanitize DefaultTableName ∉ map Sanitize all_tables ->
         table w4 = Some (<[DBVersionPath:=Itoa InitialMigrateVersion]> m2)))
  end.
  { subst dropping t4. unfold dropTables.
    destruct (DropTables dbParams); cbn [andb].
    2: { exists w3. repeat split; try done. }
    destruct (length all_tables <? 1) eqn:Hlen; cbn [negb].
    { exists w3. repeat split; try done.
      intros _ t Ht. destruct all_tables; [by apply elem_of_nil in Ht | done]. }
    unfold mbind, M_bind, pool_exec. rewrite Ht3. fold drop.
    rewrite (Hdrop eq_refl). cbn [mret M_ret].
    eexists. split; [reflexivity|]. repeat split; try done.
    - intros _ t Ht. simpl. rewrite elem_of_filter. intros [Hnot _].
      apply Hnot. apply list_elem_of_fmap. by exists t.
    - intros [Hf|Hn]; [done|]. simpl. by rewrite bool_decide_false. }
  destruct Hstep as (w4 & Hstep & Ht4 & Hd4 & Hsame4 & Hrel4 & Htab4).
  destruct (Wait_facts _ _ _ _ _ _ Hreach HW) as (_ & _ & Hdir & _).
  destruct (env t4 remove) as [e|] eqn:Hrm.
  - eexists _, _. split.
    { rewrite Hstep. unfold os_remove_all. rewrite Ht4. fold remove.
      rewrite Hrm. reflexivity. }
    cbn [logging]. repeat split.
    + simpl. rewrite Ht4. rewrite <- !app_assoc. reflexivity.
    + intros Hd name p t Hp Ht. simpl. apply Hrel4; [done|].
      by eapply elem_of_all_tables.
    + done.
    + done.
    + intros Hc. exists (<[DBVersionPath:=Itoa InitialMigrateVersion]> m2).
      simpl. split; [by apply Htab4 | apply lookup_insert_eq].
  - eexists _, _. split.
    { rewrite Hstep. unfold os_remove_all. rewrite Ht4. fold remove.
      rewrite Hrm. reflexivity. }
    repeat split.
    + simpl. rewrite ?Ht4. rewrite <- !app_assoc. reflexivity.
    + intros Hd name p t Hp Ht. simpl. apply Hrel4; [done|].
      by eapply elem_of_all_tables.
    + intros _. simpl. rewrite elem_of_difference, elem_of_singleton. by intros [_ ?].
    + done.
    + intros Hc. exists (<[DBVersionPath:=Itoa InitialMigrateVersion]> m2).
      simpl. split; [by apply Htab4 | apply lookup_insert_eq].
Qed.

(** C7.  When every provider task has succeeded, and the store takes the
    write of the marker and the database the statement that drops the
    tables, [Migrate] writes the completion constant to the marker, then,
    if the source tables are to be dropped, sends one statement that names
    the tables of all the packages of the registry, then asks for the
    staging directory to be removed; when the removal fails, it logs an
    error.  It returns nil in either case. *)
Theorem Migrate_all_succeed
    (dbParams : Database) (w w1 w2 : World) (tmpDir : string) (g : Group) :
  reaches dbParams w w1 tmpDir ->
  Wait_ tmpDir (Go kvPkgs) w1 = (w2, g) ->
  Forall (fun t => t = Finished None) (tasks g) ->
  let mark := store_Set DBVersionPath (Itoa InitialMigrateVersion) in
  let drop := pool_Exec (DropTableIfExists (map Sanitize all_tables)) in
  let remove := os_RemoveAll tmpDir in
  let dropping := DropTables dbParams && negb (length all_tables <? 1) in
  let t3 := trace w2 ++ [Call mark None] in
  let t4 := if dropping then t3 ++ [Call drop None] else t3 in
  env (trace w2) mark = None ->
  (dropping = true -> env t3 drop = None) ->
  exists w' rc,
    Migrate_ dbParams w = (w', None) /\
    trace w'
    = t4 ++ Call remove (env t4 remove)
         :: match env t4 remove with
            | Some _ => [Log "error" "Failed to remove migration directory"]
            | None => []
            end
         ++ [Call store_Close rc] /\
    (DropTables dbParams = true ->
     forall name p t, (name, p) ∈ kvPkgs -> t ∈ Tables p -> t ∉ relations w') /\
    (env t4 remove = None -> tmpDir ∉ dirs w') /\
    (dropping = false \/ Sanitize DefaultTableName ∉ map Sanitize all_tables ->
     exists m : gmap string string,
       table w' = Some m /\
       m !! DBVersionPath = Some (Itoa InitialMigrateVersion)).
Proof.
  intros Hreach HW Hall mark drop remove dropping t3 t4 Hmark Hdrop.
  destruct (finish_succeeds dbParams w w1 w2 tmpDir g Hreach HW Hall Hmark Hdrop)
    as (w' & rc & HM & Ht & Hrel & Hdir & _ & Htab).
  exists w', rc. repeat split; done.
Qed.

(** *** No providers *)

Lemma run_schedule_no_tasks tmpDir sched w g :
  tasks g = [] -> run_schedule env tmpDir sched (w, g) = (w, g).
Proof.
  intros Hg. induction sched as [|i sched IH]; [done|].
  rewrite run_schedule_cons. unfold group_step at 1. by rewrite Hg.
Qed.

Lemma Wait_no_tasks tmpDir w : Wait_ tmpDir (Go []) w = (w, Go []).
Proof.
  unfold Wait. rewrite run_schedule_no_tasks by done.
  by rewrite run_schedule_no_tasks.
Qed.

(** C9.  [dropTables] of no table answers nil and leaves the world as it
    is: nothing is sent to the database.  With an empty registry and the
    source tables to be dropped, a run of [Migrate] that gets to the tasks
    and whose write of the completion marker goes through returns nil; it
    sends no statement once the tasks are started, the only statement of
    the whole run can be the reset of the KV table, and the relational
    source keeps its tables. *)
Theorem dropTables_nothing_to_drop
    (dbParams : Database) (w w1 : World) (tmpDir : string) :
  (forall w0, dropTables DefaultTableName env [] w0 = (w0, Yield None)) /\
  (kvPkgs = [] -> DropTables dbParams = true ->
   reaches dbParams w w1 tmpDir ->
   env (trace w1) (store_Set DBVersionPath (Itoa InitialMigrateVersion)) = None ->
   exists w',
     Migrate_ dbParams w = (w', None) /\
     relations w' = relations w1 /\
     (exists evs, trace w' = trace w1 ++ evs /\ execs_of evs = []) /\
     (exists evs, trace w' = trace w ++ evs /\
                  forall q r, (q, r) ∈ execs_of evs -> q = reset_statement) /\
     ((forall t, t ∈ relations w -> Sanitize t <> Sanitize DefaultTableName) ->
      relations w' = relations w)).
Proof.
  split; [done|]. intros Hk Hdrop Hreach Hmark.
  assert (HW : Wait_ tmpDir (Go kvPkgs) w1 = (w1, Go [])).
  { rewrite Hk. apply Wait_no_tasks. }
  destruct (finish_succeeds dbParams w w1 w1 tmpDir (Go []) Hreach HW)
    as (w' & rc & HM & Ht & _ & _ & Hrel & _).
  { constructor. }
  { done. }
  { rewrite Hk. simpl. by rewrite andb_false_r. }
  assert (Hnd : DropTables dbParams && negb (length all_tables <? 1) = false).
  { rewrite Hk. simpl. by rewrite andb_false_r. }
  rewrite Hnd in Ht. specialize (Hrel Hnd).
  destruct (reaches_facts _ _ _ _ Hreach) as ((ev1 & Ht1 & _ & _ & Hq1) & _ & _ & Hsame).
  exists w'. split; [done|]. split; [done|].
  assert (Htail : exists evs,
            trace w' = trace w1 ++ evs /\ execs_of evs = []).
  { rewrite Ht. destruct (env _ (os_RemoveAll tmpDir));
      (eexists; split; [by rewrite <- app_assoc | reflexivity]). }
  destruct Htail as (ev2 & Ht2 & He2).
  repeat split.
  - by exists ev2.
  - exists (ev1 ++ ev2). split; [by rewrite Ht2, Ht1, app_assoc|].
    intros q r. rewrite execs_of_app, He2, app_nil_r. apply Hq1.
  - intros Hne. rewrite Hrel. by apply Hsame.
Qed.

(** *** The same key twice *)

(** The keys of the entries of all the export files of a run. *)
Definition run_keys (rels : gset string) : list string :=
  concat (map (fun '(_, p) => stream_keys (Func p rels).1) kvPkgs).

Lemma all_pending_Go rels pkgs :
  all_pending rels (tasks (Go pkgs))
  = concat (map (fun '(_, p) => stream_keys (Func p rels).1) pkgs).
Proof.
  unfold all_pending, Go. simpl. induction pkgs as [|[n p] l IH]; [done|].
  simpl. by rewrite <- IH.
Qed.

(** C4.  A valid entry is written with the conditional write, asked to set
    the key only if it holds no value: when the key is free, the value is
    set and [Import] goes on; when the key holds a value, [Import] stops
    with the error of the conditional write and leaves the store alone.
    When the export files of a run carry the same key twice, in one file
    or in two, [Migrate] returns an error, and the in-progress marker is
    the only write it has made to the store. *)
Theorem Import_no_clobber_and_run_conflict :
  (forall (hdr : frame) (pre rest : list frame) (o : object)
          (store : option (gmap string string)) (entry' : Entry)
          (m' : gmap string string) (k v : string),
     header_ok hdr ->
     after pre Entry_zero store = Some (entry', Some m') ->
     Key (unmarshal o entry').1 = Some k -> k <> "" ->
     Value (unmarshal o entry').1 = Some v ->
     loop_body (unmarshal o entry').1 None (Some m')
     = SetIf_flow (SetIf (Some m') k v None) /\
     (m' !! k = None ->
      Import (hdr :: pre ++ Obj o :: rest) store
      = Import_loop rest (unmarshal o entry').1 (Some (<[k:=v]> m'))) /\
     (m' !! k <> None ->
      Import (hdr :: pre ++ Obj o :: rest) store
      = (Some m', Some (Sentinel ErrPredicateFailed)))) /\
  (forall (dbParams : Database) (w w1 : World) (tmpDir : string),
     reaches dbParams w w1 tmpDir ->
     ~ NoDup (run_keys (relations w1)) ->
     exists w' es,
       Migrate_ dbParams w = (w', Some (MultiErr es)) /\ es <> [] /\
       exists evs, trace w' = trace w ++ evs /\
                   sets_of evs = [(DBVersionPath, "0", None)]).
Proof.
  split; [apply Import_write_or_conflict|].
  intros dbParams w w1 tmpDir Hreach Hdup.
  destruct (Wait_ tmpDir (Go kvPkgs) w1) as [w2 g] eqn:HW.
  destruct (reaches_facts _ _ _ _ Hreach) as (_ & (m1 & Hm1 & _) & _ & _).
  assert (Herr : errors g <> []).
  { intros He. apply Hdup.
    destruct (Wait_success_keys _ _ _ _ _ m1 HW He Hm1) as [Hnd _].
    by rewrite all_pending_Go in Hnd. }
  destruct (Wait_facts _ _ _ _ _ _ Hreach HW) as ((evs & Ht & Hs & _ & _) & _ & _ & _).
  exists (store_close env w2), (errors g). repeat split; [|done|].
  - rewrite (Migrate_reaches _ _ _ _ Hreach), HW. unfold ErrorOrNil.
    by destruct (errors g).
  - exists (evs ++ [Call store_Close (env (trace w2) store_Close)]).
    split; [simpl; by rewrite Ht, app_assoc|].
    by rewrite sets_of_app, Hs.
Qed.

(** *** Every way a run can end *)

Lemma reset_stops dbParams w0 wc r :
  reset_ dbParams w0 = (wc, Returned r) -> exists e, r = Some e.
Proof.
  rewrite reset_spec.
  destruct (validateVersion_ (table w0)) as [[|] [e|]];
    try (intros [= <- <-]; eauto); try discriminate.
  cbn zeta. destruct (env _ _) as [e|]; [intros [= <- <-]; eauto|].
  destruct (env _ _) as [e|]; [intros [= <- <-]; eauto | discriminate].
Qed.

Lemma store_set_spec k v w w1 o :
  store_set env k v w = (w1, o) ->
  exists r,
    o = Yield r /\ trace w1 = trace w ++ [Call (store_Set k v) r] /\
    dirs w1 = dirs w /\ relations w1 = relations w /\
    (r = None ->
     env (trace w) (store_Set k v) = None /\
     exists m : gmap string string, table w = Some m /\ table w1 = Some (<[k:=v]> m)) /\
    (r <> None -> table w1 = table w).
Proof.
  unfold store_set. destruct (env (trace w) (store_Set k v)) as [e|] eqn:He.
  - intros [= <- <-]. exists (Some e). repeat split; done.
  - destruct (table w) as [m|] eqn:Hm; simpl; intros [= <- <-].
    + exists None. repeat split; try done. eauto.
    + eexists. repeat split; try done.
Qed.

Lemma mkdir_spec pattern w w1 o :
  os_mkdir_temp env pattern w = (w1, o) ->
  exists name r,
    o = Yield (name, r) /\
    trace w1 = trace w ++ [Call (os_MkdirTemp pattern (fresh_string_of_set pattern (dirs w))) r] /\
    table w1 = table w /\ relations w1 = relations w /\
    dirs w1 = (if r is None then {[name]} ∪ dirs w else dirs w).
Proof.
  unfold os_mkdir_temp. destruct (env _ _) as [e|]; intros [= <- <-].
  - by exists "", (Some e).
  - by eexists _, None.
Qed.

Lemma reaches_dirs dbParams w w1 tmpDir :
  reaches dbParams w w1 tmpDir -> dirs w1 = {[tmpDir]} ∪ dirs w.
Proof.
  intros [w0 wc wm ws He Ho Hr Hs Hm ->].
  assert (H0 : dirs w0 = dirs w).
  { unfold kv_open in Ho. destruct (env _ _); by inversion Ho. }
  apply reset_facts in Hr as (Hc & _).
  apply store_set_spec in Hs as (r & _ & _ & Hd & _).
  apply mkdir_spec in Hm as (name & rm & [= <- <-] & _ & _ & _ & Hm).
  simpl. by rewrite Hm, Hd, Hc, H0.
Qed.

(** An opened run either stops before the provider tasks, with an error
    and the store closed, or gets to them. *)
Lemma Migrate_stops_or_reaches dbParams w w' r :
  KVEnabled dbParams = true ->
  env (trace w) (kv_Open DriverName (ConnectionString dbParams)) = None ->
  Migrate_ dbParams w = (w', r) ->
  (exists e evs rc,
     r = Some e /\ trace w' = trace w ++ evs ++ [Call store_Close rc] /\
     removals_of evs = [] /\ dirs w' = dirs w /\
     (sets_of evs = [] \/
      exists r0, sets_of evs = [(DBVersionPath, "0", r0)])) \/
  (exists w1 tmpDir, reaches dbParams w w1 tmpDir).
Proof.
  intros He Ho HM.
  set (w0 := record (Call (kv_Open DriverName (ConnectionString dbParams)) None)
               (with_table w (Some (default ∅ (table w))))).
  assert (Hopen : kv_open DriverName env (ConnectionString dbParams) w
                  = (w0, Yield None)).
  { unfold kv_open. by rewrite Ho. }
  rewrite (Migrate_unfold _ _ _ He Hopen) in HM.
  unfold mbind at 1 in HM. unfold M_bind at 1 in HM.
  destruct (reset_ dbParams w0) as [wc [[]|rr]] eqn:Hr.
  2:{ destruct (reset_stops _ _ _ _ Hr) as [e ->].
      apply reset_facts in Hr as (Hd & (ev1 & Ht1 & Hs1 & Hr1 & _) & _).
      injection HM as <- <-. left.
      eexists e, (Call (kv_Open DriverName (ConnectionString dbParams)) None :: ev1), _.
      split; [done|]. split; [simpl; rewrite Ht1; simpl; by rewrite <- !app_assoc|].
      split; [done|]. split; [done|]. by left. }
  pose proof Hr as Hr'.
  apply reset_facts in Hr' as (Hd & (ev1 & Ht1 & Hs1 & Hr1 & _) & _).
  unfold after_reset, mbind, M_bind, mret, M_ret in HM.
  destruct (store_set env DBVersionPath "0" wc) as [wm om] eqn:Hs.
  destruct (store_set_spec _ _ _ _ _ Hs) as (r0 & -> & Ht2 & Hd2 & _).
  destruct r0 as [e0|].
  { injection HM as <- <-. left.
    eexists e0, (Call (kv_Open DriverName (ConnectionString dbParams)) None :: ev1
                ++ [Call (store_Set DBVersionPath "0") (Some e0)]), _.
    split; [done|].
    split; [simpl; rewrite Ht2, Ht1; simpl; by rewrite <- !app_assoc|].
    change (removals_of (?x :: ?l)) with (removals_of l).
    change (sets_of (?x :: ?l)) with (sets_of l).
    rewrite removals_of_app, sets_of_app, Hr1, Hs1.
    split; [done|]. split; [simpl; by rewrite Hd2, Hd|]. right. by eexists. }
  cbv beta iota zeta delta [check mret M_ret] in HM.
  destruct (os_mkdir_temp env "kv_migrate_" wm) as [ws os] eqn:Hm.
  destruct (mkdir_spec _ _ _ _ Hm) as (name & rm & -> & Ht3 & _ & _ & Hd3).
  destruct rm as [em|].
  { cbv beta iota zeta delta [check return_] in HM. injection HM as <- <-. left.
    eexists _, (Call (kv_Open DriverName (ConnectionString dbParams)) None :: ev1
                ++ [Call (store_Set DBVersionPath "0") None]
                ++ [Call (os_MkdirTemp "kv_migrate_" _) (Some em)]), _.
    split; [done|].
    split; [simpl; rewrite Ht3, Ht2, Ht1; simpl; by rewrite <- !app_assoc|].
    change (removals_of (?x :: ?l)) with (removals_of l).
    change (sets_of (?x :: ?l)) with (sets_of l).
    rewrite !removals_of_app, !sets_of_app, Hr1, Hs1.
    split; [done|]. split; [simpl; by rewrite Hd3, Hd2, Hd|]. right. by eexists. }
  right. exists (record (Log "info" "Starting KV Migration Process") ws), name.
  by eapply (reaches_intro _ _ _ _ w0 wc wm ws).
Qed.

(** What the end of [Migrate] does (lines 112-132), case by case. *)
Lemma finish_cases dbParams tmpDir tables err w2 w3 o :
  finish_ dbParams tmpDir tables err w2 = (w3, o) ->
  match err with
  | Some e => w3 = w2 /\ o = Returned (Some e)
  | None =>
      exists rs evs,
        trace w3
        = trace w2 ++ Call (store_Set DBVersionPath (Itoa InitialMigrateVersion)) rs
                   :: evs /\
        sets_of evs = [] /\
        ((exists e, o = Returned (Some e) /\ removals_of evs = [] /\
                    dirs w3 = dirs w2) \/
         (o = Yield None /\ rs = None /\
          exists rr, removals_of evs = [(tmpDir, rr)]))
  end.
Proof.
  unfold finish. destruct err as [e|]; [by intros [= <- <-]|].
  cbv beta iota zeta delta [check return_ mbind M_bind mret M_ret].
  destruct (store_set env DBVersionPath (Itoa InitialMigrateVersion) w2)
    as [wa oa] eqn:Hs.
  destruct (store_set_spec _ _ _ _ _ Hs) as (rs & -> & Ht & Hd & _).
  destruct rs as [es|]; cbv beta iota.
  { intros [= <- <-]. exists (Some es), []. repeat split; try done.
    left. eexists. repeat split; done. }
  match goal with
  | |- context [?body wa] =>
      lazymatch body with
      | (if DropTables dbParams then _ else _) => idtac
      end;
      assert (Hstep : exists wb ob eb,
                body wa = (wb, ob) /\ trace wb = trace wa ++ eb /\
                dirs wb = dirs wa /\ sets_of eb = [] /\ removals_of eb = [] /\
                (ob = Yield () \/ exists e, ob = Returned (Some e)));
        [|destruct Hstep as (wb & ob & eb & -> & Htb & Hdb & Hsb & Hrb & Hob)]
  end.
  { destruct (DropTables dbParams).
    2:{ exists wa, (Yield ()), []. rewrite app_nil_r. repeat split; try done. by left. }
    unfold dropTables. destruct (length tables <? 1).
    { exists wa, (Yield ()), []. rewrite app_nil_r. repeat split; try done. by left. }
    unfold mbind, M_bind, pool_exec, mret, M_ret.
    destruct (env (trace wa) _) as [ed|]; eexists _, _, [_];
      (split; [reflexivity|]); repeat split; try done; eauto. }
  destruct Hob as [->|[e ->]].
  2:{ intros [= <- <-]. exists None, eb. split; [by rewrite Htb, Ht, <- app_assoc|].
      split; [done|]. left. exists e. repeat split; try done. by rewrite Hdb. }
  unfold os_remove_all.
  destruct (env (trace wb) (os_RemoveAll tmpDir)) as [er|];
    cbv beta iota zeta delta [logging]; intros [= <- <-].
  - exists None, (eb ++ [Call (os_RemoveAll tmpDir) (Some er);
                        Log "error" "Failed to remove migration directory"]).
    split; [simpl; rewrite Htb, Ht; by rewrite <- !app_assoc|].
    rewrite sets_of_app, removals_of_app, Hsb, Hrb. split; [done|].
    right. repeat split; try done. by eexists.
  - exists None, (eb ++ [Call (os_RemoveAll tmpDir) None]).
    split; [simpl; rewrite Htb, Ht; by rewrite <- !app_assoc|].
    rewrite sets_of_app, removals_of_app, Hsb, Hrb. split; [done|].
    right. repeat split; try done. by eexists.
Qed.

Lemma sets_of_set k v r l :
  sets_of (Call (store_Set k v) r :: l) = (k, v, r) :: sets_of l.
Proof. reflexivity. Qed.

Lemma removals_of_set k v r l :
  removals_of (Call (store_Set k v) r :: l) = removals_of l.
Proof. reflexivity. Qed.

Lemma no_failures_all_succeeded tmpDir w w' g :
  Wait_ tmpDir (Go kvPkgs) w = (w', g) -> errors g = [] ->
  Forall (fun t => t = Finished None) (tasks g).
Proof.
  intros HW He. pose proof (Wait_errors _ _ _ _ HW) as HP. rewrite He in HP.
  apply Permutation_nil_l in HP. symmetry in HP.
  pose proof (Wait_finished _ _ _ _ _ HW) as Hfin.
  unfold failures in HP. clear HW He. induction Hfin as [|t ts Ht _ IH]; [done|].
  rewrite omap_cons_list in HP. apply app_eq_nil in HP as [H1 H2].
  constructor; [|by apply IH].
  apply finished_failure; [done|]. by destruct (failure t).
Qed.

(** The three ways a run ends: at once when KV is not enabled; with an
    error; or with nil after the whole of it. *)
Lemma Migrate_summary dbParams w w' r :
  Migrate_ dbParams w = (w', r) ->
  exists evs,
    trace w' = trace w ++ evs /\
    ((KVEnabled dbParams = false /\ r = None /\ evs = []) \/
     (KVEnabled dbParams = true /\ (exists e, r = Some e) /\
      removals_of evs = [] /\ dirs w ⊆ dirs w' /\
      (sets_of evs = [] \/
       (exists r0, sets_of evs = [(DBVersionPath, "0", r0)]) \/
       (exists r1, sets_of evs = [(DBVersionPath, "0", None);
                                  (DBVersionPath, Itoa InitialMigrateVersion, r1)]))) \/
     (KVEnabled dbParams = true /\ r = None /\
      sets_of evs = [(DBVersionPath, "0", None);
                     (DBVersionPath, Itoa InitialMigrateVersion, None)] /\
      exists w1 tmpDir w2 g rr,
        reaches dbParams w w1 tmpDir /\
        Wait_ tmpDir (Go kvPkgs) w1 = (w2, g) /\ errors g = [] /\
        removals_of evs = [(tmpDir, rr)])).
Proof.
  intros HM. destruct (KVEnabled dbParams) eqn:He.
  2:{ unfold Migrate in HM. rewrite He in HM. injection HM as <- <-.
      exists []. rewrite app_nil_r. split; [done|]. by left. }
  destruct (env (trace w) (kv_Open DriverName (ConnectionString dbParams)))
    as [eo|] eqn:Ho.
  { unfold Migrate in HM. rewrite He in HM. cbn [negb] in HM.
    unfold mbind at 1 in HM. unfold M_bind at 1, kv_open in HM.
    rewrite Ho in HM. injection HM as <- <-.
    eexists [_]. split; [done|]. right. left.
    repeat split; try done; eauto. }
  destruct (Migrate_stops_or_reaches _ _ _ _ He Ho HM)
    as [(e & evs & rc & -> & Ht & Hr & Hd & Hs)|(w1 & tmpDir & Hreach)].
  { exists (evs ++ [Call store_Close rc]). split; [done|]. right. left.
    assert (Hr' : removals_of (evs ++ [Call store_Close rc]) = []).
    { rewrite removals_of_app, Hr. done. }
    assert (Hs' : sets_of (evs ++ [Call store_Close rc]) = sets_of evs).
    { rewrite sets_of_app. apply app_nil_r. }
    rewrite Hr', Hs'.
    split; [done|]. split; [eauto|]. split; [done|]. split; [by rewrite Hd|].
    destruct Hs as [Hs|Hs]; [by left | right; by left]. }
  rewrite (Migrate_reaches _ _ _ _ Hreach) in HM.
  destruct (Wait_ tmpDir (Go kvPkgs) w1) as [w2 g] eqn:HW.
  destruct (Wait_facts _ _ _ _ _ _ Hreach HW)
    as ((ev1 & Ht1 & Hs1 & Hr1 & _) & _ & _ & _).
  pose proof (Wait_grows tmpDir (Go kvPkgs) w1) as Hg. rewrite HW in Hg.
  destruct Hg as [_ HD _ _ _ _ _]. simpl in HD.
  pose proof (reaches_dirs _ _ _ _ Hreach) as Hd1.
  destruct (finish_ dbParams tmpDir all_tables (ErrorOrNil g) w2) as [w3 o] eqn:Hf.
  apply finish_cases in Hf. unfold ErrorOrNil in Hf.
  assert (Hres : w' = store_close env w3 /\
                 r = match o with Yield x | Returned x => x end).
  { unfold result in HM. destruct o; by inversion HM. }
  destruct Hres as [-> ->].
  destruct (errors g) as [|e es] eqn:Herr.
  - destruct Hf as (rs & ev2 & Ht2 & Hs2 & [(e & -> & Hr2 & Hd2)|(-> & -> & rr & Hr2)]).
    + eexists (ev1 ++ Call _ rs :: ev2 ++ [Call store_Close _]).
      split; [simpl; rewrite Ht2, Ht1; by rewrite <- !app_assoc|].
      right. left. split; [done|]. split; [eauto|].
      rewrite removals_of_app, sets_of_app, Hr1, Hs1.
      rewrite removals_of_set, sets_of_set, removals_of_app, sets_of_app, Hr2, Hs2.
      split; [done|]. split; [simpl; rewrite Hd2, HD, Hd1; apply union_subseteq_r|].
      right. right. by exists rs.
    + eexists (ev1 ++ Call _ None :: ev2 ++ [Call store_Close _]).
      split; [simpl; rewrite Ht2, Ht1; by rewrite <- !app_assoc|].
      right. right. split; [done|]. split; [done|]. split.
      { by rewrite sets_of_app, Hs1, sets_of_set, sets_of_app, Hs2. }
      exists w1, tmpDir, w2, g, rr. repeat split; try done.
      by rewrite removals_of_app, Hr1, removals_of_set, removals_of_app, Hr2.
  - destruct Hf as [-> ->].
    exists (ev1 ++ [Call store_Close (env (trace w2) store_Close)]).
    split; [simpl; by rewrite Ht1, app_assoc|].
    right. left. split; [done|]. split; [eauto|].
    rewrite removals_of_app, sets_of_app, Hr1, Hs1.
    split; [done|]. split; [simpl; rewrite HD, Hd1; apply union_subseteq_r|].
    right. left. by eexists.
Qed.

(** X13.  When [Migrate] returns an error, whatever the error and
    wherever it arose, it has not asked for any directory to be removed:
    the staging files of the run are kept, and every directory that
    existed before the run still exists. *)
Theorem Migrate_error_keeps_workspace
    (dbParams : Database) (w w' : World) (e : error) :
  Migrate_ dbParams w = (w', Some e) ->
  exists evs,
    trace w' = trace w ++ evs /\ removals_of evs = [] /\ dirs w ⊆ dirs w'.
Proof.
  intros HM. destruct (Migrate_summary _ _ _ _ HM)
    as (evs & Ht & [(_ & Hr & _)|[(_ & _ & Hr & Hd & _)|(_ & Hr & _)]]);
    try discriminate.
  by exists evs.
Qed.

(** X14.  When [Migrate] returns nil with KV enabled, the whole of the
    migration has taken place: the run got to the provider tasks, every
    task ended without an error, the two writes of the marker, first the
    in-progress value and then the completion constant, are the only
    writes [Migrate] made to the store and both were accepted, and the
    staging directory of the run is the one directory it asked to have
    removed. *)
Theorem Migrate_nil_means_complete (dbParams : Database) (w w' : World) :
  KVEnabled dbParams = true ->
  Migrate_ dbParams w = (w', None) ->
  exists w1 tmpDir w2 g evs rr,
    reaches dbParams w w1 tmpDir /\
    Wait_ tmpDir (Go kvPkgs) w1 = (w2, g) /\
    Forall (fun t => t = Finished None) (tasks g) /\
    trace w' = trace w ++ evs /\
    sets_of evs = [(DBVersionPath, "0", None);
                   (DBVersionPath, Itoa InitialMigrateVersion, None)] /\
    removals_of evs = [(tmpDir, rr)].
Proof.
  intros He HM. destruct (Migrate_summary _ _ _ _ HM)
    as (evs & Ht & [(Hd & _)|[(_ & [e Hr] & _)|(_ & _ & Hs & H)]]);
    try congruence.
  destruct H as (w1 & tmpDir & w2 & g & rr & Hreach & HW & Herr & Hrm).
  exists w1, tmpDir, w2, g, evs, rr. repeat split; try done.
  by eapply no_failures_all_succeeded.
Qed.

(** X15.  The writes [Migrate] itself makes to the store are writes of
    the version marker, at most two: the in-progress value first, and the
    completion constant only after the in-progress value was accepted.
    No other key is written outside the provider tasks. *)
Theorem Migrate_writes_only_the_marker (dbParams : Database) (w : World) :
  exists evs,
    trace (Migrate_ dbParams w).1 = trace w ++ evs /\
    (sets_of evs = [] \/
     (exists r0, sets_of evs = [(DBVersionPath, "0", r0)]) \/
     (exists r1, sets_of evs = [(DBVersionPath, "0", None);
                                (DBVersionPath, Itoa InitialMigrateVersion, r1)])).
Proof.
  destruct (Migrate_ dbParams w) as [w' r] eqn:HM.
  destruct (Migrate_summary _ _ _ _ HM)
    as (evs & Ht & [(_ & _ & Hev)|[(_ & _ & _ & _ & Hs)|(_ & _ & Hs & _)]]);
    exists evs; (split; [done|]).
  - left. by rewrite Hev.
  - done.
  - right. right. by eexists.
Qed.

(** X16.  The store [Migrate] opens is closed on every way out: when
    the call that opens it is accepted, the last thing the run does,
    whatever it returns, is to close the store.  When the store cannot be
    opened, [Migrate] returns the error of the driver, wrapped, and makes
    no other call. *)
Theorem Migrate_closes_store
    (dbParams : Database) (w w' : World) (r : option error) :
  KVEnabled dbParams = true ->
  Migrate_ dbParams w = (w', r) ->
  let open := kv_Open DriverName (ConnectionString dbParams) in
  match env (trace w) open with
  | Some e =>
      r = Some (Errorf "opening kv store: " e) /\
      w' = record (Call open (Some e)) w
  | None =>
      exists evs rc,
        trace w' = trace w ++ Call open None :: evs ++ [Call store_Close rc]
  end.
Proof.
  intros He HM open.
  destruct (env (trace w) open) as [eo|] eqn:Ho.
  { unfold Migrate in HM. rewrite He in HM. cbn [negb] in HM.
    unfold mbind at 1 in HM. unfold M_bind at 1, kv_open in HM.
    fold open in HM. rewrite Ho in HM. by injection HM as <- <-. }
  set (w0 := record (Call open None) (with_table w (Some (default ∅ (table w))))).
  assert (Hopen : kv_open DriverName env (ConnectionString dbParams) w
                  = (w0, Yield None)).
  { unfold kv_open. fold open. by rewrite Ho. }
  rewrite (Migrate_unfold _ _ _ He Hopen) in HM.
  destruct ((reset_ dbParams;; after_reset dbParams) w0) as [w3 o] eqn:Hb.
  assert (Ha : exists evs, trace w3 = trace w0 ++ evs).
  { revert Hb. generalize w0 w3 o.
    change (appends (reset_ dbParams;; after_reset dbParams)).
    apply appends_bind.
    - intros wa wb ob Hr. apply reset_facts in Hr as (_ & (evs & Hevs & _) & _). eauto.
    - intros _ wa wb ob Har. apply after_reset_trace in Har as (r0 & rest & Har). eauto. }
  destruct Ha as [evs Ha].
  assert (w' = store_close env w3) as ->.
  { unfold result in HM. destruct o; by inversion HM. }
  exists evs, (env (trace w3) store_Close).
  simpl. rewrite Ha. simpl. by rewrite <- !app_assoc.
Qed.

(** X17.  A failure to drop the source tables comes after the completion
    marker: when every task has succeeded and the completion constant has
    been written, and the statement that drops the tables of the packages
    is refused, [Migrate] returns that error, wrapped, although the store
    is complete and its marker says so.  The relational source keeps its
    tables and the staging directory stays. *)
Theorem Migrate_drop_failure_after_completion
    (dbParams : Database) (w w1 w2 : World) (tmpDir : string) (g : Group)
    (e : error) :
  reaches dbParams w w1 tmpDir ->
  Wait_ tmpDir (Go kvPkgs) w1 = (w2, g) ->
  Forall (fun t => t = Finished None) (tasks g) ->
  let mark := store_Set DBVersionPath (Itoa InitialMigrateVersion) in
  let idents := map Sanitize all_tables in
  let drop := pool_Exec (DropTableIfExists idents) in
  let t3 := trace w2 ++ [Call mark None] in
  env (trace w2) mark = None ->
  DropTables dbParams = true -> all_tables <> [] ->
  env t3 drop = Some e ->
  exists w' rc,
    Migrate_ dbParams w
    = (w', Some (Errorf ("failed during drop tables: " ++ show_strings idents
                         ++ ". Please perform manual cleanup of old database tables: ")
                   e)) /\
    trace w' = t3 ++ [Call drop (Some e); Call store_Close rc] /\
    (exists m : gmap string string,
       table w' = Some m /\ m !! DBVersionPath = Some (Itoa InitialMigrateVersion)) /\
    relations w' = relations w2 /\
    tmpDir ∈ dirs w'.
Proof.
  intros Hreach HW Hall mark idents drop t3 Hmark Hdrop Hne Hfail.
  destruct (Wait_facts _ _ _ _ _ _ Hreach HW) as (_ & (m2 & Hm2 & _) & Hdir & _).
  rewrite (Migrate_reaches _ _ _ _ Hreach), HW.
  unfold ErrorOrNil. rewrite (all_succeeded_errors _ _ _ _ HW Hall).
  unfold finish, result.
  cbv beta iota zeta delta [check return_ mbind M_bind mret M_ret].
  unfold store_set. fold mark. rewrite Hmark, Hm2. cbn [Set_].
  cbv beta iota zeta. rewrite Hdrop. unfold dropTables.
  destruct all_tables as [|t0 ts] eqn:Hat; [done|].
  cbn [length Nat.ltb Nat.leb].
  cbv beta iota zeta delta [check return_ mbind M_bind mret M_ret pool_exec].
  cbn [trace record with_table]. fold idents drop t3. rewrite Hfail.
  cbv beta iota zeta. eexists _, _. split; [reflexivity|].
  cbn [trace record store_close with_table table relations dirs].
  repeat split; try done.
  - by rewrite <- app_assoc.
  - eexists. split; [reflexivity|]. apply lookup_insert_eq.
Qed.

(** *** The order of the tasks does not matter *)

(** The calls of the provider tasks are never refused. *)
Definition tasks_undisturbed : Prop :=
  forall t c, (match c with
               | os_CreateTemp _ _ | file_Seek _ => True
               | _ => False
               end) -> env t c = None.

(** A provider that, for the relational source [rels], exports a header
    [Import] accepts and then the pairs [kvs], one object each, and
    answers nil. *)
Definition well_formed (rels : gset string) (p : pkgMigrate)
    (kvs : list (string * string)) : Prop :=
  exists hdr jd,
    Func p rels = (hdr :: jd, None) /\ header_ok hdr /\
    Forall2 ImportMore.complete_entry jd kvs.

(** The pairs a task has still to write, for a task that cannot fail on
    its own. *)
Inductive exports (rels : gset string) : task -> list (string * string) -> Prop :=
| exports_pending name p kvs :
    well_formed rels p kvs -> exports rels (Pending name p) kvs
| exports_importing name jd entry kvs :
    Forall2 ImportMore.complete_entry jd kvs ->
    exports rels (Importing name jd entry) kvs
| exports_finished : exports rels (Finished None) [].

(** The tasks of the group export [kvss]; together with the store they
    make up [target], and no key is there twice. *)
Record on_course (rels : gset string) (target : gmap string string)
    (kvss : list (list (string * string))) (s : World * Group) : Prop := {
  course_relations : relations s.1 = rels;
  course_errors : errors s.2 = [];
  course_tasks : Forall2 (exports rels) (tasks s.2) kvss;
  course_store : exists m : gmap string string,
    table s.1 = Some m /\
    NoDup (concat kvss).*1 /\
    (forall k, k ∈ (concat kvss).*1 -> k <> "" /\ m !! k = None) /\
    list_to_map (concat kvss) ∪ m = target
}.

Lemma concat_insert_middle {A} (ls : list (list A)) i (l l' : list A) :
  ls !! i = Some l ->
  exists a b, concat ls = a ++ l ++ b /\ concat (<[i:=l']> ls) = a ++ l' ++ b.
Proof.
  intros Hi. assert (Hlt : i < length ls) by by eapply lookup_lt_Some.
  exists (concat (take i ls)), (concat (drop (S i) ls)). split.
  - rewrite <- (take_drop_middle ls i l Hi) at 1. by rewrite concat_app.
  - rewrite insert_take_drop by done. by rewrite concat_app.
Qed.

Lemma group_step_on_course tmpDir rels target kvss i s :
  tasks_undisturbed ->
  on_course rels target kvss s ->
  exists kvss', on_course rels target kvss' (group_step env tmpDir i s).
Proof.
  intros Hq [HR HE HT (m & Hm & Hnd & Hfr & Htar)]. destruct s as [w g]. simpl in *.
  unfold group_step. destruct (tasks g !! i) as [t|] eqn:Hi;
    [|exists kvss; split; eauto].
  destruct (is_finished t) eqn:Hfin; [exists kvss; split; eauto|].
  destruct (Forall2_lookup_l _ _ _ _ _ HT Hi) as (kvs & Hki & Hex).
  destruct Hex as [name p kvs (hdr & jd & Hf & Hh & Hc)|name jd entry kvs Hc|];
    [| |discriminate].
  - (* the task starts: lines 88-103 and the header *)
    exists kvss. cbn [task_step]. unfold plain_call. cbn [trace record relations].
    rewrite (Hq _ (os_CreateTemp _ _) I), HR, Hf, (Hq _ (file_Seek _) I).
    rewrite (header_ok_inv _ jd Hh).
    split; simpl; try done.
    + rewrite <- (list_insert_id kvss i kvs Hki).
      apply Forall2_insert; [done|]. by constructor.
    + exists m. split; [done|]. split; [done|]. by split.
  - destruct Hc as [|fr [k v] jd kvs (o & -> & Hk & Hv) Hc].
    + (* the end of the file *)
      exists kvss. cbn [task_step Decode loop_body]. simpl.
      split; simpl; try done.
      * rewrite <- (list_insert_id kvss i [] Hki).
        apply Forall2_insert; [done|]. constructor.
      * exists m. rewrite Hm. split; [done|]. split; [done|]. by split.
    + (* one entry *)
      simpl in Hk, Hv. exists (<[i:=kvs]> kvss).
      destruct (concat_insert_middle kvss i ((k, v) :: kvs) kvs Hki)
        as (a & b & Ha & Hb).
      assert (HP : concat kvss ≡ₚ (k, v) :: concat (<[i:=kvs]> kvss)).
      { rewrite Ha, Hb. change (((k, v) :: kvs) ++ b) with ((k, v) :: (kvs ++ b)).
        symmetry. apply Permutation_middle. }
      assert (Hnd' : NoDup ((k, v) :: concat (<[i:=kvs]> kvss)).*1).
      { by rewrite <- HP. }
      rewrite fmap_cons in Hnd'. apply NoDup_cons in Hnd' as [Hnew Hnd'].
      destruct (Hfr k) as [Hne Hfree]; [rewrite HP, fmap_cons; by left|].
      cbn [task_step Decode decode_value]. unfold unmarshal, Entry_unmarshal.
      rewrite Hk, Hv. cbn [store_slice loop_body Key Value len slice_data default].
      destruct k as [|c k]; [done|]. cbn [String.length Nat.eqb].
      rewrite Hm. unfold SetIf, id.
      destruct (decide (m !! String c k = None)); [|done].
      split; simpl; try done.
      * apply Forall2_insert; [done|]. by constructor.
      * exists (<[String c k:=v]> m). split; [done|]. split; [done|]. split.
        { intros k' Hk'. destruct (Hfr k') as [Hne' Hfree'].
          { rewrite HP, fmap_cons. by right. }
          split; [done|]. apply lookup_insert_None. split; [done|].
          intros <-. done. }
        rewrite <- Htar.
        rewrite (list_to_map_proper (concat kvss)
                   ((String c k, v) :: concat (<[i:=kvs]> kvss)));
          [|done|done].
        cbn [list_to_map foldr uncurry]. rewrite <- insert_union_l.
        symmetry. apply insert_union_r. by apply not_elem_of_list_to_map_1.
Qed.

Lemma run_schedule_on_course tmpDir rels target sched : forall kvss s,
  tasks_undisturbed ->
  on_course rels target kvss s ->
  exists kvss', on_course rels target kvss' (run_schedule env tmpDir sched s).
Proof.
  induction sched as [|i sched IH]; intros kvss s Hq Hs; [by exists kvss|].
  rewrite run_schedule_cons.
  destruct (group_step_on_course tmpDir _ _ _ i _ Hq Hs) as [kvss1 H1].
  by apply (IH kvss1).
Qed.

Lemma exports_Go rels pkgs kvss :
  Forall2 (fun np kvs => well_formed rels np.2 kvs) pkgs kvss ->
  Forall2 (exports rels) (tasks (Go pkgs)) kvss.
Proof.
  unfold Go. simpl. induction 1 as [|[n p] kvs pkgs kvss H _ IH]; simpl;
    constructor; [by constructor | done].
Qed.

(** Every schedule of well-formed tasks with distinct, free keys ends
    without an error, on the same store. *)
Lemma any_order_ends_well
    (tmpDir : string) (w w' : World) (g : Group) (m : gmap string string)
    (kvss : list (list (string * string))) :
  tasks_undisturbed ->
  table w = Some m ->
  Forall2 (fun np kvs => well_formed (relations w) np.2 kvs) kvPkgs kvss ->
  NoDup (concat kvss).*1 ->
  (forall k, k ∈ (concat kvss).*1 -> k <> "" /\ m !! k = None) ->
  Wait_ tmpDir (Go kvPkgs) w = (w', g) ->
  Forall (fun t => t = Finished None) (tasks g) /\
  errors g = [] /\
  table w' = Some (list_to_map (concat kvss) ∪ m).
Proof.
  intros Hq Hm Hwf Hnd Hfr HW.
  assert (H0 : on_course (relations w) (list_to_map (concat kvss) ∪ m) kvss
                 (w, Go kvPkgs)).
  { split; simpl; try done; [by apply exports_Go|].
    exists m. split; [done|]. split; [done|]. by split. }
  pose proof (Wait_finished _ _ _ _ _ HW) as Hfin.
  unfold Wait in HW.
  destruct (run_schedule_on_course tmpDir _ _ schedule _ _ Hq H0) as [kvss1 H1].
  destruct (run_schedule env tmpDir schedule (w, Go kvPkgs)) as [w1 g1].
  destruct (run_schedule_on_course tmpDir _ _ (completion w1 g1) _ _ Hq H1)
    as [kvss2 H2].
  rewrite HW in H2. destruct H2 as [_ HE HT (m2 & Hm2 & _ & _ & Htar)]. simpl in *.
  assert (Hdone : Forall (fun t => t = Finished None) (tasks g) /\ concat kvss2 = []).
  { clear -Hfin HT. induction HT as [|t kvs ts kvss Hex _ IH]; [done|].
    apply Forall_cons in Hfin as [Ht Hfin]. destruct (IH Hfin) as [IH1 IH2].
    destruct Hex; try discriminate. split; [by constructor | done]. }
  destruct Hdone as [Hall Hnil]. repeat split; try done.
  rewrite Hm2, <- Htar, Hnil. simpl. by rewrite (left_id_L ∅ (∪)).
Qed.

(** X18.  The order in which the provider tasks run does not matter.
    Let every provider of the registry export a header and a list of pairs
    and answer nil, let the keys of all the lists be non-empty, pairwise
    distinct and free in the store, and let no call of a task be refused.
    Then for every schedule of the tasks [g.Wait] finds every task ended
    without an error, and the store is the one the tasks found with
    exactly the exported pairs added. *)
Theorem Wait_any_order
    (tmpDir : string) (w w' : World) (g : Group) (m : gmap string string)
    (kvss : list (list (string * string))) :
  tasks_undisturbed ->
  table w = Some m ->
  Forall2 (fun np kvs => well_formed (relations w) np.2 kvs) kvPkgs kvss ->
  NoDup (concat kvss).*1 ->
  (forall k, k ∈ (concat kvss).*1 -> k <> "" /\ m !! k = None) ->
  Wait_ tmpDir (Go kvPkgs) w = (w', g) ->
  Forall (fun t => t = Finished None) (tasks g) /\
  errors g = [] /\
  table w' = Some (list_to_map (concat kvss) ∪ m).
Proof. apply any_order_ends_well. Qed.

(** *** The store after a run *)

Lemma finish_store dbParams tmpDir tables w2 w3 (m2 : gmap string string) :
  finish_ dbParams tmpDir tables None w2 = (w3, Yield None) ->
  table w2 = Some m2 ->
  DropTables dbParams && negb (length tables <? 1) = false \/
  Sanitize DefaultTableName ∉ map Sanitize tables ->
  table w3 = Some (<[DBVersionPath:=Itoa InitialMigrateVersion]> m2) /\
  (DropTables dbParams && negb (length tables <? 1) = false ->
   relations w3 = relations w2).
Proof.
  intros Hf Hm2 Hkeep. revert Hf. unfold finish.
  cbv beta iota zeta delta [check return_ mbind M_bind mret M_ret].
  unfold store_set.
  destruct (env (trace w2) _) as [es|]; [discriminate|].
  rewrite Hm2. cbn [Set_]. cbv beta iota zeta.
  set (wa := record _ (with_table w2 _)).
  assert (Ha : table wa = Some (<[DBVersionPath:=Itoa InitialMigrateVersion]> m2))
    by reflexivity.
  assert (Hra : relations wa = relations w2) by reflexivity.
  clearbody wa.
  match goal with
  | |- context [?body wa] =>
      lazymatch body with
      | (if DropTables dbParams then _ else _) => idtac
      end;
      assert (Hstep : (exists e, body wa = (record (Call (pool_Exec
                          (DropTableIfExists (map Sanitize tables))) (Some e)) wa,
                                            Returned (Some (Errorf
                          ("failed during drop tables: "
                           +:+ show_strings (map Sanitize tables)
                           +:+ ". Please perform manual cleanup of old database tables: ")
                          e)))) \/
                      exists wb, body wa = (wb, Yield ()) /\ table wb = table wa /\
                        (DropTables dbParams && negb (length tables <? 1) = false ->
                         relations wb = relations wa))
  end.
  { destruct (DropTables dbParams); cbn [andb] in *.
    2:{ right. by exists wa. }
    unfold dropTables. destruct (length tables <? 1); cbn [negb] in *.
    { right. by exists wa. }
    unfold mbind, M_bind, pool_exec, mret, M_ret.
    destruct (env (trace wa) _) as [ed|]; [left; by eexists|].
    right. eexists. split; [reflexivity|]. split; [|done]. simpl.
    destruct Hkeep as [|Hkeep]; [done|]. by rewrite bool_decide_false. }
  destruct Hstep as [[e ->]|(wb & -> & Hb & Hrb)]; [discriminate|].
  unfold os_remove_all.
  destruct (env (trace wb) (os_RemoveAll tmpDir)) as [er|];
    cbv beta iota zeta delta [logging]; intros [= <-]; simpl;
    (split; [congruence|]); intros Hn; rewrite Hrb by done; done.
Qed.

(** X19.  A run from the provider tasks to its end.  Let a run of
    [Migrate] have got to the tasks with the store holding [m1], let the
    providers be well formed with keys that are non-empty, pairwise
    distinct and free in [m1], let no call of a task and no write of the
    marker be refused, and let the source tables not be dropped.  Then
    for every schedule of the tasks [Migrate] returns nil, and the store
    it leaves is [m1] with exactly the exported pairs added and the marker
    at the completion constant; the relational source is untouched. *)
Theorem Migrate_imports_everything
    (dbParams : Database) (w w1 : World) (tmpDir : string)
    (m1 : gmap string string) (kvss : list (list (string * string))) :
  reaches dbParams w w1 tmpDir ->
  table w1 = Some m1 ->
  tasks_undisturbed ->
  (forall t, env t (store_Set DBVersionPath (Itoa InitialMigrateVersion)) = None) ->
  DropTables dbParams = false ->
  Forall2 (fun np kvs => well_formed (relations w1) np.2 kvs) kvPkgs kvss ->
  NoDup (concat kvss).*1 ->
  (forall k, k ∈ (concat kvss).*1 -> k <> "" /\ m1 !! k = None) ->
  exists w',
    Migrate_ dbParams w = (w', None) /\
    table w' = Some (<[DBVersionPath:=Itoa InitialMigrateVersion]>
                       (list_to_map (concat kvss) ∪ m1)) /\
    relations w' = relations w1.
Proof.
  intros Hreach Hm1 Hq Hmark Hdrop Hwf Hnd Hfr.
  destruct (Wait_ tmpDir (Go kvPkgs) w1) as [w2 g] eqn:HW.
  destruct (any_order_ends_well tmpDir w1 w2 g m1 kvss Hq Hm1 Hwf Hnd Hfr HW)
    as (Hall & Herr & Hm2).
  pose proof (Wait_grows tmpDir (Go kvPkgs) w1) as Hg. rewrite HW in Hg.
  destruct Hg as [HR _ _ _ _ _ _]. simpl in HR.
  assert (Hnodrop : DropTables dbParams && negb (length all_tables <? 1) = false)
    by by rewrite Hdrop.
  destruct (finish_succeeds dbParams w w1 w2 tmpDir g Hreach HW Hall (Hmark _))
    as (w' & rc & HM & _); [by rewrite Hnodrop|].
  exists w'. split; [done|].
  rewrite (Migrate_reaches _ _ _ _ Hreach), HW in HM.
  unfold ErrorOrNil in HM. rewrite Herr in HM.
  destruct (finish_ dbParams tmpDir all_tables None w2) as [w3 o] eqn:Hf.
  pose proof (finish_cases _ _ _ _ _ _ _ Hf)
    as (rs & evs & _ & _ & [(e & -> & _)|(-> & _)]);
    [unfold result in HM; by inversion HM|].
  destruct (finish_store _ _ _ _ _ _ Hf Hm2 (or_introl Hnodrop)) as [Ht Hrel].
  unfold result in HM. injection HM as <-. simpl.
  split; [done|]. by rewrite Hrel, HR.
Qed.

(** *** The statement of dropTables *)

(** The name PostgreSQL reads from a quoted identifier: the text between
    the quotes, a doubled quote standing for one quote.  [None] when the
    text does not start with a quote, or the identifier is not closed, or
    it is closed before the end of the text. *)
Fixpoint unquote_body (s : string) : option string :=
  match s with
  | EmptyString => None
  | String c s' =>
      if Ascii.eqb c dquote then
        match s' with
        | EmptyString => Some EmptyString
        | String d s'' =>
            if Ascii.eqb d dquote
            then String dquote <$> unquote_body s''
            else None
        end
      else String c <$> unquote_body s'
  end.

Definition unquote (s : string) : option string :=
  match s with
  | EmptyString => None
  | String c s' => if Ascii.eqb c dquote then unquote_body s' else None
  end.

(** The name without its NUL bytes. *)
Fixpoint strip_nul (s : string) : string :=
  match s with
  | EmptyString => EmptyString
  | String c s' =>
      if Ascii.eqb c "000" then strip_nul s' else String c (strip_nul s')
  end.

Definition nul_free (s : string) : Prop := strip_nul s = s.

Lemma unquote_body_escape t :
  unquote_body (escape_ident t ++ String dquote EmptyString)%string
  = Some (strip_nul t).
Proof.
  induction t as [|c t IH]; [reflexivity|]. cbn [escape_ident strip_nul].
  destruct (Ascii.eqb c "000") eqn:Hnul; [exact IH|].
  destruct (Ascii.eqb c dquote) eqn:Hq.
  - apply Ascii.eqb_eq in Hq as ->.
    change (unquote_body (String dquote (String dquote (escape_ident t))
                          ++ String dquote EmptyString)%string)
      with (String dquote <$> unquote_body
              (escape_ident t ++ String dquote EmptyString)%string).
    by rewrite IH.
  - change (unquote_body (String c (escape_ident t) ++ String dquote EmptyString)%string)
      with (if Ascii.eqb c dquote
            then match (escape_ident t ++ String dquote EmptyString)%string with
                 | EmptyString => Some EmptyString
                 | String d s'' =>
                     if Ascii.eqb d dquote
                     then String dquote <$> unquote_body s''
                     else None
                 end
            else String c <$> unquote_body
                   (escape_ident t ++ String dquote EmptyString)%string).
    by rewrite Hq, IH.
Qed.

Lemma unquote_Sanitize t : unquote (Sanitize t) = Some (strip_nul t).
Proof. apply unquote_body_escape. Qed.

Lemma Sanitize_inj t1 t2 :
  nul_free t1 -> nul_free t2 -> Sanitize t1 = Sanitize t2 -> t1 = t2.
Proof.
  unfold nul_free. intros H1 H2 Heq.
  pose proof (unquote_Sanitize t1) as U1. rewrite Heq, unquote_Sanitize in U1.
  congruence.
Qed.

(** X20.  [dropTables] of at least one table sends one statement, which
    names the tables in the order given, each as a quoted identifier that
    reads back as the name of the table (without NUL bytes): no name can
    end its identifier early.  When the statement is refused, [dropTables]
    answers the error, wrapped with the list of identifiers, and nothing
    is dropped.  When it is accepted, and the names have no NUL bytes, the
    relational source loses exactly the tables named. *)
Theorem dropTables_names_exactly (tables : list string) (w : World) :
  tables <> [] ->
  let idents := map Sanitize tables in
  let q := pool_Exec (DropTableIfExists idents) in
  Forall2 (fun ident t => unquote ident = Some (strip_nul t)) idents tables /\
  match env (trace w) q with
  | Some e =>
      dropTables DefaultTableName env tables w
      = (record (Call q (Some e)) w,
         Yield (Some (Errorf ("failed during drop tables: " ++ show_strings idents
                              ++ ". Please perform manual cleanup of old database tables: ")
                        e)))
  | None =>
      exists w',
        dropTables DefaultTableName env tables w = (w', Yield None) /\
        trace w' = trace w ++ [Call q None] /\ dirs w' = dirs w /\
        (Forall nul_free tables ->
         (forall t, t ∈ relations w -> nul_free t) ->
         relations w' = relations w ∖ list_to_set tables)
  end.
Proof.
  intros Hne idents q. split.
  { subst idents. clear. induction tables as [|t ts IH]; simpl; constructor;
      [apply unquote_Sanitize | exact IH]. }
  assert (Hlen : (length tables <? 1) = false) by by destruct tables.
  unfold dropTables. rewrite Hlen.
  unfold mbind, M_bind, pool_exec, mret, M_ret. subst q idents.
  destruct (env (trace w) _) as [e|]; [reflexivity|].
  eexists. split; [reflexivity|]. split; [done|]. split; [done|].
  intros Hnul Hrel. simpl. apply set_eq. intros t.
  rewrite elem_of_filter, elem_of_difference, elem_of_list_to_set.
  split.
  - intros [Hnot Hin]. split; [done|]. intros Ht. apply Hnot.
    apply list_elem_of_fmap. by exists t.
  - intros [Hin Hnot]. split; [|done]. intros Ht.
    apply list_elem_of_fmap in Ht as (t' & Heq & Ht'). apply Hnot.
    rewrite (Sanitize_inj t t'); [done | by apply Hrel | | done].
    rewrite Forall_forall in Hnul. by apply Hnul.
Qed.

(** *** From one run to the next *)

Lemma validateVersion_marker (m : gmap string string) raw version :
  m !! DBVersionPath = Some raw -> Atoi raw = Some version ->
  validateVersion_ (Some m) = ((version <? InitialMigrateVersion)%Z, None).
Proof.
  unfold validateVersion, GetDBVersion, Get. intros -> Ha. simpl. by rewrite Ha.
Qed.

(** A run that finds a marker below the completion constant starts, once
    the store is open, by dropping the table of the store. *)
Lemma stale_run_starts_with_reset dbParams w w' r (m : gmap string string) :
  KVEnabled dbParams = true ->
  table w = Some m ->
  validateVersion_ (Some m) = (true, None) ->
  env (trace w) (kv_Open DriverName (ConnectionString dbParams)) = None ->
  Migrate_ dbParams w = (w', r) ->
  exists rd rest,
    trace w'
    = trace w ++ [Call (kv_Open DriverName (ConnectionString dbParams)) None;
                  Log "warning" "Removing KV table";
                  Call (pool_Exec reset_statement) rd] ++ rest.
Proof.
  intros He Hm Hv Ho HM.
  set (open := kv_Open DriverName (ConnectionString dbParams)) in *.
  set (w0 := record (Call open None) (with_table w (Some (default ∅ (table w))))).
  assert (Hopen : kv_open DriverName env (ConnectionString dbParams) w
                  = (w0, Yield None)).
  { unfold kv_open. fold open. by rewrite Ho. }
  rewrite (Migrate_unfold _ _ _ He Hopen) in HM.
  unfold mbind, M_bind in HM. rewrite reset_spec in HM.
  assert (Ht0 : table w0 = Some m) by (simpl; by rewrite Hm).
  rewrite Ht0, Hv in HM. cbn zeta in HM.
  destruct (env (trace (record (Log "warning" "Removing KV table") w0)) _)
    as [e|] eqn:Hd.
  { injection HM as <- <-. eexists _, [_]. simpl. by rewrite <- !app_assoc. }
  destruct (env _ (kv_Open _ _)) as [e|] eqn:Ho2.
  { injection HM as <- <-. eexists _, [_; _]. simpl. by rewrite <- !app_assoc. }
  match type of HM with result (after_reset dbParams ?wc) = _ =>
    destruct (after_reset dbParams wc) as [w3 o] eqn:Ha
  end.
  apply after_reset_trace in Ha as (r0 & rest & Ht).
  assert (w' = store_close env w3) as ->.
  { unfold result in HM. destruct o; by inversion HM. }
  eexists _, (_ :: _ :: _ :: rest ++ [_]).
  simpl. rewrite Ht. simpl. rewrite <- !app_assoc. simpl. reflexivity.
Qed.

(** X21.  A failed run is taken back by the next one.  When a provider
    task has failed, [Migrate] returns the errors of the tasks and leaves
    the in-progress marker in the store; with a completion constant above
    zero, the next run of [Migrate] on the world the failed run left
    reads that marker as stale and, once the store is open, warns and
    sends the statement that drops the table of the store before anything
    else. *)
Theorem Migrate_takes_back_failed_run
    (dbParams : Database) (w w1 w2 : World) (tmpDir : string) (g : Group) :
  (0 < InitialMigrateVersion)%Z ->
  reaches dbParams w w1 tmpDir ->
  Wait_ tmpDir (Go kvPkgs) w1 = (w2, g) ->
  failures (tasks g) <> [] ->
  let w' := store_close env w2 in
  let open := kv_Open DriverName (ConnectionString dbParams) in
  Migrate_ dbParams w = (w', Some (MultiErr (errors g))) /\
  (env (trace w') open = None ->
   forall w'' r,
     Migrate_ dbParams w' = (w'', r) ->
     exists rd rest,
       trace w''
       = trace w' ++ [Call open None; Log "warning" "Removing KV table";
                      Call (pool_Exec reset_statement) rd] ++ rest).
Proof.
  intros Hpos Hreach HW Hfail w' open.
  pose proof (Wait_errors _ _ _ _ HW) as HP.
  destruct (Wait_facts _ _ _ _ _ _ Hreach HW) as (_ & (m & Hm & Hk) & _ & _).
  split.
  - rewrite (Migrate_reaches _ _ _ _ Hreach), HW.
    unfold ErrorOrNil. destruct (errors g) as [|e es] eqn:He; [|reflexivity].
    exfalso. apply Hfail. by apply Permutation_nil_l in HP.
  - intros Ho w'' r HM.
    assert (He : KVEnabled dbParams = true) by by destruct Hreach.
    apply (stale_run_starts_with_reset dbParams w' w'' r m He); try done.
    rewrite (validateVersion_marker m "0" 0%Z Hk eq_refl).
    f_equal. by apply Z.ltb_lt.
Qed.

(** X22.  The marker [Migrate] writes reads back as the number written.
    A store whose marker holds the decimal text of a number in the range
    of an [int] passes the check of the version exactly when the number
    is not below the completion constant.  So a store that [Migrate] has
    marked complete is not reset by a later run: the first call of that
    run, once the store is open, is the write of the in-progress marker,
    which replaces the completion constant. *)
Theorem Migrate_on_completed_store
    (dbParams : Database) (w w' : World) (r : option error)
    (m : gmap string string) :
  (forall version : Z,
     (- 2 ^ 63 <= version < 2 ^ 63)%Z ->
     m !! DBVersionPath = Some (Itoa version) ->
     validateVersion_ (Some m) = ((version <? InitialMigrateVersion)%Z, None)) /\
  ((- 2 ^ 63 <= InitialMigrateVersion < 2 ^ 63)%Z ->
   KVEnabled dbParams = true ->
   table w = Some m ->
   m !! DBVersionPath = Some (Itoa InitialMigrateVersion) ->
   env (trace w) (kv_Open DriverName (ConnectionString dbParams)) = None ->
   Migrate_ dbParams w = (w', r) ->
   exists r0 rest,
     trace w'
     = trace w ++ [Call (kv_Open DriverName (ConnectionString dbParams)) None;
                   Call (store_Set DBVersionPath "0") r0] ++ rest).
Proof.
  split.
  { intros version Hv Hm. apply (validateVersion_marker m _ _ Hm).
    by apply StrconvFacts.Atoi_Itoa. }
  intros Hrange He Hm Hk Ho HM.
  set (open := kv_Open DriverName (ConnectionString dbParams)) in *.
  set (w0 := record (Call open None) (with_table w (Some (default ∅ (table w))))).
  assert (Hopen : kv_open DriverName env (ConnectionString dbParams) w
                  = (w0, Yield None)).
  { unfold kv_open. fold open. by rewrite Ho. }
  rewrite (Migrate_unfold _ _ _ He Hopen) in HM.
  unfold mbind, M_bind in HM. rewrite reset_spec in HM.
  assert (Ht0 : table w0 = Some m) by (simpl; by rewrite Hm).
  rewrite Ht0 in HM.
  rewrite (validateVersion_marker m _ _ Hk (StrconvFacts.Atoi_Itoa _ Hrange)) in HM.
  rewrite Z.ltb_irrefl in HM.
  destruct (after_reset dbParams w0) as [w3 o] eqn:Ha.
  apply after_reset_trace in Ha as (r0 & rest & Ht).
  assert (w' = store_close env w3) as ->.
  { unfold result in HM. destruct o; by inversion HM. }
  exists r0, (rest ++ [Call store_Close (env (trace w3) store_Close)]).
  simpl. rewrite Ht. simpl. by rewrite <- !app_assoc.
Qed.

(** *** A task that fails does not hold back the others *)

(** One step of a task that cannot fail on its own: it goes on without a
    write, or writes the first of its pairs. *)
Lemma task_step_exports tmpDir rels t kvs w (m : gmap string string) :
  tasks_undisturbed ->
  relations w = rels -> table w = Some m ->
  exports rels t kvs -> is_finished t = false ->
  (forall k v kvs', kvs = (k, v) :: kvs' -> k <> "" /\ m !! k = None) ->
  exists w' t',
    task_step env tmpDir t w = (w', t') /\ relations w' = rels /\
    ((table w' = Some m /\ exports rels t' kvs) \/
     (exists k v kvs',
        kvs = (k, v) :: kvs' /\ table w' = Some (<[k:=v]> m) /\
        exports rels t' kvs')).
Proof.
  intros Hq HR Hm Hex Hfin Hfr.
  destruct Hex as [name p kvs (hdr & jd & Hf & Hh & Hc)|name jd entry kvs Hc|];
    [| |discriminate].
  - cbn [task_step]. unfold plain_call. cbn [trace record relations].
    rewrite (Hq _ (os_CreateTemp _ _) I), HR, Hf, (Hq _ (file_Seek _) I).
    rewrite (header_ok_inv _ jd Hh).
    eexists _, _. split; [reflexivity|]. split; [done|]. left.
    split; [done | by constructor].
  - destruct Hc as [|fr [k v] jd kvs (o & -> & Hk & Hv) Hc].
    + cbn [task_step Decode loop_body]. simpl.
      eexists _, _. split; [reflexivity|]. split; [done|]. left.
      split; [done | constructor].
    + simpl in Hk, Hv. destruct (Hfr k v kvs eq_refl) as [Hne Hfree].
      cbn [task_step Decode decode_value]. unfold unmarshal, Entry_unmarshal.
      rewrite Hk, Hv. cbn [store_slice loop_body Key Value len slice_data default].
      destruct k as [|c k]; [done|]. cbn [String.length Nat.eqb].
      rewrite Hm. unfold SetIf, id.
      destruct (decide (m !! String c k = None)); [|done].
      eexists _, _. split; [reflexivity|]. split; [done|]. right.
      eexists _, _, _. split; [reflexivity|]. split; [done | by constructor].
Qed.

(** Task [i] is on its way to writing [all]: [written] is in the store,
    [kvs] is still to come, and no other task has any key of [all] among
    the keys it may still write. *)
Record undisturbed_task (rels : gset string) (i : nat)
    (all : list (string * string)) (s : World * Group) : Prop := {
  alone_relations : relations s.1 = rels;
  alone_progress : exists (m : gmap string string) t written kvs,
    table s.1 = Some m /\ tasks s.2 !! i = Some t /\ exports rels t kvs /\
    all = written ++ kvs /\
    (forall k v, (k, v) ∈ written -> m !! k = Some v) /\
    NoDup kvs.*1 /\
    (forall k, k ∈ kvs.*1 -> k <> "" /\ m !! k = None);
  alone_others : forall j t k,
    j <> i -> tasks s.2 !! j = Some t -> k ∈ all.*1 -> k ∉ pending_keys rels t
}.

Lemma group_step_undisturbed tmpDir rels i all j s :
  tasks_undisturbed ->
  undisturbed_task rels i all s ->
  undisturbed_task rels i all (group_step env tmpDir j s).
Proof.
  intros Hq [HR (m & t & written & kvs & Hm & Hi & Hex & Hall & Hw & Hnd & Hfr) Ho].
  destruct s as [w g]. cbn [fst snd] in *.
  destruct (group_step env tmpDir j (w, g)) as [w' g'] eqn:Hs.
  apply group_step_spec in Hs as [[= -> ->]|(tj & tj' & Hj & Hfin & Hstep & Ht & _)].
  { split; [done| |done]. exists m, t, written, kvs. repeat split; auto; by apply Hfr. }
  destruct (decide (j = i)) as [->|Hne].
  - (* the task itself takes a step *)
    rewrite Hi in Hj. injection Hj as <-.
    destruct (task_step_exports tmpDir rels t kvs w m Hq HR Hm Hex Hfin)
      as (w1 & t1 & Hstep1 & HR1 & Hcase).
    { intros k v kvs' ->. apply Hfr. rewrite fmap_cons. by left. }
    rewrite Hstep in Hstep1. injection Hstep1 as <- <-.
    assert (Hlt : i < length (tasks g)) by by eapply lookup_lt_Some.
    split; simpl; [done| |].
    + destruct Hcase as [[Hm1 Hex1]|(k & v & kvs' & -> & Hm1 & Hex1)].
      * exists m, tj', written, kvs. rewrite Ht, list_lookup_insert_eq by done.
        repeat split; auto; by apply Hfr.
      * rewrite fmap_cons in Hnd. apply NoDup_cons in Hnd as [Hnew Hnd].
        destruct (Hfr k) as [_ Hfree]; [rewrite fmap_cons; by left|].
        exists (<[k:=v]> m), tj', (written ++ [(k, v)]), kvs'.
        rewrite Ht, list_lookup_insert_eq by done.
        split; [done|]. split; [done|]. split; [done|].
        split; [by rewrite <- app_assoc|]. split; [|split; [done|]].
        -- intros k0 v0 [Hin|Hin%list_elem_of_singleton]%elem_of_app.
           ++ rewrite lookup_insert_ne; [by apply Hw|].
              intros <-. apply Hw in Hin. congruence.
           ++ injection Hin as -> ->. apply lookup_insert_eq.
        -- intros k' Hk'. destruct (Hfr k') as [Hne' Hfree'].
           { rewrite fmap_cons. by right. }
           split; [done|]. apply lookup_insert_None. split; [done|].
           intros <-. done.
    + intros j t0 k Hj0 Hlook. rewrite Ht, list_lookup_insert_ne in Hlook by done.
      by apply (Ho j t0 k).
  - (* another task takes a step *)
    apply task_step_spec in Hstep as (HR1 & _ & _ & Hst); [|done].
    assert (Hlt : j < length (tasks g)) by by eapply lookup_lt_Some.
    assert (Hkeep : forall k, k ∈ all.*1 -> k ∉ pending_keys rels tj').
    { intros k Hk. specialize (Ho j tj k Hne Hj Hk).
      destruct Hst as [e _ ->|n e _ _ ->|n p h jd _ -> Hfd ->
                      |n o jd e m0 k0 v0 -> -> _ _ _ _ _]; simpl in *.
      - apply not_elem_of_nil.
      - apply not_elem_of_nil.
      - rewrite <- HR, Hfd in Ho. exact Ho.
      - intros Hin. apply Ho. by right. }
    split; simpl; [congruence| |].
    + destruct Hst as [e Htab _|n e Htab _ _|n p h jd Htab _ _ _
                      |n o jd e m0 k0 v0 Htj _ Hk0 _ Hm0 Hfree Htab].
      1-3: exists m, t, written, kvs; rewrite Ht, list_lookup_insert_ne by done;
           rewrite Htab; repeat split; auto; by apply Hfr.
      rewrite Hm in Hm0. injection Hm0 as <-.
      assert (Hk0' : k0 ∉ all.*1).
      { intros Hin. apply (Ho j tj k0 Hne Hj Hin). rewrite Htj.
        change (pending_keys rels (Importing n (Obj o :: jd) e))
          with (slice_data (Key (unmarshal o e).1) :: keys_of jd (unmarshal o e).1).
        rewrite Hk0. by left. }
      exists (<[k0:=v0]> m), t, written, kvs.
      rewrite Ht, list_lookup_insert_ne by done.
      split; [done|]. split; [done|]. split; [done|]. split; [done|].
      split; [|split; [done|]].
      * intros k v Hin. rewrite lookup_insert_ne; [by apply Hw|].
        intros <-. apply Hk0'. rewrite Hall, fmap_app. apply elem_of_app. left.
        apply list_elem_of_fmap. by exists (k0, v).
      * intros k Hk. destruct (Hfr k Hk) as [Hne' Hfree'].
        split; [done|]. apply lookup_insert_None. split; [done|].
        intros <-. apply Hk0'. rewrite Hall, fmap_app. apply elem_of_app. by right.
    + intros j0 t0 k Hj0 Hlook Hk. destruct (decide (j0 = j)) as [->|Hjj].
      * rewrite Ht, list_lookup_insert_eq in Hlook by done.
        injection Hlook as <-. by apply Hkeep.
      * rewrite Ht, list_lookup_insert_ne in Hlook by done. by apply (Ho j0).
Qed.

Lemma run_schedule_undisturbed tmpDir rels i all sched : forall s,
  tasks_undisturbed ->
  undisturbed_task rels i all s ->
  undisturbed_task rels i all (run_schedule env tmpDir sched s).
Proof.
  induction sched as [|j sched IH]; intros s Hq Hs; [done|].
  rewrite run_schedule_cons. apply IH; [done|]. by apply group_step_undisturbed.
Qed.

(** X23.  A provider whose export is well formed, with keys that are
    non-empty, distinct, free in the store and exported by no other
    provider, is imported whole whatever becomes of the other providers:
    for every schedule its task ends without an error and its pairs are in
    the store, also when other tasks fail.  No task is cancelled because
    another one has failed. *)
Theorem Wait_isolates_failures
    (tmpDir : string) (w w' : World) (g : Group) (m : gmap string string)
    (i : nat) (name : string) (p : pkgMigrate) (kvs : list (string * string)) :
  tasks_undisturbed ->
  table w = Some m ->
  kvPkgs !! i = Some (name, p) ->
  well_formed (relations w) p kvs ->
  NoDup kvs.*1 ->
  (forall k, k ∈ kvs.*1 -> k <> "" /\ m !! k = None) ->
  (forall j n q k,
     j <> i -> kvPkgs !! j = Some (n, q) -> k ∈ kvs.*1 ->
     k ∉ stream_keys (Func q (relations w)).1) ->
  Wait_ tmpDir (Go kvPkgs) w = (w', g) ->
  tasks g !! i = Some (Finished None) /\
  exists m' : gmap string string,
    table w' = Some m' /\ forall k v, (k, v) ∈ kvs -> m' !! k = Some v.
Proof.
  intros Hq Hm Hi Hwf Hnd Hfr Hothers HW.
  assert (H0 : undisturbed_task (relations w) i kvs (w, Go kvPkgs)).
  { split; simpl; [done| |].
    - exists m, (Pending name p), [], kvs. rewrite list_lookup_fmap, Hi.
      split; [done|]. split; [done|]. split; [by apply exports_pending|].
      split; [done|]. split; [by intros k v Hin%elem_of_nil|]. by split.
    - intros j t k Hne Hj Hk. rewrite list_lookup_fmap in Hj.
      destruct (kvPkgs !! j) as [[n q]|] eqn:Hjq; [|done].
      injection Hj as <-. simpl. by apply (Hothers j n q). }
  pose proof (Wait_finished _ _ _ _ _ HW) as Hfin.
  unfold Wait in HW.
  pose proof (run_schedule_undisturbed tmpDir _ i kvs schedule _ Hq H0) as H1.
  destruct (run_schedule env tmpDir schedule (w, Go kvPkgs)) as [w1 g1].
  pose proof (run_schedule_undisturbed tmpDir _ i kvs (completion w1 g1) _ Hq H1)
    as H2.
  rewrite HW in H2.
  destruct H2 as [_ (m2 & t & written & rest & Hm2 & Ht & Hex & Hall & Hw & _) _].
  simpl in *.
  rewrite Forall_forall in Hfin.
  assert (Hft : is_finished t = true).
  { apply Hfin. by eapply list_elem_of_lookup_2. }
  destruct Hex; try discriminate.
  rewrite app_nil_r in Hall. subst written.
  split; [done|]. by exists m2.
Qed.

(** *** A marker that cannot be read *)

(** X24.  A marker that does not read as a number stops the run before
    it has done anything: [validateVersion] answers the error of the
    conversion, which is not [ErrNotFound]; [Migrate] returns it wrapped,
    having neither written to the store, nor sent a statement, nor made a
    directory.  After opening the store its only call is to close it. *)
Theorem Migrate_unreadable_marker
    (dbParams : Database) (w w' : World) (r : option error)
    (m : gmap string string) (raw : string) :
  KVEnabled dbParams = true ->
  env (trace w) (kv_Open DriverName (ConnectionString dbParams)) = None ->
  table w = Some m ->
  m !! DBVersionPath = Some raw -> Atoi raw = None ->
  Migrate_ dbParams w = (w', r) ->
  exists e rc,
    validateVersion_ (Some m) = (false, Some e) /\
    errors_Is e ErrNotFound = false /\
    r = Some (Errorf "validating version: " e) /\
    trace w' = trace w ++ [Call (kv_Open DriverName (ConnectionString dbParams)) None;
                           Call store_Close rc] /\
    table w' = Some m /\ relations w' = relations w /\ dirs w' = dirs w.
Proof.
  intros He Ho Hm Hk Ha HM.
  set (open := kv_Open DriverName (ConnectionString dbParams)) in *.
  set (w0 := record (Call open None) (with_table w (Some (default ∅ (table w))))).
  assert (Hopen : kv_open DriverName env (ConnectionString dbParams) w
                  = (w0, Yield None)).
  { unfold kv_open. fold open. by rewrite Ho. }
  assert (Hv : validateVersion_ (Some m)
               = (false, Some (ExtErr "strconv.Atoi: invalid syntax"))).
  { unfold validateVersion, GetDBVersion, Get. rewrite Hk. simpl. by rewrite Ha. }
  rewrite (Migrate_unfold _ _ _ He Hopen) in HM.
  unfold mbind, M_bind in HM. rewrite reset_spec in HM.
  assert (Ht0 : table w0 = Some m) by (simpl; by rewrite Hm).
  rewrite Ht0, Hv in HM. injection HM as <- <-.
  eexists _, _. split; [exact Hv|]. split; [done|]. split; [done|].
  simpl. rewrite Hm. repeat split; try done. by rewrite <- app_assoc.
Qed.

End Facts.

(** *** Sample runs *)

Definition no_faults : list event -> call -> option error := fun _ _ => None.

Definition params : Database :=
  {| KVEnabled := true; ConnectionString := "postgres://lakefs"; DropTables := true |}.

(** Two providers with disjoint keys, and a third that repeats a key of
    the first. *)
Definition auth_pkg : pkgMigrate :=
  {| Func := fun _ => ([header_frame; entry_frame (Given "a") (Given "1");
                        entry_frame (Given "b") (Given "2")], None);
     Tables := ["auth_users"] |}.

Definition refs_pkg : pkgMigrate :=
  {| Func := fun _ => ([header_frame; entry_frame (Given "d") (Given "4")], None);
     Tables := ["refs_branches"; "refs_commits"] |}.

Definition clash_pkg : pkgMigrate :=
  {| Func := fun _ => ([header_frame; entry_frame (Given "d") (Given "4");
                        entry_frame (Given "a") (Given "5")], None);
     Tables := ["refs_branches"] |}.

(** A database that was never migrated, and one in which an earlier
    attempt has left the in-progress marker and a key. *)
Definition fresh_world : World :=
  {| table := None; relations := {["auth_users"; "refs_branches"; "refs_commits"]};
     dirs := ∅; trace := [] |}.

Definition stale_world : World :=
  {| table := Some {["kv/db/version" := "0"; "a" := "old"]};
     relations := {["auth_users"; "refs_branches"; "refs_commits"]};
     dirs := ∅; trace := [] |}.

(** Closes [run = ?result] by running the left-hand side. *)
Ltac by_running :=
  lazymatch goal with
  | |- ?lhs = _ =>
      let v := eval vm_compute in lhs in
      exact (@eq_refl _ v <: lhs = v)
  end.

Ltac reaches_by_running :=
  eapply reaches_intro; [reflexivity | by_running ..].

Local Abbreviation Migrate1 pkgs sched :=
  (Migrate 1 "kv/db/version" "kv" "pgx" no_faults pkgs sched).

Lemma Migrate_resets_only_when_stale_witness :
  exists rc r0 rest,
    trace (Migrate1 [("auth", auth_pkg)] [] params stale_world).1
    = [Call (kv_Open "pgx" "postgres://lakefs") None;
       Log "warning" "Removing KV table";
       Call (pool_Exec (DropTableIfExists [Sanitize "kv"])) None;
       Call (kv_Open "pgx" "postgres://lakefs") None;
       Call store_Close rc;
       Call (store_Set "kv/db/version" "0") r0] ++ rest.
Proof.
  pose proof (Migrate_resets_only_when_stale 1 "kv/db/version" "kv" "pgx"
                no_faults [("auth", auth_pkg)] [] params stale_world
                (Migrate1 [("auth", auth_pkg)] [] params stale_world).1
                (Migrate1 [("auth", auth_pkg)] [] params stale_world).2
                eq_refl eq_refl (surjective_pairing _)) as (_ & _ & H).
  exact (proj2 (H eq_refl)).
Defined.

Lemma Migrate_task_failure_witness :
  (Migrate1 [("auth", auth_pkg); ("clash", clash_pkg)] [1; 1; 1; 1; 0]
     params fresh_world).2
  = Some (MultiErr [Errorf "failed import on package auth: " ErrPredicateFailed]).
Proof.
  edestruct (Migrate_task_failure 1 "kv/db/version" "kv" "pgx" no_faults
               [("auth", auth_pkg); ("clash", clash_pkg)] [1; 1; 1; 1; 0]
               params fresh_world) as [H _].
  - reaches_by_running.
  - by_running.
  - vm_compute. discriminate.
  - rewrite H. reflexivity.
Defined.

Lemma Migrate_all_succeed_witness :
  exists w',
    Migrate1 [("auth", auth_pkg); ("refs", refs_pkg)] [0; 1; 0; 1]
      params fresh_world = (w', None) /\
    relations w' = ∅ /\ dirs w' = ∅.
Proof.
  edestruct (Migrate_all_succeed 1 "kv/db/version" "kv" "pgx" no_faults
               [("auth", auth_pkg); ("refs", refs_pkg)] [0; 1; 0; 1]
               params fresh_world) as (w' & rc & H & _).
  - reaches_by_running.
  - by_running.
  - repeat constructor.
  - reflexivity.
  - reflexivity.
  - exists w'. split; [exact H|].
    assert (Hw : w' = (Migrate1 [("auth", auth_pkg); ("refs", refs_pkg)] [0; 1; 0; 1]
                         params fresh_world).1) by (by rewrite H).
    rewrite Hw. split; vm_compute; reflexivity.
Defined.

Lemma dropTables_nothing_to_drop_witness :
  exists w',
    Migrate1 [] [] params fresh_world = (w', None) /\
    relations w' = relations fresh_world.
Proof.
  destruct (dropTables_nothing_to_drop 1 "kv/db/version" "kv" "pgx" no_faults
              [] [] params fresh_world
              (record (Log "info" "Starting KV Migration Process")
                 {| table := Some {["kv/db/version" := "0"]};
                    relations := relations fresh_world;
                    dirs := {["kv_migrate_"]};
                    trace := [Call (kv_Open "pgx" "postgres://lakefs") None;
                              Call (store_Set "kv/db/version" "0") None;
                              Call (os_MkdirTemp "kv_migrate_" "kv_migrate_") None] |})
              "kv_migrate_") as [_ H].
  destruct H as (w' & HM & Hrel & _); try reflexivity.
  - reaches_by_running.
  - exists w'. split; [exact HM | exact Hrel].
Defined.

Lemma Import_no_clobber_and_run_conflict_witness :
  Import [header_frame; entry_frame (Given "a") (Given "1");
          entry_frame (Given "a") (Given "2")] (Some ∅)
  = (Some {["a" := "1"]}, Some (Sentinel ErrPredicateFailed)) /\
  exists w' es,
    Migrate1 [("auth", auth_pkg); ("clash", clash_pkg)] [0; 1; 0; 1]
      params fresh_world = (w', Some (MultiErr es)) /\ es <> [].
Proof.
  destruct (Import_no_clobber_and_run_conflict 1 "kv/db/version" "kv" "pgx"
              no_faults [("auth", auth_pkg); ("clash", clash_pkg)] [0; 1; 0; 1])
    as [HI HR].
  split.
  - refine (proj2 (proj2 (HI header_frame [entry_frame (Given "a") (Given "1")] []
      {| mLakeFSVersion := Absent; mPkgName := Absent; mDBVersion := Absent;
         mTimestamp := Absent; mKey := Given "a"; mValue := Given "2" |}
      (Some ∅) {| Key := Some "a"; KV.Value := Some "1" |} {["a" := "1"]} "a" "2"
      header_frame_ok eq_refl eq_refl _ eq_refl)) _); discriminate.
  - edestruct (HR params fresh_world) as (w' & es & HM & Hes & _).
    + reaches_by_running.
    + intros Hnd. apply (bool_decide_pack _) in Hnd. vm_compute in Hnd. exact Hnd.
    + exists w', es. split; [exact HM | exact Hes].
Defined.

(** *** More sample runs *)

(** A database that refuses every statement, a configuration that keeps
    the source tables, and a store that an earlier run has completed. *)
Definition statements_refused : list event -> call -> option error :=
  fun _ c => match c with
             | pool_Exec _ => Some (ExtErr "permission denied")
             | _ => None
             end.

Definition params_keep : Database :=
  {| KVEnabled := true; ConnectionString := "postgres://lakefs"; DropTables := false |}.

Definition completed_world : World :=
  {| table := Some {["kv/db/version" := "1"; "a" := "1"]};
     relations := {["auth_users"]}; dirs := ∅; trace := [] |}.

Definition open_world : World :=
  {| table := Some {["kv/db/version" := "0"]};
     relations := {["auth_users"; "refs_branches"; "refs_commits"]};
     dirs := {["kv_migrate_"]}; trace := [] |}.

Ltac run_is_pair :=
  lazymatch goal with
  | |- ?run = (?a, ?b) =>
      transitivity (run.1, run.2); [apply surjective_pairing | f_equal; by_running]
  end.

Lemma Migrate_error_keeps_workspace_witness :
  exists evs,
    trace (Migrate1 [("auth", auth_pkg); ("clash", clash_pkg)] [0; 1; 0; 1]
             params fresh_world).1 = trace fresh_world ++ evs /\
    removals_of evs = [].
Proof.
  edestruct (Migrate_error_keeps_workspace 1 "kv/db/version" "kv" "pgx" no_faults
               [("auth", auth_pkg); ("clash", clash_pkg)] [0; 1; 0; 1]
               params fresh_world
               (Migrate1 [("auth", auth_pkg); ("clash", clash_pkg)] [0; 1; 0; 1]
                  params fresh_world).1) as (evs & Ht & Hr & _).
  - run_is_pair.
  - exists evs. split; [exact Ht | exact Hr].
Defined.

Lemma Migrate_nil_means_complete_witness :
  exists tmpDir evs rr,
    trace (Migrate1 [("auth", auth_pkg); ("refs", refs_pkg)] [1; 0; 0; 1]
             params fresh_world).1 = trace fresh_world ++ evs /\
    sets_of evs = [("kv/db/version", "0", None); ("kv/db/version", Itoa 1, None)] /\
    removals_of evs = [(tmpDir, rr)].
Proof.
  edestruct (Migrate_nil_means_complete 1 "kv/db/version" "kv" "pgx" no_faults
               [("auth", auth_pkg); ("refs", refs_pkg)] [1; 0; 0; 1]
               params fresh_world
               (Migrate1 [("auth", auth_pkg); ("refs", refs_pkg)] [1; 0; 0; 1]
                  params fresh_world).1)
    as (w1 & tmpDir & w2 & g & evs & rr & _ & _ & _ & Ht & Hs & Hr).
  - reflexivity.
  - run_is_pair.
  - exists tmpDir, evs, rr. split; [exact Ht|]. split; [exact Hs | exact Hr].
Defined.

Lemma Migrate_closes_store_witness :
  exists evs rc,
    trace (Migrate1 [("auth", auth_pkg); ("clash", clash_pkg)] [0; 1; 0; 1]
             params stale_world).1
    = trace stale_world ++ Call (kv_Open "pgx" "postgres://lakefs") None
                        :: evs ++ [Call store_Close rc].
Proof.
  exact (Migrate_closes_store 1 "kv/db/version" "kv" "pgx" no_faults
           [("auth", auth_pkg); ("clash", clash_pkg)] [0; 1; 0; 1]
           params stale_world
           (Migrate1 [("auth", auth_pkg); ("clash", clash_pkg)] [0; 1; 0; 1]
              params stale_world).1
           (Migrate1 [("auth", auth_pkg); ("clash", clash_pkg)] [0; 1; 0; 1]
              params stale_world).2
           eq_refl (surjective_pairing _)).
Defined.

Lemma Migrate_drop_failure_after_completion_witness :
  exists w' e,
    Migrate 1 "kv/db/version" "kv" "pgx" statements_refused
      [("auth", auth_pkg)] [0; 0] params fresh_world = (w', Some e) /\
    (exists m : gmap string string,
       table w' = Some m /\ m !! "kv/db/version" = Some (Itoa 1)) /\
    relations w' = relations fresh_world.
Proof.
  edestruct (Migrate_drop_failure_after_completion 1 "kv/db/version" "kv" "pgx"
               statements_refused [("auth", auth_pkg)] [0; 0] params fresh_world)
    as (w' & rc & HM & _ & Hm & Hrel & _).
  - reaches_by_running.
  - by_running.
  - repeat constructor.
  - reflexivity.
  - reflexivity.
  - discriminate.
  - reflexivity.
  - exists w'. eexists. split; [exact HM|]. split; [exact Hm | exact Hrel].
Defined.

Lemma Wait_any_order_witness :
  (Wait no_faults [1; 0; 1; 1] "kv_migrate_"
     (Go [("auth", auth_pkg); ("refs", refs_pkg)]) open_world).1.(table)
  = Some (list_to_map [("a", "1"); ("b", "2"); ("d", "4")]
          ∪ {["kv/db/version" := "0"]}).
Proof.
  edestruct (Wait_any_order no_faults [("auth", auth_pkg); ("refs", refs_pkg)]
               [1; 0; 1; 1] "kv_migrate_" open_world
               (Wait no_faults [1; 0; 1; 1] "kv_migrate_"
                  (Go [("auth", auth_pkg); ("refs", refs_pkg)]) open_world).1
               (Wait no_faults [1; 0; 1; 1] "kv_migrate_"
                  (Go [("auth", auth_pkg); ("refs", refs_pkg)]) open_world).2
               {["kv/db/version" := "0"]}
               [[("a", "1"); ("b", "2")]; [("d", "4")]]) as (_ & _ & H).
  - intros t c _. reflexivity.
  - reflexivity.
  - repeat constructor; eexists _, _;
      (split; [reflexivity|]); (split; [apply header_frame_ok|]);
      repeat constructor; eexists; (split; [reflexivity|]); split; reflexivity.
  - apply (bool_decide_unpack _). vm_compute. reflexivity.
  - intros k Hk. simpl in Hk.
    repeat (apply elem_of_cons in Hk as [->|Hk];
            [split; [discriminate | reflexivity]|]).
    now apply elem_of_nil in Hk.
  - apply surjective_pairing.
  - exact H.
Defined.

Lemma Migrate_imports_everything_witness :
  exists w',
    Migrate1 [("auth", auth_pkg); ("refs", refs_pkg)] [1; 1; 0]
      params_keep fresh_world = (w', None) /\
    table w' = Some (<["kv/db/version" := Itoa 1]>
                       (list_to_map [("a", "1"); ("b", "2"); ("d", "4")]
                        ∪ {["kv/db/version" := "0"]})).
Proof.
  edestruct (Migrate_imports_everything 1 "kv/db/version" "kv" "pgx" no_faults
               [("auth", auth_pkg); ("refs", refs_pkg)] [1; 1; 0]
               params_keep fresh_world)
    with (m1 := ({["kv/db/version" := "0"]} : gmap string string))
         (kvss := [[("a", "1"); ("b", "2")]; [("d", "4")]])
    as (w' & HM & Ht & _).
  - reaches_by_running.
  - reflexivity.
  - intros t c _. reflexivity.
  - intros t. reflexivity.
  - reflexivity.
  - repeat constructor; eexists _, _;
      (split; [reflexivity|]); (split; [apply header_frame_ok|]);
      repeat constructor; eexists; (split; [reflexivity|]); split; reflexivity.
  - apply (bool_decide_unpack _). vm_compute. reflexivity.
  - intros k Hk. simpl in Hk.
    repeat (apply elem_of_cons in Hk as [->|Hk];
            [split; [discriminate | reflexivity]|]).
    now apply elem_of_nil in Hk.
  - exists w'. split; [exact HM | exact Ht].
Defined.

Lemma dropTables_names_exactly_witness :
  Forall2 (fun ident t => unquote ident = Some (strip_nul t))
    (map Sanitize ["auth_users"; "refs" +:+ String dquote "; --"])
    ["auth_users"; "refs" +:+ String dquote "; --"].
Proof.
  refine (proj1 (dropTables_names_exactly "kv" no_faults
                   ["auth_users"; "refs" +:+ String dquote "; --"] fresh_world _)).
  discriminate.
Defined.

Lemma Migrate_takes_back_failed_run_witness :
  exists rd rest,
    trace (Migrate1 [("auth", auth_pkg); ("clash", clash_pkg)] [0; 1; 0; 1] params
             (Migrate1 [("auth", auth_pkg); ("clash", clash_pkg)] [0; 1; 0; 1]
                params fresh_world).1).1
    = trace (Migrate1 [("auth", auth_pkg); ("clash", clash_pkg)] [0; 1; 0; 1]
               params fresh_world).1
      ++ [Call (kv_Open "pgx" "postgres://lakefs") None;
          Log "warning" "Removing KV table";
          Call (pool_Exec (DropTableIfExists [Sanitize "kv"])) rd] ++ rest.
Proof.
  edestruct (Migrate_takes_back_failed_run 1 "kv/db/version" "kv" "pgx" no_faults
               [("auth", auth_pkg); ("clash", clash_pkg)] [0; 1; 0; 1]
               params fresh_world) as [H1 H2].
  - reflexivity.
  - reaches_by_running.
  - by_running.
  - vm_compute. discriminate.
  - rewrite H1. apply (H2 eq_refl _ _ (surjective_pairing _)).
Defined.

Lemma Migrate_on_completed_store_witness :
  exists r0 rest,
    trace (Migrate1 [("auth", auth_pkg)] [0] params completed_world).1
    = trace completed_world
      ++ [Call (kv_Open "pgx" "postgres://lakefs") None;
          Call (store_Set "kv/db/version" "0") r0] ++ rest.
Proof.
  refine (proj2 (Migrate_on_completed_store 1 "kv/db/version" "kv" "pgx" no_faults
                   [("auth", auth_pkg)] [0] params completed_world _ _
                   {["kv/db/version" := "1"; "a" := "1"]})
            _ eq_refl eq_refl eq_refl eq_refl (surjective_pairing _)).
  lia.
Defined.

(** A provider whose export fails. *)
Definition broken_pkg : pkgMigrate :=
  {| Func := fun _ => ([], Some (ExtErr "export failed")); Tables := ["broken"] |}.

Lemma Wait_isolates_failures_witness :
  tasks (Wait no_faults [1; 0; 1] "kv_migrate_"
           (Go [("refs", refs_pkg); ("broken", broken_pkg)]) open_world).2 !! 0
  = Some (Finished None) /\
  failures (tasks (Wait no_faults [1; 0; 1] "kv_migrate_"
                     (Go [("refs", refs_pkg); ("broken", broken_pkg)]) open_world).2)
  <> [].
Proof.
  split.
  - refine (proj1 (Wait_isolates_failures no_faults
                     [("refs", refs_pkg); ("broken", broken_pkg)] [1; 0; 1]
                     "kv_migrate_" open_world
                     (Wait no_faults [1; 0; 1] "kv_migrate_"
                        (Go [("refs", refs_pkg); ("broken", broken_pkg)]) open_world).1
                     (Wait no_faults [1; 0; 1] "kv_migrate_"
                        (Go [("refs", refs_pkg); ("broken", broken_pkg)]) open_world).2
                     {["kv/db/version" := "0"]} 0 "refs" refs_pkg [("d", "4")]
                     _ eq_refl eq_refl _ _ _ _ (surjective_pairing _))).
    + intros t c _. reflexivity.
    + eexists _, _. split; [reflexivity|]. split; [apply header_frame_ok|].
      repeat constructor. eexists. split; [reflexivity|]. split; reflexivity.
    + apply (bool_decide_unpack _). vm_compute. reflexivity.
    + intros k Hk. simpl in Hk.
      apply elem_of_cons in Hk as [->|Hk]; [split; [discriminate | reflexivity]|].
      now apply elem_of_nil in Hk.
    + intros [|[|j]] n q k Hj Hq Hk; [now contradiction Hj| |discriminate].
      injection Hq as <- <-. apply not_elem_of_nil.
  - vm_compute. discriminate.
Defined.

Lemma Migrate_unreadable_marker_witness :
  exists e rc,
    Migrate1 [("auth", auth_pkg)] [0] params
      {| table := Some {["kv/db/version" := "one"]}; relations := ∅; dirs := ∅;
         trace := [] |}
    = ({| table := Some {["kv/db/version" := "one"]}; relations := ∅; dirs := ∅;
          trace := [Call (kv_Open "pgx" "postgres://lakefs") None;
                    Call store_Close rc] |},
       Some (Errorf "validating version: " e)).
Proof.
  edestruct (Migrate_unreadable_marker 1 "kv/db/version" "kv" "pgx" no_faults
               [("auth", auth_pkg)] [0] params
               {| table := Some {["kv/db/version" := "one"]}; relations := ∅;
                  dirs := ∅; trace := [] |}
               (Migrate1 [("auth", auth_pkg)] [0] params
                  {| table := Some {["kv/db/version" := "one"]}; relations := ∅;
                     dirs := ∅; trace := [] |}).1
               (Migrate1 [("auth", auth_pkg)] [0] params
                  {| table := Some {["kv/db/version" := "one"]}; relations := ∅;
                     dirs := ∅; trace := [] |}).2
               {["kv/db/version" := "one"]} "one")
    as (e & rc & _ & _ & Hr & Ht & Hm & Hrel & Hd).
  - reflexivity.
  - reflexivity.
  - reflexivity.
  - reflexivity.
  - reflexivity.
  - apply surjective_pairing.
  - exists e, rc.
    rewrite (surjective_pairing (Migrate1 [("auth", auth_pkg)] [0] params _)).
    rewrite Hr. f_equal.
    destruct (Migrate1 [("auth", auth_pkg)] [0] params _).1 as [t rel d tr].
    simpl in *. by subst.
Defined.

End MigrateFacts.

(** ** The registry *)
Module RegistryFacts.
Import Postgres.
Local Open Scope list_scope.

(** The packages register one after the other, each from its own [init]. *)
Fixpoint Register_all (regs : list (string * pkgMigrate)) (kvPkgs : registry)
  : may_panic registry :=
  match regs with
  | [] => Done kvPkgs
  | (name, p) :: regs' =>
      match Register name (Func p) (Tables p) kvPkgs with
      | Done kvPkgs' => Register_all regs' kvPkgs'
      | Panic msg => Panic msg
      end
  end.

Lemma Register_all_Done regs : forall (kvPkgs m : registry),
  Register_all regs kvPkgs = Done m ->
  NoDup regs.*1 /\ (forall name, name ∈ regs.*1 -> kvPkgs !! name = None) /\
  m = list_to_map regs ∪ kvPkgs.
Proof.
  induction regs as [|[name p] regs IH]; intros kvPkgs m; simpl.
  - intros [= <-]. split; [constructor|]. split.
    + by intros name Hn%elem_of_nil.
    + by rewrite (left_id_L ∅ (∪)).
  - unfold Register. destruct (kvPkgs !! name) eqn:Hfree; [discriminate|].
    intros (Hnd & Hfr & ->)%IH.
    assert (Hnew : name ∉ regs.*1).
    { intros Hin. apply Hfr in Hin. by rewrite lookup_insert_eq in Hin. }
    split; [by constructor|]. split.
    + intros n Hn. apply elem_of_cons in Hn as [->|Hn]; [done|].
      apply Hfr in Hn. by apply lookup_insert_None in Hn as [Hn _].
    + destruct p as [f tables]. simpl. rewrite <- insert_union_l.
      symmetry. apply insert_union_r. by apply not_elem_of_list_to_map_1.
Qed.

Lemma Register_all_distinct regs : forall kvPkgs : registry,
  NoDup regs.*1 -> (forall name, name ∈ regs.*1 -> kvPkgs !! name = None) ->
  exists m, Register_all regs kvPkgs = Done m.
Proof.
  induction regs as [|[name p] regs IH]; intros kvPkgs Hnd Hfr; simpl.
  - by eexists.
  - apply NoDup_cons in Hnd as [Hnew Hnd].
    unfold Register. rewrite (Hfr name) by by left.
    apply IH; [done|]. intros n Hn. apply lookup_insert_None.
    split; [apply Hfr; by right|]. intros <-. done.
Qed.

(** X25.  A sequence of registrations goes through exactly when the
    names are pairwise distinct and not yet registered; a name that is
    registered already makes [Register] panic.  Then the registry holds
    the packages registered, each under its name, beside what it held, and
    ranging over a registry filled from empty gives every package once. *)
Theorem Register_names_once (regs : list (string * pkgMigrate)) (kvPkgs : registry) :
  ((exists m, Register_all regs kvPkgs = Done m) <->
   NoDup regs.*1 /\ forall name, name ∈ regs.*1 -> kvPkgs !! name = None) /\
  (forall m, Register_all regs kvPkgs = Done m ->
     m = list_to_map regs ∪ kvPkgs /\
     (kvPkgs = ∅ -> map_to_list m ≡ₚ regs)) /\
  (forall name f tables,
     is_Some (kvPkgs !! name) ->
     Register name f tables kvPkgs = Panic ("Package already registered: " ++ name)).
Proof.
  split; [|split].
  - split.
    + intros [m Hm]. apply Register_all_Done in Hm as (? & ? & _). by split.
    + intros [Hnd Hfr]. by apply Register_all_distinct.
  - intros m Hm. apply Register_all_Done in Hm as (Hnd & _ & ->).
    split; [done|]. intros ->. rewrite (right_id_L ∅ (∪)).
    by apply map_to_list_to_map.
  - intros name f tables [p Hp]. unfold Register. by rewrite Hp.
Qed.

Lemma unregister_lookup (acc kvPkgs : registry) k :
  map_fold (fun k (_ : pkgMigrate) (m : registry) => delete k m) acc kvPkgs !! k
  = match kvPkgs !! k with
    | Some _ => None
    | None => acc !! k
    end.
Proof.
  revert k. apply (map_fold_weak_ind
    (fun (r : registry) (m : registry) =>
       forall k, r !! k = match m !! k with Some _ => None | None => acc !! k end)).
  - intros k. by rewrite lookup_empty.
  - intros i x m r Hi IH k. destruct (decide (k = i)) as [->|Hne].
    + by rewrite lookup_delete_eq, lookup_insert_eq.
    + by rewrite lookup_delete_ne, lookup_insert_ne, IH.
Qed.

(** X26.  [UnRegisterAll] leaves the registry empty, whatever it held:
    afterwards every name can be registered again. *)
Theorem UnRegisterAll_empties (kvPkgs : registry) :
  UnRegisterAll kvPkgs = ∅ /\
  forall name f tables,
    Register name f tables (UnRegisterAll kvPkgs)
    = Done {[name := {| Func := f; Tables := tables |}]}.
Proof.
  assert (He : UnRegisterAll kvPkgs = ∅).
  { apply map_empty. intros k. unfold UnRegisterAll. rewrite unregister_lookup.
    by destruct (kvPkgs !! k). }
  split; [done|]. intros name f tables. rewrite He. unfold Register.
  by rewrite lookup_empty, insert_empty.
Qed.

Lemma Register_names_once_witness :
  exists m,
    Register_all [("auth", MigrateFacts.auth_pkg); ("refs", MigrateFacts.refs_pkg)] ∅
    = Done m.
Proof.
  apply (proj2 (proj1 (Register_names_once
                         [("auth", MigrateFacts.auth_pkg); ("refs", MigrateFacts.refs_pkg)]
                         ∅))).
  split.
  - apply (bool_decide_unpack _). vm_compute. reflexivity.
  - intros name _. apply lookup_empty.
Defined.

End RegistryFacts.
